(** * OCRganizer: company-name normalisation and duplicate-folder merging

    A shallow embedding of [src/company_normalizer.py] and the properties
    its specification states about it, followed by the functions of
    [src/file_organizer.py] that call it or work on the same folders, with
    further properties of both.

    Conventions of the embedding.
    - A Python [str] is a list of characters ([str := list ascii]); string
      literals are read through the coercion [list_ascii_of_string].  The
      character classes ([\s], [\w], [str.lower], ...) are those Python
      uses on the code points below 128, the ASCII characters.  The model
      gives the code points from 128 on no case and no class; Python does
      (a sharp s is upper-cased to two letters, a no-break space is white
      space), so the properties that depend on the case or the class of
      such a character are stated for ASCII names ([isascii]).
    - A Python [dict] keeps insertion order, and the order decides which
      company wins a tie: [company_mappings] is an association list with
      the update-in-place / append-at-the-end behaviour of [dict].
    - A Python [set] of strings is a duplicate-free list; the functions
      that iterate over a set are shown not to depend on its order where
      that matters.
    - A Python [float] is a binary64 number, given by its exact rational
      value.  Every operation on floats rounds the exact result to the
      nearest such number, ties to even ([Binary64.round]), and so do a
      decimal literal, the conversion of an integer and the division of
      two integers.  Comparisons are those of the values.
    - The file system below [output_dir] is a finite map from relative
      paths (lists of components) to files and directories. *)

From Stdlib Require Import String Ascii List Bool Arith ZArith QArith Qminmax Lqa Lia.
From Stdlib Require Import DecimalNat DecimalString Sorted Qround Qpower SpecFloat.
From stdpp Require Import gmap strings list fin_maps.

Import ListNotations.
Close Scope Q_scope.
Local Open Scope nat_scope.
Local Open Scope string_scope.
Local Open Scope list_scope.

(** ** Python strings *)

Abbreviation str := (list ascii).

Coercion list_ascii_of_string : string >-> list.

Module PyStr.

Definition code (c : ascii) : nat := nat_of_ascii c.

(** [str.isspace] / [\s]: TAB..CR, FS..US and the blank. *)
Definition isspace (c : ascii) : bool :=
  let n := code c in
  (Nat.leb 9 n && Nat.leb n 13) || (Nat.leb 28 n && Nat.leb n 32).

Definition isupper (c : ascii) : bool :=
  let n := code c in Nat.leb 65 n && Nat.leb n 90.

Definition islower (c : ascii) : bool :=
  let n := code c in Nat.leb 97 n && Nat.leb n 122.

Definition isdigit (c : ascii) : bool :=
  let n := code c in Nat.leb 48 n && Nat.leb n 57.

(** [\w]: letters, digits and the underscore. *)
Definition isword (c : ascii) : bool :=
  isupper c || islower c || isdigit c || Nat.eqb (code c) 95.

Definition lower_char (c : ascii) : ascii :=
  if isupper c then ascii_of_nat (code c + 32) else c.

Definition upper_char (c : ascii) : ascii :=
  if islower c then ascii_of_nat (code c - 32) else c.

Definition lower (s : str) : str := map lower_char s.
Definition upper (s : str) : str := map upper_char s.

(** [str.capitalize]: first character upper-cased, the rest lower-cased. *)
Definition capitalize (s : str) : str :=
  match s with
  | [] => []
  | c :: r => upper_char c :: lower r
  end.

Fixpoint dropwhile (p : ascii -> bool) (s : str) : str :=
  match s with
  | [] => []
  | c :: r => if p c then dropwhile p r else s
  end.

Definition lstrip_by (p : ascii -> bool) (s : str) : str := dropwhile p s.
Definition rstrip_by (p : ascii -> bool) (s : str) : str :=
  rev (dropwhile p (rev s)).
Definition strip_by (p : ascii -> bool) (s : str) : str :=
  rstrip_by p (lstrip_by p s).

(** [s.strip()] and [s.strip("_")]. *)
Definition strip (s : str) : str := strip_by isspace s.
Definition is_underscore (c : ascii) : bool := Nat.eqb (code c) 95.
Definition strip_underscores (s : str) : str := strip_by is_underscore s.

(** [s.split()]: the maximal runs of non-blank characters. *)
Fixpoint split_from (cur : str) (s : str) : list str :=
  match s with
  | [] => match cur with [] => [] | _ => [rev cur] end
  | c :: r =>
      if isspace c
      then match cur with
           | [] => split_from [] r
           | _ => rev cur :: split_from [] r
           end
      else split_from (c :: cur) r
  end.
Definition split (s : str) : list str := split_from [] s.

(** [sep.join(words)]. *)
Fixpoint join (sep : str) (ws : list str) : str :=
  match ws with
  | [] => []
  | [w] => w
  | w :: r => w ++ sep ++ join sep r
  end.

(** [re.sub("[...]", rep, s)] for a one-character class. *)
Definition sub_class (p : ascii -> bool) (rep : ascii) (s : str) : str :=
  map (fun c => if p c then rep else c) s.

(** [re.sub(r"\s+", rep, s)]: every maximal run of white space becomes
    one [rep]. *)
Fixpoint sub_runs_from (in_run : bool) (rep : ascii) (s : str) : str :=
  match s with
  | [] => []
  | c :: r =>
      if isspace c
      then if in_run then sub_runs_from true rep r
           else rep :: sub_runs_from true rep r
      else c :: sub_runs_from false rep r
  end.
Definition sub_space_runs (rep : ascii) (s : str) : str :=
  sub_runs_from false rep s.

(** [str(n)] for a non-negative integer. *)
Definition str_of_nat (n : nat) : str :=
  list_ascii_of_string (NilEmpty.string_of_uint (Nat.to_uint n)).

Definition eqb (a b : str) : bool := bool_decide (a = b).

(** [x in xs] for a list (or set) of strings. *)
Definition mem (x : str) (xs : list str) : bool := bool_decide (x ∈ xs).

(** Truthiness of a string. *)
Definition truthy (s : str) : bool :=
  match s with [] => false | _ => true end.

(** [str.isascii]: every code point is below 128. *)
Definition isascii (s : str) : bool :=
  forallb (fun c => Nat.ltb (code c) 128) s.

End PyStr.

(** ** NameCanonicalizer: the pure string transforms *)

Module Canon.
Import PyStr.

(** The double quote, code point 34. *)
Definition dquote : ascii := ascii_of_nat 34.

(** The character class of [invalid_chars]: the nine characters
    less-than, greater-than, colon, double quote, slash, backslash,
    bar, question mark and star. *)
Definition invalid_chars : str :=
  ("<" : str) ++ (">" : str) ++ (":" : str) ++ [dquote] ++ ("/" : str)
  ++ ("\" : str) ++ ("|" : str) ++ ("?" : str) ++ ("*" : str).

Definition invalid_char (c : ascii) : bool := bool_decide (c ∈ invalid_chars).

(** [CompanyNormalizer._sanitize_name] (and the identical
    [CompanyMapping._sanitize_name]). *)
Definition _sanitize_name (name : str) : str :=
  if negb (truthy name) then "Unknown" : str
  else
    let name := sub_class invalid_char "_" name in
    let name := sub_space_runs "_" name in
    let name := strip (strip_underscores name) in
    if truthy name then name else "Unknown" : str.

Definition common_suffixes : list str :=
  map (fun x : string => (x : str))
    ["inc"; "inc."; "incorporated"; "corp"; "corp."; "corporation";
     "llc"; "l.l.c."; "ltd"; "ltd."; "limited"; "co"; "co."; "company";
     "bank"; "credit union"; "federal credit union"].

Definition common_prefixes : list str :=
  map (fun x : string => (x : str)) ["the"; "a"; "an"].

(** [while words and words[0] in self.common_prefixes: words.pop(0)] *)
Fixpoint drop_prefixes (words : list str) : list str :=
  match words with
  | [] => []
  | w :: r => if mem w common_prefixes then drop_prefixes r else words
  end.

(** [while words and words[-1] in self.common_suffixes: words.pop()] *)
Definition drop_suffixes (words : list str) : list str :=
  rev ((fix go (ws : list str) : list str :=
          match ws with
          | [] => []
          | w :: r => if mem w common_suffixes then go r else ws
          end) (rev words)).

(** [CompanyNormalizer._normalize_name] *)
Definition _normalize_name (name : str) : str :=
  if negb (truthy name) then []
  else
    let normalized := strip (lower name) in
    let normalized :=
      sub_class (fun c => negb (isword c || isspace c)) " " normalized in
    let normalized := strip (sub_space_runs " " normalized) in
    let words := split normalized in
    let words := drop_prefixes words in
    let words := drop_suffixes words in
    join " " words.

(** [re.split(r"(\s+|[-_&/])", name)]: the text between delimiters,
    alternating with the delimiters themselves (a run of white space or
    one of the four characters).  [seg] is the text read since the last
    delimiter, reversed; [run] is the run of white space being read,
    reversed. *)
Definition isdelim (c : ascii) : bool :=
  bool_decide (c ∈ (("-" : str) ++ ("_" : str) ++ ("&" : str) ++ ("/" : str))).

Fixpoint re_split_from (seg : str) (run : option str) (s : str) : list str :=
  match s with
  | [] =>
      match run with
      | Some w => [rev w; []]
      | None => [rev seg]
      end
  | c :: r =>
      if isspace c then
        match run with
        | Some w => re_split_from [] (Some (c :: w)) r
        | None => rev seg :: re_split_from [] (Some [c]) r
        end
      else if isdelim c then
        match run with
        | Some w => rev w :: [] :: [c] :: re_split_from [] None r
        | None => rev seg :: [c] :: re_split_from [] None r
        end
      else
        match run with
        | Some w => rev w :: re_split_from [c] None r
        | None => re_split_from (c :: seg) None r
        end
  end.
Definition re_split (name : str) : list str := re_split_from [] None name.

Definition lowercase_words : list str :=
  map (fun x : string => (x : str))
    ["of"; "and"; "the"; "for"; "in"; "on"; "at"; "by"].

Definition uppercase_words : list str :=
  map (fun x : string => (x : str))
    ["LLC"; "INC"; "CORP"; "LTD"; "USA"; "US"; "UK"].

Definition proper_case_part (part : str) : str :=
  if truthy (strip part) then
    if mem (lower part) lowercase_words then lower part
    else if mem (upper part) uppercase_words then upper part
    else capitalize part
  else part.

(** [CompanyNormalizer._proper_case] *)
Definition _proper_case (name : str) : str :=
  if negb (truthy name) then name
  else concat (map proper_case_part (re_split name)).

(** [CompanyNormalizer._create_canonical_name] *)
Definition _create_canonical_name (company_name : str) : str :=
  _proper_case (strip company_name).

(** [CompanyNormalizer._folder_name_to_company_name] *)
Definition _folder_name_to_company_name (folder_name : str) : str :=
  _proper_case (sub_class is_underscore " " folder_name).

End Canon.

(** ** Floating-point numbers

    The binary64 numbers of IEEE 754 are zero and the numbers
    [m * 2 ^ e] with [m] an integer of at most 53 bits and [e] from
    [-1074] on.  (They end below [2 ^ 1024]; the numbers this program
    computes are lengths and counts, products of them by numbers up to
    two, and quotients, all far below.) *)

Module Binary64.
Local Open Scope Q_scope.

(** The binary logarithm of a positive number, rounded down. *)
Definition Qlog2 (x : Q) : Z :=
  let k := (Z.log2 (Qnum x) - Z.log2 (Zpos (Qden x)))%Z in
  if Qle_bool (2 ^ k) x then k else (k - 1)%Z.

(** The nearest integer; of the two nearest ones the even one. *)
Definition nearest_even (x : Q) : Z :=
  let f := Qfloor x in
  match Qcompare (x - inject_Z f) (1 # 2) with
  | Lt => f
  | Gt => (f + 1)%Z
  | Eq => if Z.even f then f else (f + 1)%Z
  end.

(** The exponent of the unit in the last place of the doubles next to
    a positive [x]: 53 bits above it, and [-1074] for the subnormal
    numbers. *)
Definition ulp_exp (x : Q) : Z := Z.max (Qlog2 x - 52) (-1074).

Definition round_pos (x : Q) : Q :=
  let e := ulp_exp x in inject_Z (nearest_even (x / 2 ^ e)) * 2 ^ e.

(** Rounding to the nearest double, ties to even. *)
Definition round (x : Q) : Q :=
  match Qcompare x 0 with
  | Eq => 0
  | Gt => round_pos x
  | Lt => - round_pos (- x)
  end.

(** A decimal literal of the source, as [0.6]. *)
Definition literal (x : Q) : Q := round x.

(** [float(n)], the conversion an integer operand of a float operation
    goes through. *)
Definition of_nat (n : nat) : Q := round (inject_Z (Z.of_nat n)).

(** [x + y], [x * y] and [x / y] on floats. *)
Definition add (x y : Q) : Q := round (x + y).
Definition mul (x y : Q) : Q := round (x * y).
Definition div (x y : Q) : Q := round (x / y).

(** [a / b] on two integers, [b] positive: the quotient, rounded
    once. *)
Definition int_div (a b : nat) : Q :=
  round (inject_Z (Z.of_nat a) / inject_Z (Z.of_nat b)).

(** The value of a finite number of [SpecFloat], the formalisation of
    IEEE 754 in the standard library, and its conversion of an integer;
    the numbers on which the operations above are compared with its
    operations: the quotients of small integers, large integers, a small
    quotient and two subnormal numbers. *)
Definition of_spec_float (x : spec_float) : Q :=
  match x with
  | S754_finite s m e => (if s then -1 else 1) * inject_Z (Zpos m) * 2 ^ e
  | _ => 0
  end.

Definition ieee_of_Z (n : Z) : spec_float :=
  binary_normalize 53 1024 n 0 false.

Definition samples : list spec_float :=
  flat_map (fun a => map (fun b => SFdiv 53 1024 (ieee_of_Z a) (ieee_of_Z b))
                         (map Z.of_nat (seq 1 6)))
           (map Z.of_nat (seq 0 6))
  ++ map ieee_of_Z [17; 200; 2 ^ 53 + 1; 2 ^ 53 + 3; 2 ^ 62 + 12345]%Z
  ++ [SFdiv 53 1024 (ieee_of_Z 1) (ieee_of_Z (2 ^ 62 + 1));
      SFldexp 53 1024 (ieee_of_Z 5) (-1074);
      SFldexp 53 1024 (ieee_of_Z 3) (-1060)].

(** The two operations give the same number, or the one of IEEE 754
    overflows and the number here is not below [2 ^ 1024]. *)
Definition agree (op_ieee : spec_float -> spec_float -> spec_float)
    (op : Q -> Q -> Q) (x y : spec_float) : bool :=
  match op_ieee x y with
  | S754_nan => false
  | S754_infinity _ =>
      Qle_bool (2 ^ 1024) (op (of_spec_float x) (of_spec_float y))
  | r => Qeq_bool (of_spec_float r) (op (of_spec_float x) (of_spec_float y))
  end.

Definition is_zero (x : spec_float) : bool :=
  match x with S754_zero _ => true | _ => false end.

End Binary64.

(** ** difflib.SequenceMatcher

    [_calculate_similarity] calls [SequenceMatcher(None, a, b).ratio()]
    of Python's standard library.  The model follows [find_longest_match]
    and [get_matching_blocks] of CPython's difflib, with no junk function
    ([isjunk] is [None], so the set of junk characters is empty and the two
    loops that extend a match over junk never run) and with the automatic
    junk heuristic, which drops the popular characters of a second string
    of 200 characters or more from the index [b2j]. *)

Module Difflib.

Definition char_at (s : str) (i : nat) : ascii := nth i s Ascii.zero.

Definition char_eqb (x y : ascii) : bool := bool_decide (x = y).

Section Matcher.
Variables a b : str.

Fixpoint indices_from (j : nat) (s : str) (c : ascii) : list nat :=
  match s with
  | [] => []
  | x :: r =>
      if char_eqb x c then j :: indices_from (S j) r c
      else indices_from (S j) r c
  end.

(** [__chain_b]: a character is popular when the second string has at
    least 200 characters and the character occurs more than
    [n // 100 + 1] times in it. *)
Definition popular (c : ascii) : bool :=
  Nat.leb 200 (length b)
  && Nat.ltb (length b / 100 + 1) (length (indices_from 0 b c)).

(** [b2j.get(c, [])] *)
Definition b2j (c : ascii) : list nat :=
  if popular c then [] else indices_from 0 b c.

(** [j2len.get(j - 1, 0)] *)
Definition j2len_prev (j2len : gmap nat nat) (j : nat) : nat :=
  match j with
  | O => 0
  | S j' => default 0 (j2len !! j')
  end.

(** The loop [for j in b2j.get(a[i], nothing)] of [find_longest_match]
    for one [i]. *)
Fixpoint scan_row (i blo bhi : nat) (j2len : gmap nat nat) (js : list nat)
    (newj2len : gmap nat nat) (best : nat * nat * nat)
  : gmap nat nat * (nat * nat * nat) :=
  match js with
  | [] => (newj2len, best)
  | j :: js' =>
      if Nat.ltb j blo then scan_row i blo bhi j2len js' newj2len best
      else if Nat.leb bhi j then (newj2len, best)
      else
        let k := j2len_prev j2len j + 1 in
        let newj2len := <[j := k]> newj2len in
        let best :=
          if Nat.ltb (snd best) k then (i + 1 - k, j + 1 - k, k) else best in
        scan_row i blo bhi j2len js' newj2len best
  end.

(** The loop [for i in range(alo, ahi)]. *)
Definition scan_rows (alo ahi blo bhi : nat)
  : gmap nat nat * (nat * nat * nat) :=
  fold_left
    (fun (st : gmap nat nat * (nat * nat * nat)) (i : nat) =>
       scan_row i blo bhi (fst st) (b2j (char_at a i)) ∅ (snd st))
    (seq alo (ahi - alo)) (∅, (alo, blo, 0)).

(** [while besti > alo and bestj > blo and a[besti-1] == b[bestj-1]] *)
Fixpoint extend_left (alo blo besti bestj bestsize : nat)
  : nat * nat * nat :=
  match besti, bestj with
  | S i', S j' =>
      if Nat.ltb alo besti && Nat.ltb blo bestj
         && char_eqb (char_at a i') (char_at b j')
      then extend_left alo blo i' j' (S bestsize)
      else (besti, bestj, bestsize)
  | _, _ => (besti, bestj, bestsize)
  end.

(** [while besti+bestsize < ahi and bestj+bestsize < bhi and
    a[besti+bestsize] == b[bestj+bestsize]]; [room] is
    [ahi - (besti + bestsize)]. *)
Fixpoint extend_right (room bhi besti bestj bestsize : nat) : nat :=
  match room with
  | O => bestsize
  | S room' =>
      if Nat.ltb (bestj + bestsize) bhi
         && char_eqb (char_at a (besti + bestsize))
                     (char_at b (bestj + bestsize))
      then extend_right room' bhi besti bestj (S bestsize)
      else bestsize
  end.

(** [SequenceMatcher.find_longest_match] *)
Definition find_longest_match (alo ahi blo bhi : nat) : nat * nat * nat :=
  let '(besti, bestj, bestsize) := snd (scan_rows alo ahi blo bhi) in
  let '(besti, bestj, bestsize) :=
    extend_left alo blo besti bestj bestsize in
  let bestsize :=
    extend_right (ahi - (besti + bestsize)) bhi besti bestj bestsize in
  (besti, bestj, bestsize).

(** The sum of the sizes of the blocks [get_matching_blocks] finds in
    the window [alo, ahi) x [blo, bhi): the longest match, then the
    windows to its left and to its right.  (The source keeps the
    pending windows on a queue; the sum does not depend on the order
    in which they are visited.) *)
Fixpoint matched (fuel alo ahi blo bhi : nat) : nat :=
  match fuel with
  | O => 0
  | S fuel' =>
      let '(i, j, k) := find_longest_match alo ahi blo bhi in
      if Nat.eqb k 0 then 0
      else
        k
        + (if Nat.ltb alo i && Nat.ltb blo j
           then matched fuel' alo i blo j else 0)
        + (if Nat.ltb (i + k) ahi && Nat.ltb (j + k) bhi
           then matched fuel' (i + k) ahi (j + k) bhi else 0)
  end.

Definition matches : nat :=
  matched (S (length a)) 0 (length a) 0 (length b).

(** [SequenceMatcher.ratio]: [2.0 * matches / length], and [1.0] for
    two empty strings. *)
Definition ratio : Q :=
  match (length a + length b)%nat with
  | O => 1%Q
  | S n =>
      Binary64.div (Binary64.mul 2 (Binary64.of_nat matches))
                   (Binary64.of_nat (S n))
  end.

End Matcher.

(** What the loops of [find_longest_match] keep true: of [j2len] after
    the row before [i] (every recorded match ends inside the window and
    starts inside it), and of the best match so far. *)
Definition row_ok (alo blo bhi i : nat) (d : gmap nat nat) : Prop :=
  forall j k, d !! j = Some k ->
    blo <= j < bhi /\ 1 <= k /\ k <= j + 1 - blo /\ k + alo <= i.

Definition best_ok (alo blo bhi i : nat) (best : nat * nat * nat) : Prop :=
  alo <= fst (fst best) /\ fst (fst best) + snd best <= i
  /\ blo <= snd (fst best) /\ snd (fst best) + snd best <= bhi.

End Difflib.

(** ** SimilarityScorer *)

Module Scorer.
Import PyStr.

Definition Qltb (x y : Q) : bool := negb (Qle_bool y x).

(** [set(name.split())] *)
Definition word_set (name : str) : list str := remove_dups (split name).

(** [CompanyNormalizer._calculate_similarity]; [min(1.0, score)] is
    [score] when it is below [1.0]. *)
Definition _calculate_similarity (name1 name2 : str) : Q :=
  if negb (truthy name1) || negb (truthy name2) then 0%Q
  else
    let basic_similarity := Difflib.ratio name1 name2 in
    let words1 := word_set name1 in
    let words2 := word_set name2 in
    match words1, words2 with
    | _ :: _, _ :: _ =>
        let word_overlap :=
          Binary64.int_div (length (list_intersection words1 words2))
                           (length (list_union words1 words2)) in
        let subset_bonus :=
          if Qltb (Binary64.literal 0.8) word_overlap
          then Binary64.literal 0.2 else 0%Q in
        let score :=
          Binary64.add
            (Binary64.add
               (Binary64.mul (Binary64.literal 0.6) basic_similarity)
               (Binary64.mul (Binary64.literal 0.3) word_overlap))
            subset_bonus in
        if Qltb score 1 then score else 1%Q
    | _, _ => basic_similarity
    end.

End Scorer.

(** The score as the specification words it, over finite sets of words:
    zero when a name is empty, the sequence ratio alone when a name has no
    word, else the weighted sum of the ratio and of the Jaccard overlap of
    the two word sets, with the bonus, capped at one; the arithmetic is
    that of floats. *)

Module ScorerSpec.
Import PyStr.

Definition words (name : str) : gset str := list_to_set (split name).

Definition jaccard (X Y : gset str) : Q :=
  Binary64.int_div (size (X ∩ Y)) (size (X ∪ Y)).

Definition bonus (overlap : Q) : Q :=
  if Qlt_le_dec (Binary64.literal 0.8) overlap
  then Binary64.literal 0.2 else 0%Q.

Definition spec_similarity (name1 name2 : str) : Q :=
  if decide (name1 = [] \/ name2 = []) then 0%Q
  else if decide (words name1 = ∅ \/ words name2 = ∅)
  then Difflib.ratio name1 name2
  else
    let basic := Difflib.ratio name1 name2 in
    let overlap := jaccard (words name1) (words name2) in
    Qmin 1
      (Binary64.add
         (Binary64.add (Binary64.mul (Binary64.literal 0.6) basic)
                       (Binary64.mul (Binary64.literal 0.3) overlap))
         (bonus overlap)).

End ScorerSpec.

(** ** CompanyRegistry *)

Module Registry.
Import PyStr Canon Scorer.

(** [@dataclass CompanyMapping] *)
Record CompanyMapping : Type := mkMapping {
  canonical_name : str;
  variations : list str;
  folder_name : str
}.

(** The constructor with its [__post_init__]: an empty [folder_name] is
    replaced by the sanitized canonical name. *)
Definition new_mapping (canonical folder : str) : CompanyMapping :=
  {| canonical_name := canonical;
     variations := [];
     folder_name :=
       if truthy folder then folder else _sanitize_name canonical |}.

(** [set.add] *)
Definition set_add (x : str) (s : list str) : list str :=
  if mem x s then s else s ++ [x].

Definition add_variation (v : str) (m : CompanyMapping) : CompanyMapping :=
  {| canonical_name := canonical_name m;
     variations := set_add v (variations m);
     folder_name := folder_name m |}.

(** [d.get(k)] and [d[k] = v] on an insertion-ordered dictionary. *)
Fixpoint dict_get {V : Type} (k : str) (d : list (str * V)) : option V :=
  match d with
  | [] => None
  | (k', v) :: r => if eqb k' k then Some v else dict_get k r
  end.

Fixpoint dict_set {V : Type} (k : str) (v : V) (d : list (str * V))
  : list (str * V) :=
  match d with
  | [] => [(k, v)]
  | (k', v') :: r =>
      if eqb k' k then (k, v) :: r else (k', v') :: dict_set k v r
  end.

(** The attributes of [CompanyNormalizer] that the registry operations
    read and write; the threshold is a float, given by its value. *)
Record normalizer : Type := mkNormalizer {
  similarity_threshold : Q;
  company_mappings : list (str * CompanyMapping);
  normalized_to_canonical : list (str * str)
}.

Definition with_mappings (st : normalizer)
    (d : list (str * CompanyMapping)) : normalizer :=
  {| similarity_threshold := similarity_threshold st;
     company_mappings := d;
     normalized_to_canonical := normalized_to_canonical st |}.

(** The default of [similarity_threshold]. *)
Definition default_threshold : Q := Binary64.literal 0.8.

(** The registry of [__init__] before any scan. *)
Definition empty_normalizer (threshold : Q) : normalizer :=
  {| similarity_threshold := threshold;
     company_mappings := [];
     normalized_to_canonical := [] |}.

(** The body of the loop of [scan_existing_companies] for one directory
    [item] of the output directory. *)
Definition scan_item (st : normalizer) (item_name : str) : normalizer :=
  if eqb item_name ("Unknown" : str) then st
  else
    let company_name := _folder_name_to_company_name item_name in
    let mapping := new_mapping company_name item_name in
    let mapping := add_variation company_name mapping in
    let mapping := add_variation item_name mapping in
    {| similarity_threshold := similarity_threshold st;
       company_mappings :=
         dict_set (lower company_name) mapping (company_mappings st);
       normalized_to_canonical :=
         dict_set (_normalize_name company_name) company_name
           (normalized_to_canonical st) |}.

(** [scan_existing_companies] on the names of the directories that
    [output_dir.iterdir()] yields, in the order it yields them. *)
Definition scan_names (st : normalizer) (dirs : list str) : normalizer :=
  fold_left scan_item dirs st.

(** [CompanyNormalizer._find_exact_match] *)
Definition _find_exact_match (st : normalizer) (company_name : str)
  : option str :=
  match dict_get (lower company_name) (company_mappings st) with
  | Some m => Some (canonical_name m)
  | None =>
      match
        List.find
          (fun e : str * CompanyMapping =>
             mem (lower company_name) (map lower (variations (snd e))))
          (company_mappings st)
      with
      | Some e => Some (canonical_name (snd e))
      | None => None
      end
  end.

(** [if score > best_score and score >= self.similarity_threshold:
       best_score = score; best_match = mapping.canonical_name]; the
    floats are compared by their values. *)
Definition consider (threshold score : Q) (name : str)
    (best : option str * Q) : option str * Q :=
  if Qltb (snd best) score && Qle_bool threshold score
  then (Some name, score) else best.

(** One iteration of [for canonical, mapping in
    self.company_mappings.items()] in [_find_fuzzy_match]. *)
Definition fuzzy_step (threshold : Q) (normalized_input : str)
    (best : option str * Q) (entry : str * CompanyMapping)
  : option str * Q :=
  let mapping := snd entry in
  let best :=
    consider threshold
      (_calculate_similarity normalized_input
         (_normalize_name (canonical_name mapping)))
      (canonical_name mapping) best in
  fold_left
    (fun best variation =>
       consider threshold
         (_calculate_similarity normalized_input (_normalize_name variation))
         (canonical_name mapping) best)
    (variations mapping) best.

Definition fuzzy_scan (st : normalizer) (company_name : str)
  : option str * Q :=
  fold_left
    (fuzzy_step (similarity_threshold st) (_normalize_name company_name))
    (company_mappings st) (None, 0%Q).

(** [CompanyNormalizer._find_fuzzy_match] *)
Definition _find_fuzzy_match (st : normalizer) (company_name : str)
  : option str :=
  fst (fuzzy_scan st company_name).

(** [CompanyNormalizer._add_new_company] *)
Definition _add_new_company (st : normalizer)
    (canonical original_name : str) : normalizer :=
  let mapping := new_mapping canonical [] in
  let mapping := add_variation original_name mapping in
  let mapping := add_variation canonical mapping in
  {| similarity_threshold := similarity_threshold st;
     company_mappings :=
       dict_set (lower canonical) mapping (company_mappings st);
     normalized_to_canonical :=
       dict_set (_normalize_name canonical) canonical
         (normalized_to_canonical st) |}.

(** [if x:] for an optional string: [None] and the empty string are
    both false. *)
Definition some_truthy (x : option str) : option str :=
  match x with
  | Some s => if truthy s then Some s else None
  | None => None
  end.

Definition null_names : list str :=
  map (fun x : string => (x : str)) ["unknown"; "null"; "none"].

(** [CompanyNormalizer.normalize_company_name].  The result is [None]
    when the source raises: the subscript
    [self.company_mappings[canonical.lower()]] raises [KeyError] for a
    key that is not in the dictionary. *)
Definition normalize_company_name (st : normalizer) (company_name : str)
  : option (str * normalizer) :=
  if negb (truthy company_name) || mem (lower company_name) null_names
  then Some ("Unknown" : str, st)
  else
    match some_truthy (_find_exact_match st company_name) with
    | Some exact_match => Some (exact_match, st)
    | None =>
        match some_truthy (_find_fuzzy_match st company_name) with
        | Some canonical =>
            match dict_get (lower canonical) (company_mappings st) with
            | Some m =>
                Some (canonical,
                      with_mappings st
                        (dict_set (lower canonical)
                           (add_variation company_name m)
                           (company_mappings st)))
            | None => None
            end
        | None =>
            let canonical_name := _create_canonical_name company_name in
            Some (canonical_name,
                  _add_new_company st canonical_name company_name)
        end
    end.

(** [CompanyNormalizer.get_folder_name]; a [CompanyMapping] object is
    always true. *)
Definition get_folder_name (st : normalizer) (canonical_name : str) : str :=
  match dict_get (lower canonical_name) (company_mappings st) with
  | Some mapping => folder_name mapping
  | None => _sanitize_name canonical_name
  end.

(** The states a registry goes through: built by [__init__] from the
    directories found on disk (none when there is no output directory;
    after a merge the registry is cleared and scanned again), then
    changed by calls of [normalize_company_name]. *)
Inductive reachable : normalizer -> Prop :=
| reach_scan threshold dirs :
    reachable (scan_names (empty_normalizer threshold) dirs)
| reach_normalize st company_name result st' :
    reachable st ->
    normalize_company_name st company_name = Some (result, st') ->
    reachable st'.

End Registry.

(** ** The registry: its invariant and the words of its specification *)

Module RegistrySpec.
Import PyStr Canon Scorer Registry.

(** The invariant of the registry: [company_mappings] is a dictionary
    (no key twice), every mapping is stored under its lower-cased
    canonical name, and a mapping whose canonical name is empty has only
    variations that normalize to the empty string. *)
Definition wf (st : normalizer) : Prop :=
  NoDup (map fst (company_mappings st))
  /\ (forall k m, (k, m) ∈ company_mappings st ->
        k = lower (canonical_name m))
  /\ (forall k m, (k, m) ∈ company_mappings st ->
        canonical_name m = [] ->
        forall v, v ∈ variations m -> _normalize_name v = []).

(** The scores [_find_fuzzy_match] computes for one mapping: against
    its canonical name and against each of its variations. *)
Definition mapping_scores (normalized_input : str) (m : CompanyMapping)
  : list Q :=
  map (fun v => _calculate_similarity normalized_input (_normalize_name v))
      (canonical_name m :: variations m).

(** The same scores, each with the name [_find_fuzzy_match] would
    return for it, and the loop of [_find_fuzzy_match] over such a list. *)
Definition named_scores (normalized_input : str) (e : str * CompanyMapping)
  : list (str * Q) :=
  map (fun s => (canonical_name (snd e), s))
      (mapping_scores normalized_input (snd e)).

Definition consider_all (threshold : Q) (l : list (str * Q))
    (best : option str * Q) : option str * Q :=
  fold_left (fun best ns => consider threshold (snd ns) (fst ns) best) l best.

(** [x] equals, case-insensitively, the canonical name or a variation
    of [m]. *)
Definition matches_mapping (x : str) (m : CompanyMapping) : Prop :=
  lower x = lower (canonical_name m) \/ lower x ∈ map lower (variations m).

(** The guard of [normalize_company_name]: the name is empty or is,
    case-insensitively, one of unknown, null, none. *)
Definition null_like (x : str) : Prop := x = [] \/ lower x ∈ null_names.

(** [m], at position [length pre] of the registry, achieves the highest
    score for the input, and no mapping registered before it does. *)
Definition first_best (normalized_input : str)
    (pre : list (str * CompanyMapping)) (m : CompanyMapping)
    (post : list (str * CompanyMapping)) : Prop :=
  exists s, s ∈ mapping_scores normalized_input m
    /\ (forall e s', e ∈ pre ++ post -> s' ∈ mapping_scores normalized_input (snd e) ->
          (s' <= s)%Q)
    /\ (forall s', s' ∈ mapping_scores normalized_input m -> (s' <= s)%Q)
    /\ (forall e s', e ∈ pre -> s' ∈ mapping_scores normalized_input (snd e) ->
          (s' < s)%Q).

(** The result of a fuzzy match on the mapping [m]: its canonical name,
    and the registry with the raw name added to the variations of [m]
    and nothing else changed. *)
Definition matched_result (st : normalizer) (x : str)
    (pre : list (str * CompanyMapping)) (k : str) (m : CompanyMapping)
    (post : list (str * CompanyMapping)) : option (str * normalizer) :=
  Some (canonical_name m,
        with_mappings st (pre ++ (k, add_variation x m) :: post)).

(** The result of registering a new company for the raw name. *)
Definition registered_result (st : normalizer) (x : str)
  : option (str * normalizer) :=
  Some (_create_canonical_name x,
        _add_new_company st (_create_canonical_name x) x).

(** The fuzzy-match step as the specification states it, for a raw name
    with no exact match: a best score that reaches the threshold gives
    the first mapping with the highest score, with the raw name added to
    its variations; a best score below the threshold registers a new
    mapping. *)
Definition fuzzy_claim (st : normalizer) (x : str) : Prop :=
  _find_exact_match st x = None ->
  let input := _normalize_name x in
  ((exists e s, e ∈ company_mappings st /\ s ∈ mapping_scores input (snd e)
                /\ (similarity_threshold st <= s)%Q) ->
   exists pre k m post,
     company_mappings st = pre ++ (k, m) :: post
     /\ first_best input pre m post
     /\ normalize_company_name st x = matched_result st x pre k m post)
  /\ ((forall e s, e ∈ company_mappings st -> s ∈ mapping_scores input (snd e) ->
         (s < similarity_threshold st)%Q) ->
      normalize_company_name st x = registered_result st x).

(** The exact-match step as the specification states it: a raw name
    that equals, case-insensitively, the canonical name or a variation of
    a registered mapping gets the canonical name of a mapping it equals,
    and the registry is left as it was. *)
Definition exact_claim (st : normalizer) (x : str) : Prop :=
  (exists e, e ∈ company_mappings st /\ matches_mapping x (snd e)) ->
  exists e, e ∈ company_mappings st /\ matches_mapping x (snd e)
    /\ normalize_company_name st x = Some (canonical_name (snd e), st).


End RegistrySpec.

(** ** The file system below the output directory *)

Module FS.
Import PyStr.

(** A path relative to [output_dir], as its components; [[]] is
    [output_dir] itself. *)
Abbreviation path := (list str).

Inductive node : Type :=
| File (content : str)
| Dir.

#[global] Instance node_eq_dec : EqDecision node.
Proof. solve_decision. Defined.

Abbreviation tree := (gmap path node).

Definition is_file_node (n : node) : bool :=
  match n with File _ => true | Dir => false end.

(** [Path.exists], [Path.is_file], [Path.is_dir] *)
Definition exists_ (t : tree) (p : path) : bool :=
  match t !! p with Some _ => true | None => false end.

Definition is_file (t : tree) (p : path) : bool :=
  match t !! p with Some (File _) => true | _ => false end.

Definition is_dir (t : tree) (p : path) : bool :=
  match t !! p with Some Dir => true | _ => false end.

(** [p] lies strictly below [folder]. *)
Definition below (folder p : path) : bool :=
  bool_decide (folder `prefix_of` p) && negb (bool_decide (p = folder)).

(** [Path.name] *)
Definition name (p : path) : str := List.last p [].

(** [Path.parent] *)
Definition parent (p : path) : path := removelast p.

Definition pdf_tail : str := list_ascii_of_string "pdf".

(** The names [fnmatch] accepts for the pattern [*.pdf]. *)
Definition is_pdf_name (n : str) : bool :=
  bool_decide ((".pdf" : str) `suffix_of` n).

(** [folder.rglob("*")]: everything below [folder] (the order in which
    a directory is enumerated is not specified; the model takes the one
    of [map_to_list]). *)
Definition rglob_all (t : tree) (folder : path) : list path :=
  List.filter (below folder) (map fst (map_to_list t)).

(** [folder.rglob("*.pdf")] *)
Definition rglob_pdf (t : tree) (folder : path) : list path :=
  List.filter (fun p => is_pdf_name (name p)) (rglob_all t folder).

(** The directories that [output_dir.iterdir()] yields, by name. *)
Definition dir_names (t : tree) : list str :=
  omap (fun e : path * node =>
          match e with
          | ([n], Dir) => Some n
          | _ => None
          end)
       (map_to_list t).

(** [name.rfind(c)] *)
Fixpoint rfind (c : ascii) (s : str) : option nat :=
  match s with
  | [] => None
  | x :: r =>
      match rfind c r with
      | Some i => Some (S i)
      | None => if bool_decide (x = c) then Some 0 else None
      end
  end.

(** The position at which [Path.suffix] and [Path.stem] cut a name: the
    last dot, unless it is the first or the last character. *)
Definition suffix_start (n : str) : option nat :=
  match rfind "." n with
  | Some i => if Nat.ltb 0 i && Nat.ltb i (length n - 1) then Some i else None
  | None => None
  end.

(** [Path.suffix] and [Path.stem] *)
Definition suffix (n : str) : str :=
  match suffix_start n with Some i => drop i n | None => [] end.

Definition stem (n : str) : str :=
  match suffix_start n with Some i => take i n | None => n end.

(** [f"{stem}_{counter}{suffix}"] *)
Definition numbered (stem_ : str) (counter : nat) (suffix_ : str) : str :=
  stem_ ++ ("_" : str) ++ str_of_nat counter ++ suffix_.

(** [p.mkdir(parents=True, exist_ok=True)]: every missing directory on
    the way to [p] is created; [None] when a component exists and is not
    a directory ([FileExistsError], [NotADirectoryError]).  [done] is the
    part of the path already known to be a directory. *)
Fixpoint mkdir_from (t : tree) (done : path) (rest : list str) : option tree :=
  match rest with
  | [] => Some t
  | c :: rest' =>
      let p := done ++ [c] in
      match t !! p with
      | Some Dir => mkdir_from t p rest'
      | Some (File _) => None
      | None => mkdir_from (<[p := Dir]> t) p rest'
      end
  end.

Definition mkdir_parents (t : tree) (p : path) : option tree :=
  mkdir_from t [] p.

(** [shutil.move(src, dst)] of a file onto a free path. *)
Definition move (t : tree) (src dst : path) : tree :=
  match t !! src with
  | Some n => <[dst := n]> (delete src t)
  | None => t
  end.

(** [shutil.rmtree(folder)]: the directory and all below it are
    removed; [None] when [folder] is not a directory (the source raises
    [NotADirectoryError] or [FileNotFoundError]). *)
Definition rmtree (t : tree) (folder : path) : option tree :=
  if is_dir t folder
  then Some (filter (fun e : path * node => ~ folder `prefix_of` fst e) t)
  else None.

(** The number of files of the tree whose path satisfies [P]; all the
    files; the files that [*.pdf] matches. *)
Definition files_where (P : path -> bool) (t : tree) : nat :=
  size (filter (fun e : path * node =>
                  is_file_node (snd e) = true /\ P (fst e) = true) t).

Definition file_count (t : tree) : nat := files_where (fun _ => true) t.

Definition pdf_count (t : tree) : nat :=
  files_where (fun p => is_pdf_name (name p)) t.

End FS.

(** ** DuplicateMerger *)

Module Merger.
Import PyStr Canon Scorer Registry FS.

(** The candidates [_auto_merge_duplicates] collects: for every company
    and every later one, the pair and its score when the score is above
    0.85. *)
Definition pair_score (company1 company2 : CompanyMapping) : Q :=
  _calculate_similarity (_normalize_name (canonical_name company1))
                        (_normalize_name (canonical_name company2)).

Fixpoint find_duplicates (companies : list CompanyMapping)
  : list (CompanyMapping * CompanyMapping * Q) :=
  match companies with
  | [] => []
  | company1 :: later =>
      omap (fun company2 =>
              let similarity := pair_score company1 company2 in
              if Qltb (Binary64.literal 0.85) similarity
              then Some (company1, company2, similarity) else None)
           later
      ++ find_duplicates later
  end.

(** How the loop over the files of the merged folder ends. *)
Inductive outcome : Type :=
| Finished (t : tree)     (** every file was moved *)
| Raised (t : tree)       (** an exception was raised; [t] is what is left *)
| Diverged.               (** the model ran out of fuel *)

(** [while target_path.exists(): target_path = target_path.parent /
    f"{stem}_{counter}{suffix}"; counter += 1] *)
Fixpoint next_free (fuel : nat) (t : tree) (dir : path) (stem_ suffix_ : str)
    (counter : nat) (target_path : path) : option path :=
  match fuel with
  | O => None
  | S fuel' =>
      if exists_ t target_path
      then next_free fuel' t dir stem_ suffix_ (S counter)
             (dir ++ [numbered stem_ counter suffix_])
      else Some target_path
  end.

(** The path a file is moved to: [target_path] itself when it is free,
    else the first free numbered name. *)
Definition resolve_target (t : tree) (target_path : path) : option path :=
  next_free (S (S (size t))) t (parent target_path)
    (stem (name target_path)) (suffix (name target_path)) 1 target_path.

(** The paths a file with the relative path [rel] can be moved to in
    the kept folder [kn]: the same relative path, or a numbered name in
    the same directory. *)
Definition numbered_sibling (kn : str) (rel : list str) (k : nat) : path :=
  kn :: removelast rel
     ++ [numbered (stem (List.last rel [])) k (suffix (List.last rel []))].

Definition target_of (kn : str) (rel : list str) (target : path) : Prop :=
  target = kn :: rel
  \/ exists k, 1 <= k /\ target = numbered_sibling kn rel k.

(** The body of [for item in merge_folder.rglob("*")]. *)
Definition move_item (keep_folder merge_folder : path) (t : tree)
    (item : path) : outcome :=
  if is_file t item then
    let rel_path := drop (length merge_folder) item in
    let target_path := keep_folder ++ rel_path in
    match mkdir_parents t (parent target_path) with
    | None => Raised t
    | Some t1 =>
        match resolve_target t1 target_path with
        | None => Diverged
        | Some target_path => Finished (move t1 item target_path)
        end
    end
  else Finished t.

Fixpoint move_items (keep_folder merge_folder : path) (t : tree)
    (items : list path) : outcome :=
  match items with
  | [] => Finished t
  | item :: items' =>
      match move_item keep_folder merge_folder t item with
      | Finished t' => move_items keep_folder merge_folder t' items'
      | other => other
      end
  end.

(** The choice of the folder to keep: [(keep, merge)]. *)
Definition choose_keep (count1 count2 : nat) (company1 company2 : CompanyMapping)
  : CompanyMapping * CompanyMapping :=
  if Nat.ltb count2 count1
     || (Nat.eqb count1 count2
         && Nat.leb (length (canonical_name company1))
                    (length (canonical_name company2)))
  then (company1, company2) else (company2, company1).

(** The folder of a company, [self.output_dir / company.folder_name],
    for the folder names a scan gives: one path component. *)
Definition folder_of (company : CompanyMapping) : path :=
  [folder_name company].

(** The company whose folder [_merge_company_folders] keeps and the one
    whose folder it merges into it, from the two counts of
    [rglob("*.pdf")]. *)
Definition kept_and_merged (t : tree) (company1 company2 : CompanyMapping)
  : CompanyMapping * CompanyMapping :=
  choose_keep (length (rglob_pdf t (folder_of company1)))
              (length (rglob_pdf t (folder_of company2)))
              company1 company2.

(** [CompanyNormalizer._merge_company_folders]: the returned flag and
    the file system it leaves; [None] only if the model ran out of
    fuel. *)
Definition _merge_company_folders (t : tree)
    (company1 company2 : CompanyMapping) : option (bool * tree) :=
  let folder1 := folder_of company1 in
  let folder2 := folder_of company2 in
  if negb (exists_ t folder1) || negb (exists_ t folder2)
  then Some (false, t)
  else
    let '(keep, merge) := kept_and_merged t company1 company2 in
    let keep_folder := folder_of keep in
    let merge_folder := folder_of merge in
    match move_items keep_folder merge_folder t (rglob_all t merge_folder) with
    | Finished t' =>
        match rmtree t' merge_folder with
        | Some t'' => Some (true, t'')
        | None => Some (false, t')
        end
    | Raised t' => Some (false, t')
    | Diverged => None
    end.

(** [scan_existing_companies(output_dir)]; [None] when
    [output_dir.iterdir()] raises [NotADirectoryError]: the output
    directory exists and is a file. *)
Definition scan_existing_companies (st : normalizer) (t : tree)
  : option normalizer :=
  if exists_ t [] then
    if is_dir t [] then Some (scan_names st (dir_names t)) else None
  else Some st.

(** The loop [for dup in duplicates] of [_auto_merge_duplicates]. *)
Fixpoint merge_all (t : tree)
    (duplicates : list (CompanyMapping * CompanyMapping * Q))
    (merged_count : nat) : option (nat * tree) :=
  match duplicates with
  | [] => Some (merged_count, t)
  | (company1, company2, _) :: rest =>
      match _merge_company_folders t company1 company2 with
      | Some (true, t') => merge_all t' rest (S merged_count)
      | Some (false, t') => merge_all t' rest merged_count
      | None => None
      end
  end.

(** [CompanyNormalizer._auto_merge_duplicates], for an output directory
    that is set; [None] when the scan after the merges raises (or the
    model of a merge ran out of fuel). *)
Definition _auto_merge_duplicates (st : normalizer) (t : tree)
  : option (normalizer * tree) :=
  if negb (exists_ t []) then Some (st, t)
  else
    let companies := map snd (company_mappings st) in
    let duplicates := find_duplicates companies in
    match duplicates with
    | [] => Some (st, t)
    | _ =>
        match merge_all t duplicates 0 with
        | Some (merged_count, t') =>
            if Nat.ltb 0 merged_count
            then
              match
                scan_existing_companies
                  (empty_normalizer (similarity_threshold st)) t'
              with
              | Some st' => Some (st', t')
              | None => None
              end
            else Some (st, t')
        | None => None
        end
    end.

(** [CompanyNormalizer.__init__] with an output directory; [None] when
    the scan raises. *)
Definition init (threshold : Q) (auto_merge_duplicates : bool) (t : tree)
  : option (normalizer * tree) :=
  match scan_existing_companies (empty_normalizer threshold) t with
  | Some st =>
      if auto_merge_duplicates then _auto_merge_duplicates st t
      else Some (st, t)
  | None => None
  end.

End Merger.

(** ** The folder to keep, in the words of the specification *)

Module MergerSpec.
Import PyStr Registry FS Merger.







End MergerSpec.

(** ** Concrete registries and trees used in the examples *)

Module Examples.
Import PyStr Canon Scorer Registry RegistrySpec FS Merger MergerSpec.

(** The registry after [call] on the registry [st]. *)
Definition after (st : normalizer) (company_name : string) : normalizer :=
  match normalize_company_name st company_name with
  | Some (_, st') => st'
  | None => st
  end.

(** The result of [call] on the registry [st]; the empty string stands
    for a raised exception. *)
Definition answer (st : normalizer) (company_name : string) : str :=
  match normalize_company_name st company_name with
  | Some (c, _) => c
  | None => []
  end.

Definition fresh : normalizer := empty_normalizer default_threshold.

(** After [normalize_company_name("Chase Bank")] on a fresh registry. *)
Definition chase : normalizer := after fresh "Chase Bank".


(** A registry with the threshold 0.0 that knows the company Acme. *)
Definition acme_any : normalizer := after (empty_normalizer 0) "Acme".

(** A registry built by scanning an output directory that holds a
    folder named [null]. *)
Definition scanned_null : normalizer :=
  scan_names fresh [("null" : str)].

(** A registry that knows the company Inn at the Bay. *)
Definition bay : normalizer := after fresh "Inn at the Bay".

(** Two companies whose names are the same three words in another
    order. *)
Definition acme_bay_law : CompanyMapping :=
  add_variation "Acme_Bay_Law"
    (add_variation "Acme Bay Law" (new_mapping "Acme Bay Law" "Acme_Bay_Law")).

Definition law_bay_acme : CompanyMapping :=
  add_variation "Law_Bay_Acme"
    (add_variation "Law Bay Acme" (new_mapping "Law Bay Acme" "Law_Bay_Acme")).

Definition tree_of (l : list (list string * node)) : tree :=
  list_to_map
    (map (fun e => (map list_ascii_of_string (fst e), snd e)) l).

(** Two folders of one company, each with a file [report.pdf]; the
    second also has a file [report_1.pdf]. *)
Definition wells : tree :=
  tree_of [([], Dir);
           (["Wells_Fargo"], Dir);
           (["Wells_Fargo"; "report.pdf"], File "a");
           (["Wells_Fargo"; "2024"], Dir);
           (["Wells_Fargo"; "2024"; "march.pdf"], File "b");
           (["Wells_Fargo"; "notes.txt"], File "c");
           (["Wells_Fargo_Bank"], Dir);
           (["Wells_Fargo_Bank"; "report.pdf"], File "d")].

Definition wells_fargo : CompanyMapping :=
  add_variation "Wells_Fargo"
    (add_variation "Wells Fargo" (new_mapping "Wells Fargo" "Wells_Fargo")).

Definition wells_fargo_bank : CompanyMapping :=
  add_variation "Wells_Fargo_Bank"
    (add_variation "Wells Fargo Bank"
       (new_mapping "Wells Fargo Bank" "Wells_Fargo_Bank")).

Definition wells_merged : tree :=
  match _merge_company_folders wells wells_fargo wells_fargo_bank with
  | Some (_, t') => t'
  | None => ∅
  end.

(** Two folders of one company, each with a file named [.pdf]. *)
Definition dotted : tree :=
  tree_of [([], Dir);
           (["Acme"], Dir);
           (["Acme"; ".pdf"], File "x");
           (["Acme_Inc"], Dir);
           (["Acme_Inc"; ".pdf"], File "y")].

Definition acme : CompanyMapping :=
  add_variation "Acme" (add_variation "Acme" (new_mapping "Acme" "Acme")).

Definition acme_inc : CompanyMapping :=
  add_variation "Acme_Inc"
    (add_variation "Acme INC" (new_mapping "Acme INC" "Acme_Inc")).

Definition dotted_merged : tree :=
  match _merge_company_folders dotted acme acme_inc with
  | Some (_, t') => t'
  | None => ∅
  end.



End Examples.

(** ** The registry: statistics, listing and further invariants *)

Module Report.
Import PyStr Canon Scorer Registry.

(** The dictionary [get_statistics] returns. *)
Record statistics : Type := mkStatistics {
  total_companies : nat;
  total_variations : nat;
  average_variations_per_company : Q;
  threshold : Q
}.

(** [CompanyNormalizer.get_statistics] *)
Definition get_statistics (st : normalizer) : statistics :=
  let total_variations :=
    list_sum (map (fun e : str * CompanyMapping => length (variations (snd e)))
                  (company_mappings st)) in
  {| total_companies := length (company_mappings st);
     total_variations := total_variations;
     average_variations_per_company :=
       match company_mappings st with
       | [] => 0%Q
       | _ => Binary64.int_div total_variations
                (length (company_mappings st))
       end;
     threshold := similarity_threshold st |}.

(** [a < b] on strings: the order of the first code points that
    differ, a proper prefix being smaller. *)
Fixpoint str_ltb (a b : str) : bool :=
  match a, b with
  | _, [] => false
  | [], _ :: _ => true
  | x :: a', y :: b' =>
      if Nat.ltb (code x) (code y) then true
      else if Nat.ltb (code y) (code x) then false
      else str_ltb a' b'
  end.

(** [sorted(companies, key=lambda x: x["canonical_name"])]: a stable
    sort; an entry is put before the first one whose name is not smaller
    than its own. *)
Fixpoint insert_by_name (x : CompanyMapping) (l : list CompanyMapping)
  : list CompanyMapping :=
  match l with
  | [] => [x]
  | y :: r =>
      if str_ltb (canonical_name y) (canonical_name x)
      then y :: insert_by_name x r
      else x :: l
  end.

Definition sorted_by_name (l : list CompanyMapping) : list CompanyMapping :=
  fold_right insert_by_name [] l.

(** [CompanyNormalizer.list_companies]; an entry of the list has the
    three fields of the mapping. *)
Definition list_companies (st : normalizer) : list CompanyMapping :=
  sorted_by_name (map snd (company_mappings st)).

End Report.

Module RegistryInv.
Import PyStr Canon Scorer Registry.

(** What every mapping of a registry satisfies: its variations are a
    set that holds its canonical name, and a mapping whose canonical name
    is empty has only blank variations. *)
Definition mapping_ok (m : CompanyMapping) : Prop :=
  canonical_name m ∈ variations m
  /\ NoDup (variations m)
  /\ (canonical_name m = [] -> forall v, v ∈ variations m -> strip v = []).

Definition registry_ok (st : normalizer) : Prop :=
  forall k m, (k, m) ∈ company_mappings st -> mapping_ok m.

(** Every folder name of the registry was derived from the canonical
    name (none was read from the disk). *)
Definition sanitized_folders (st : normalizer) : Prop :=
  forall k m, (k, m) ∈ company_mappings st ->
    folder_name m = _sanitize_name (canonical_name m).

(** A name as the sanitizers leave it: not empty, none of the nine
    invalid characters, no white space. *)
Definition clean_name (s : str) : Prop :=
  s <> []
  /\ (forall c, c ∈ s -> c ∉ invalid_chars)
  /\ (forall c, c ∈ s -> isspace c = false).

(** [x] resolves to [c] by an exact match. *)
Definition resolves (st : normalizer) (x c : str) : Prop :=
  _find_exact_match st x = Some c /\ c <> [].

(** A sequence of calls of [normalize_company_name], as the organizer
    makes them for one document after another; [None] when a call
    raises. *)
Fixpoint normalize_all (st : normalizer) (names : list str)
  : option normalizer :=
  match names with
  | [] => Some st
  | company_name :: names' =>
      match normalize_company_name st company_name with
      | Some (_, st') => normalize_all st' names'
      | None => None
      end
  end.

(** The registries built from ASCII names alone: the names of the
    directories scanned and the names normalized since. *)
Definition ascii_built (st : normalizer) : Prop :=
  exists threshold dirs names,
    (forall d, d ∈ dirs -> isascii d = true)
    /\ (forall y, y ∈ names -> isascii y = true)
    /\ normalize_all (scan_names (empty_normalizer threshold) dirs) names
       = Some st.

End RegistryInv.

(** ** DocumentInfo: the names the organizer is given *)

Module Analyzer.
Import PyStr Scorer.

(** The fields of [DocumentInfo] that [__post_init__] rewrites whatever
    the date; a string field that is [None] is read as the empty
    string. *)
Record DocumentInfo : Type := mkDocumentInfo {
  company_name : str;
  document_type : str;
  confidence_score : Q
}.

(** [min(a, b)] and [max(a, b)]: the first argument unless the second
    is smaller (greater). *)
Definition py_min (a b : Q) : Q := if Qltb b a then b else a.
Definition py_max (a b : Q) : Q := if Qltb a b then b else a.

(** [DocumentInfo.__post_init__] *)
Definition __post_init__ (self : DocumentInfo) : DocumentInfo :=
  {| confidence_score := py_max 0 (py_min 1 (confidence_score self));
     company_name :=
       if truthy (company_name self) then strip (company_name self)
       else company_name self;
     document_type :=
       if truthy (document_type self)
       then strip (lower (document_type self))
       else document_type self |}.

End Analyzer.

(** ** FileOrganizer: the functions around the normalizer *)

Module Organizer.
Import PyStr Canon Registry FS.

(** [s.endswith(suffix)] *)
Definition endswith (s suffix_ : str) : bool :=
  bool_decide (suffix_ `suffix_of` s).

(** [FileOrganizer._sanitize_filename] *)
Definition _sanitize_filename (filename : str) : str :=
  if negb (truthy filename) then "document" : str
  else
    let filename :=
      if endswith filename (".pdf" : str)
      then take (length filename - 4) filename else filename in
    let filename := sub_class invalid_char "_" filename in
    let filename := sub_space_runs "_" filename in
    let filename := strip (strip_underscores filename) in
    let filename := if truthy filename then filename else "document" : str in
    if Nat.ltb 200 (length filename) then take 200 filename else filename.

(** [FileOrganizer._sanitize_dirname] *)
Definition _sanitize_dirname (dirname : str) : str :=
  if negb (truthy dirname) then "Unknown" : str
  else
    let dirname := sub_class invalid_char "_" dirname in
    let dirname := sub_space_runs "_" dirname in
    let dirname := strip (strip_underscores dirname) in
    if truthy dirname then dirname else "Unknown" : str.

(** [s.replace(old, new)] for a non-empty [old]: the occurrences are
    found from the left and do not overlap.  [skip] counts the characters
    of an occurrence still to be passed over. *)
Fixpoint replace_from (skip : nat) (old new : str) (s : str) : str :=
  match s with
  | [] => []
  | c :: r =>
      match skip with
      | S k => replace_from k old new r
      | O =>
          if bool_decide (old `prefix_of` s)
          then new ++ replace_from (length old - 1) old new r
          else c :: replace_from 0 old new r
      end
  end.

Definition replace (old new : str) (s : str) : str := replace_from 0 old new s.

(** The fields of [DocumentInfo] that [_generate_filename] reads;
    [date_text] is [doc_info.date.strftime(date_format)] when the
    document has a date.  A string field that is [None] is read as the
    empty string: the source only tests such a field for truth. *)
Record name_info : Type := mkNameInfo {
  company_name : str;
  document_type : str;
  date_text : option str;
  suggested_name : str
}.

(** [x or default] for strings. *)
Definition or_else (x default_ : str) : str :=
  if truthy x then x else default_.

(** [FileOrganizer._generate_filename] for the file-name pattern
    [pattern]. *)
Definition _generate_filename (pattern : str) (doc_info : name_info)
    (use_suggested : bool) : str :=
  let filename :=
    if use_suggested && truthy (suggested_name doc_info)
    then _sanitize_filename (suggested_name doc_info)
    else
      let replacements :=
        [(("{company}" : str),
          _sanitize_filename (or_else (company_name doc_info) ("Unknown" : str)));
         (("{type}" : str),
          _sanitize_filename (or_else (document_type doc_info) ("document" : str)));
         (("{date}" : str),
          match date_text doc_info with
          | Some d => d
          | None => "Unknown_Date" : str
          end)] in
      let filename :=
        fold_left (fun filename r => replace (fst r) (snd r) filename)
                  replacements pattern in
      _sanitize_filename filename in
  if negb (endswith filename (".pdf" : str))
  then filename ++ (".pdf" : str) else filename.

(** [calendar.month_name] *)
Definition month_name : list str :=
  ([] : str)
  :: map (fun x : string => (x : str))
       ["January"; "February"; "March"; "April"; "May"; "June"; "July";
        "August"; "September"; "October"; "November"; "December"].

(** [str(n)] for an integer. *)
Definition str_of_Z (n : Z) : str :=
  if Z.ltb n 0 then ("-" : str) ++ str_of_nat (Z.to_nat (- n))
  else str_of_nat (Z.to_nat n).

(** [f"{n:02d}"]: at least two characters, the sign among them, zeros
    after the sign. *)
Definition two_digits (n : Z) : str :=
  if Z.leb 0 n && Z.ltb n 10 then ("0" : str) ++ str_of_Z n else str_of_Z n.

(** [FileOrganizer._format_month_folder]; [None] when the subscript
    raises [IndexError].  A negative subscript counts from the end of
    the thirteen entries. *)
Definition _format_month_folder (month : Z) : option str :=
  if Z.leb (-13) month && Z.leb month 12 then
    let i := if Z.ltb month 0 then (month + 13)%Z else month in
    Some (two_digits month ++ (" - " : str) ++ nth (Z.to_nat i) month_name [])
  else None.

(** [while True: new_path = parent / f"{base}_{counter}{extension}" ...] *)
Fixpoint unique_from (fuel : nat) (t : tree) (dir : path)
    (base extension : str) (counter : nat) : option path :=
  match fuel with
  | O => None
  | S fuel' =>
      let new_path := dir ++ [numbered base counter extension] in
      if negb (exists_ t new_path) then Some new_path
      else unique_from fuel' t dir base extension (S counter)
  end.

(** [FileOrganizer._ensure_unique_path]; [None] only if the model ran
    out of fuel. *)
Definition _ensure_unique_path (t : tree) (p : path) : option path :=
  if negb (exists_ t p) then Some p
  else unique_from (S (size t)) t (parent p)
         (stem (name p)) (suffix (name p)) 1.

(** [any(directory.iterdir())] *)
Definition has_entries (t : tree) (directory : path) : bool :=
  existsb (fun p => bool_decide (p <> [] /\ parent p = directory))
          (map fst (map_to_list t)).

(** [FileOrganizer._cleanup_empty_directories]; a directory given by
    [n] components is visited with at most [n] nested calls.  On a path
    that is a file [iterdir] raises, and the exception is caught. *)
Fixpoint cleanup_from (n : nat) (t : tree) (directory : path) : tree :=
  match n with
  | O => t
  | S n' =>
      if bool_decide (directory = []) then t
      else if exists_ t directory then
        if is_dir t directory then
          if has_entries t directory then t
          else
            let t' := delete directory t in
            if bool_decide (parent directory <> [])
            then cleanup_from n' t' (parent directory)
            else t'
        else t
      else t
  end.

Definition _cleanup_empty_directories (t : tree) (directory : path) : tree :=
  cleanup_from (length directory) t directory.

(** The folder [_create_directory_structure] takes for the company of
    a document when normalization is enabled, and the registry the call
    leaves; [None] when [normalize_company_name] raises. *)
Definition company_folder (st : normalizer) (company_name : str)
  : option (str * normalizer) :=
  match normalize_company_name st (or_else company_name ("Unknown" : str)) with
  | Some (canonical_name, st') =>
      Some (get_folder_name st' canonical_name, st')
  | None => None
  end.

End Organizer.

(** ** More concrete inputs used in the examples *)

Module MoreExamples.
Import PyStr Canon Scorer Registry FS Merger Organizer Examples.

(** An output directory in which [report.pdf] and [report_1.pdf] are
    taken and one directory is empty. *)
Definition archive : tree :=
  tree_of [([], Dir);
           (["Acme"], Dir);
           (["Acme"; "2024"], Dir);
           (["Acme"; "2024"; "03 - March"], Dir);
           (["Acme"; "report.pdf"], File "a");
           (["Acme"; "report_1.pdf"], File "b")].

(** An output directory in which a file stands where the merge needs a
    directory. *)
Definition blocked : tree :=
  tree_of [([], Dir);
           (["Wells_Fargo"], Dir);
           (["Wells_Fargo"; "2024"], File "x");
           (["Wells_Fargo"; "a.pdf"], File "y");
           (["Wells_Fargo"; "b.pdf"], File "z");
           (["Wells_Fargo_Bank"], Dir);
           (["Wells_Fargo_Bank"; "2024"], Dir);
           (["Wells_Fargo_Bank"; "2024"; "march.pdf"], File "b")].

(** The names of three later documents, and the registry after they
    were normalized in a registry that knows Chase Bank. *)
Definition later_names : list str :=
  map (fun x : string => (x : str))
    ["Wells Fargo"; "CHASE BANK INC"; "Acme"].

Definition later : normalizer :=
  match RegistryInv.normalize_all chase later_names with
  | Some st => st
  | None => chase
  end.

Definition blocked_after : tree :=
  match _merge_company_folders blocked wells_fargo wells_fargo_bank with
  | Some (_, t') => t'
  | None => ∅
  end.

End MoreExamples.

Module StrFacts.
Import PyStr.

Lemma dropwhile_In (p : ascii -> bool) (s : str) (c : ascii) :
  In c (dropwhile p s) -> In c s.
Proof.
  induction s as [|x r IH]; simpl; [done|].
  destruct (p x); [|done].
  intros H. right. by apply IH.
Qed.

Lemma strip_by_In (p : ascii -> bool) (s : str) (c : ascii) :
  In c (strip_by p s) -> In c s.
Proof.
  unfold strip_by, rstrip_by, lstrip_by. intros H.
  apply in_rev in H. apply dropwhile_In in H.
  apply in_rev in H. by apply dropwhile_In in H.
Qed.

Lemma sub_class_In (p : ascii -> bool) (rep : ascii) (s : str) (c : ascii) :
  In c (sub_class p rep s) -> c = rep \/ (In c s /\ p c = false).
Proof.
  unfold sub_class. intros H. apply in_map_iff in H as (x & Hx & Hin).
  destruct (p x) eqn:E; [by left | right; subst; by split].
Qed.

Lemma sub_runs_from_In (b : bool) (rep : ascii) (s : str) (c : ascii) :
  In c (sub_runs_from b rep s) -> c = rep \/ In c s.
Proof.
  revert b. induction s as [|x r IH]; intros b; simpl; [tauto|].
  destruct (isspace x).
  - destruct b; simpl.
    + intros H. destruct (IH _ H); tauto.
    + intros [<-|H]; [by left|]. destruct (IH _ H); tauto.
  - simpl. intros [<-|H]; [tauto|]. destruct (IH _ H); tauto.
Qed.

Lemma sub_runs_from_no_space (b : bool) (rep : ascii) (s : str) (c : ascii) :
  isspace rep = false -> In c (sub_runs_from b rep s) -> isspace c = false.
Proof.
  intros Hrep. revert b. induction s as [|x r IH]; intros b; simpl; [tauto|].
  destruct (isspace x) eqn:Ex.
  - destruct b; simpl; [apply IH|]. intros [<-|H]; [done | by eapply IH].
  - simpl. intros [<-|H]; [done | by eapply IH].
Qed.

Lemma truthy_false (s : str) : truthy s = false <-> s = [].
Proof. destruct s; simpl; split; congruence. Qed.

Lemma truthy_true (s : str) : truthy s = true <-> s <> [].
Proof. destruct s; simpl; split; congruence. Qed.

(** Tokens of [split] hold no white space. *)
Lemma split_from_no_space (cur s : str) (w : str) (c : ascii) :
  (forall x, In x cur -> isspace x = false) ->
  In w (split_from cur s) -> In c w -> isspace c = false.
Proof.
  revert cur. induction s as [|x r IH]; intros cur Hcur; cbn [split_from].
  - destruct cur as [|y cur']; cbn [In]; [tauto|].
    intros [<-|[]] Hc. apply in_rev in Hc. by apply Hcur.
  - destruct (isspace x) eqn:Ex.
    + destruct cur as [|y cur'].
      * apply IH. intros ? [].
      * cbn [In]. intros [<-|H].
        -- intros Hc. apply in_rev in Hc. by apply Hcur.
        -- revert H. apply IH. intros ? [].
    + apply IH. intros z [<-|Hz]; [done | by apply Hcur].
Qed.

Lemma split_no_space (s w : str) (c : ascii) :
  In w (split s) -> In c w -> isspace c = false.
Proof. apply split_from_no_space. intros ? []. Qed.

End StrFacts.

Module CanonFacts.
Import PyStr Canon StrFacts.

Lemma underscore_valid : invalid_char "_" = false.
Proof. reflexivity. Qed.

Lemma unknown_valid (c : ascii) : In c ("Unknown" : str) -> invalid_char c = false.
Proof. simpl. intuition (subst; reflexivity). Qed.

Lemma sanitize_name_chars (name : str) :
  (forall c, In c (_sanitize_name name) -> invalid_char c = false)
  /\ (forall c, In c (_sanitize_name name) -> isspace c = false)
  /\ _sanitize_name name <> []
  /\ (strip (strip_underscores
               (sub_space_runs "_" (sub_class invalid_char "_" name))) = [] ->
      _sanitize_name name = ("Unknown" : str)).
Proof.
  unfold _sanitize_name.
  destruct (truthy name) eqn:Hn; simpl.
  2:{ split; [apply unknown_valid|]. split; [|done].
      simpl. intuition (subst; reflexivity). }
  set (r := strip (strip_underscores
               (sub_space_runs "_" (sub_class invalid_char "_" name)))).
  assert (Hr : forall c, In c r -> invalid_char c = false /\ isspace c = false).
  { intros c Hc. unfold r in Hc.
    apply strip_by_In, strip_by_In in Hc. split.
    - apply sub_runs_from_In in Hc as [->|Hc]; [done|].
      apply sub_class_In in Hc as [->|[_ Hc]]; done.
    - revert Hc. by apply sub_runs_from_no_space. }
  destruct (truthy r) eqn:Ht.
  - split; [intros c Hc; by apply Hr|]. split; [intros c Hc; by apply Hr|].
    split; [by apply truthy_true|].
    intros E. rewrite E in Ht. discriminate.
  - split; [apply unknown_valid|]. split; [|done].
    simpl. intuition (subst; reflexivity).
Qed.

End CanonFacts.

(** ** Rounding to the nearest double *)

Module Binary64Facts.
Import Binary64.
Local Open Scope Q_scope.

Lemma pow2_pos (e : Z) : 0 < 2 ^ e.
Proof. apply Qpower_0_lt. reflexivity. Qed.

Lemma pow2_lt (a b : Z) : (a < b)%Z <-> 2 ^ a < 2 ^ b.
Proof.
  split; intros H.
  - apply Qpower_lt_compat_l; [done | reflexivity].
  - apply (Qpower_lt_compat_l_inv 2); [done | reflexivity].
Qed.

Lemma pow2_le (a b : Z) : (a <= b)%Z <-> 2 ^ a <= 2 ^ b.
Proof.
  split; intros H.
  - apply Qpower_le_compat_l; [done | discriminate].
  - apply (Qpower_le_compat_l_inv 2); [done | reflexivity].
Qed.

Lemma pow2_add (a b : Z) : 2 ^ (a + b) == 2 ^ a * 2 ^ b.
Proof. apply Qpower_plus. discriminate. Qed.

Lemma pow2_succ (a : Z) : 2 ^ (a + 1) == 2 * 2 ^ a.
Proof. rewrite pow2_add. ring. Qed.

Lemma pow2_Z (a : Z) : (0 <= a)%Z -> inject_Z (2 ^ a) == 2 ^ a.
Proof. intros H. by rewrite Zpower_Qpower. Qed.

(** Division by a power of two and back. *)
Lemma div_pow2_mul (x : Q) (e : Z) : x / 2 ^ e * 2 ^ e == x.
Proof. field. apply Qpower_not_0. discriminate. Qed.

Lemma mul_pow2_div (x : Q) (e : Z) : x * 2 ^ e / 2 ^ e == x.
Proof. field. apply Qpower_not_0. discriminate. Qed.

Lemma div_pow2_le (x y : Q) (e : Z) : x <= y -> x / 2 ^ e <= y / 2 ^ e.
Proof.
  intros H. unfold Qdiv. apply Qmult_le_compat_r; [done|].
  apply Qlt_le_weak, Qinv_lt_0_compat, pow2_pos.
Qed.

Lemma div_pow2_lt (x y : Q) (e : Z) : x < y -> x / 2 ^ e < y / 2 ^ e.
Proof.
  intros H. unfold Qdiv. apply Qmult_lt_compat_r; [|done].
  apply Qinv_lt_0_compat, pow2_pos.
Qed.

Lemma pow2_div (a b : Z) : 2 ^ a / 2 ^ b == 2 ^ (a - b).
Proof.
  replace a with ((a - b) + b)%Z at 1 by lia.
  rewrite pow2_add. apply mul_pow2_div.
Qed.

(** *** The binary logarithm *)

Lemma Qlog2_spec (x : Q) : 0 < x -> 2 ^ Qlog2 x <= x /\ x < 2 ^ (Qlog2 x + 1).
Proof.
  intros Hx. destruct x as [n d]. unfold Qlog2. cbn [Qnum Qden].
  assert (Hn : (0 < n)%Z).
  { unfold Qlt in Hx. cbn in Hx. lia. }
  set (a := Z.log2 n). set (b := Z.log2 (Z.pos d)).
  assert (Ha : (0 <= a)%Z) by apply Z.log2_nonneg.
  assert (Hb : (0 <= b)%Z) by apply Z.log2_nonneg.
  destruct (Z.log2_spec n Hn) as [Ha1 Ha2]. fold a in Ha1, Ha2.
  destruct (Z.log2_spec (Z.pos d) eq_refl) as [Hb1 Hb2]. fold b in Hb1, Hb2.
  assert (Hlo : 2 ^ (a - b - 1) < n # d).
  { replace (a - b - 1)%Z with (a - (b + 1))%Z by lia.
    rewrite <- (pow2_div a (b + 1)), <- (pow2_Z a), <- (pow2_Z (b + 1)) by lia.
    rewrite Qmake_Qdiv.
    apply Qlt_shift_div_l.
    { change 0 with (inject_Z 0). rewrite <- Zlt_Qlt. lia. }
    unfold Qdiv. rewrite <- Qmult_assoc, (Qmult_comm (/ _)), Qmult_assoc.
    apply Qlt_shift_div_r.
    { change 0 with (inject_Z 0). rewrite <- Zlt_Qlt. lia. }
    rewrite <- !inject_Z_mult, <- Zlt_Qlt. nia. }
  assert (Hhi : n # d < 2 ^ (a - b + 1)).
  { replace (a - b + 1)%Z with ((a + 1) - b)%Z by lia.
    rewrite <- (pow2_div (a + 1) b), <- (pow2_Z (a + 1)), <- (pow2_Z b) by lia.
    rewrite Qmake_Qdiv.
    apply Qlt_shift_div_r.
    { change 0 with (inject_Z 0). rewrite <- Zlt_Qlt. lia. }
    unfold Qdiv. rewrite <- Qmult_assoc, (Qmult_comm (/ _)), Qmult_assoc.
    apply Qlt_shift_div_l.
    { change 0 with (inject_Z 0). rewrite <- Zlt_Qlt. lia. }
    rewrite <- !inject_Z_mult, <- Zlt_Qlt. nia. }
  destruct (Qle_bool (2 ^ (a - b)) (n # d)) eqn:E.
  - apply Qle_bool_iff in E. by split.
  - split; [by apply Qlt_le_weak|].
    replace (a - b - 1 + 1)%Z with (a - b)%Z by lia.
    apply Qnot_le_lt. intros H. apply Qle_bool_iff in H. congruence.
Qed.

Lemma Qlog2_unique (x : Q) (e : Z) :
  2 ^ e <= x -> x < 2 ^ (e + 1) -> Qlog2 x = e.
Proof.
  intros H1 H2.
  assert (Hx : 0 < x) by (eapply Qlt_le_trans; [apply (pow2_pos e) | done]).
  destruct (Qlog2_spec x Hx) as [L1 L2].
  assert (Qlog2 x < e + 1)%Z.
  { apply (proj2 (pow2_lt _ _)). by eapply Qle_lt_trans. }
  assert (e < Qlog2 x + 1)%Z.
  { apply (proj2 (pow2_lt _ _)). by eapply Qle_lt_trans. }
  lia.
Qed.

Lemma Qlog2_le (x y : Q) : 0 < x -> x <= y -> (Qlog2 x <= Qlog2 y)%Z.
Proof.
  intros Hx Hxy.
  assert (Hy : 0 < y) by by eapply Qlt_le_trans.
  destruct (Qlog2_spec x Hx) as [L1 _], (Qlog2_spec y Hy) as [_ L2].
  assert (Qlog2 x < Qlog2 y + 1)%Z; [|lia].
  apply (proj2 (pow2_lt _ _)).
  eapply Qle_lt_trans; [exact L1|]. by eapply Qle_lt_trans.
Qed.

Lemma Qlog2_comp (x y : Q) : 0 < x -> x == y -> Qlog2 x = Qlog2 y.
Proof.
  intros Hx E. assert (Hy : 0 < y) by by rewrite <- E.
  destruct (Qlog2_spec y Hy) as [L1 L2].
  apply Qlog2_unique; by rewrite E.
Qed.

Lemma Qlog2_pow2 (e : Z) : Qlog2 (2 ^ e) = e.
Proof.
  apply Qlog2_unique; [apply Qle_refl|]. apply (proj1 (pow2_lt _ _)). lia.
Qed.

Lemma Qlog2_double (x : Q) : 0 < x -> Qlog2 (2 * x) = (Qlog2 x + 1)%Z.
Proof.
  intros Hx. destruct (Qlog2_spec x Hx) as [L1 L2].
  apply Qlog2_unique; rewrite !pow2_succ.
  - apply Qmult_le_l; [reflexivity | done].
  - rewrite <- pow2_succ. apply Qmult_lt_l; [reflexivity | done].
Qed.

(** *** The nearest integer *)

Lemma nearest_even_comp (x y : Q) : x == y -> nearest_even x = nearest_even y.
Proof.
  intros E. unfold nearest_even.
  assert (Qfloor x = Qfloor y) as -> by by rewrite E.
  assert (Qcompare (x - inject_Z (Qfloor y)) (1 # 2)
          = Qcompare (y - inject_Z (Qfloor y)) (1 # 2)) as -> by by rewrite E.
  done.
Qed.

Lemma nearest_even_Z (z : Z) : nearest_even (inject_Z z) = z.
Proof.
  unfold nearest_even. rewrite Qfloor_Z.
  assert (inject_Z z - inject_Z z == 0) as -> by ring. done.
Qed.

Lemma nearest_even_bounds (x : Q) :
  (Qfloor x <= nearest_even x <= Qfloor x + 1)%Z.
Proof.
  unfold nearest_even. destruct (Qcompare _ _); [|lia..].
  destruct (Z.even _); lia.
Qed.

Lemma nearest_even_le (x y : Q) :
  x <= y -> (nearest_even x <= nearest_even y)%Z.
Proof.
  intros H. pose proof (Qfloor_resp_le x y H) as Hf.
  pose proof (nearest_even_bounds x) as Bx.
  pose proof (nearest_even_bounds y) as By.
  destruct (Z.eq_dec (Qfloor x) (Qfloor y)) as [E|E]; [|lia].
  unfold nearest_even in *. rewrite <- E in *.
  destruct (Qcompare_spec (x - inject_Z (Qfloor x)) (1 # 2)) as [Cx|Cx|Cx];
    destruct (Qcompare_spec (y - inject_Z (Qfloor x)) (1 # 2)) as [Cy|Cy|Cy];
    try lia; try (destruct (Z.even _); lia); exfalso; lra.
Qed.

Lemma nearest_even_ge (x : Q) (z : Z) :
  inject_Z z <= x -> (z <= nearest_even x)%Z.
Proof.
  intros H. rewrite <- (nearest_even_Z z). by apply nearest_even_le.
Qed.

Lemma nearest_even_le_Z (x : Q) (z : Z) :
  x <= inject_Z z -> (nearest_even x <= z)%Z.
Proof.
  intros H. rewrite <- (nearest_even_Z z). by apply nearest_even_le.
Qed.

(** *** Rounding *)

Lemma ulp_exp_le (x y : Q) : 0 < x -> x <= y -> (ulp_exp x <= ulp_exp y)%Z.
Proof.
  intros Hx H. unfold ulp_exp. pose proof (Qlog2_le x y Hx H). lia.
Qed.

Lemma ulp_exp_comp (x y : Q) : 0 < x -> x == y -> ulp_exp x = ulp_exp y.
Proof. intros Hx E. unfold ulp_exp. by rewrite (Qlog2_comp x y Hx E). Qed.

(** The scaled number is below [2 ^ 53], and not below [2 ^ 52] unless
    the number is subnormal. *)
Lemma scaled_lt (x : Q) : 0 < x -> x / 2 ^ ulp_exp x < 2 ^ 53.
Proof.
  intros Hx. destruct (Qlog2_spec x Hx) as [_ L].
  apply Qlt_shift_div_r; [apply pow2_pos|].
  rewrite <- pow2_add. eapply Qlt_le_trans; [exact L|].
  apply (proj1 (pow2_le _ _)). unfold ulp_exp. lia.
Qed.

Lemma scaled_ge (x : Q) :
  0 < x -> (-1074 < ulp_exp x)%Z -> 2 ^ 52 <= x / 2 ^ ulp_exp x.
Proof.
  intros Hx He. destruct (Qlog2_spec x Hx) as [L _].
  apply Qle_shift_div_l; [apply pow2_pos|].
  rewrite <- pow2_add. eapply Qle_trans; [|exact L].
  apply (proj1 (pow2_le _ _)). unfold ulp_exp in *. lia.
Qed.

Lemma round_pos_nonneg (x : Q) : 0 < x -> 0 <= round_pos x.
Proof.
  intros Hx. unfold round_pos. apply Qmult_le_0_compat.
  - change 0 with (inject_Z 0). rewrite <- Zle_Qle.
    apply nearest_even_ge. apply Qlt_le_weak.
    apply Qlt_shift_div_l; [apply pow2_pos|]. by rewrite Qmult_0_l.
  - apply Qlt_le_weak, pow2_pos.
Qed.

Lemma round_pos_le (x y : Q) : 0 < x -> x <= y -> round_pos x <= round_pos y.
Proof.
  intros Hx H. assert (Hy : 0 < y) by by eapply Qlt_le_trans.
  pose proof (ulp_exp_le x y Hx H) as He. unfold round_pos.
  destruct (Z.eq_dec (ulp_exp x) (ulp_exp y)) as [E|E].
  - rewrite E. apply Qmult_le_compat_r; [|apply Qlt_le_weak, pow2_pos].
    rewrite <- Zle_Qle. apply nearest_even_le. by apply div_pow2_le.
  - apply Qle_trans with (2 ^ 53 * 2 ^ ulp_exp x).
    + apply Qmult_le_compat_r; [|apply Qlt_le_weak, pow2_pos].
      rewrite <- (pow2_Z 53) by lia. rewrite <- Zle_Qle.
      apply nearest_even_le_Z. rewrite pow2_Z by lia.
      by apply Qlt_le_weak, scaled_lt.
    + apply Qle_trans with (2 ^ 52 * 2 ^ ulp_exp y).
      * rewrite <- !pow2_add. apply (proj1 (pow2_le _ _)). lia.
      * apply Qmult_le_compat_r; [|apply Qlt_le_weak, pow2_pos].
        rewrite <- (pow2_Z 52) by lia. rewrite <- Zle_Qle.
        apply nearest_even_ge. rewrite pow2_Z by lia.
        apply scaled_ge; [done|]. unfold ulp_exp in *. lia.
Qed.

Lemma round_pos_comp (x y : Q) : 0 < x -> x == y -> round_pos x == round_pos y.
Proof.
  intros Hx E. unfold round_pos. rewrite (ulp_exp_comp x y Hx E).
  rewrite (nearest_even_comp (x / 2 ^ ulp_exp y) (y / 2 ^ ulp_exp y)); [done|].
  by rewrite E.
Qed.

#[global] Instance round_comp : Proper (Qeq ==> Qeq) round.
Proof.
  intros x y E. unfold round. rewrite <- E.
  destruct (Qcompare_spec x 0) as [C|C|C]; [done| |].
  - apply Qopp_comp, round_pos_comp; [lra | by rewrite E].
  - by apply round_pos_comp.
Qed.

Lemma round_0 : round 0 = 0.
Proof. reflexivity. Qed.

Lemma round_pos_eq (x : Q) : 0 < x -> round x = round_pos x.
Proof. intros H. unfold round. apply Qgt_alt in H. by rewrite H. Qed.

Lemma round_nonneg (x : Q) : 0 <= x -> 0 <= round x.
Proof.
  intros H. unfold round.
  destruct (Qcompare_spec x 0) as [C|C|C]; [done | lra |].
  by apply round_pos_nonneg.
Qed.

(** Rounding keeps the order of numbers that are not negative. *)
Lemma round_le (x y : Q) : 0 <= x -> x <= y -> round x <= round y.
Proof.
  intros Hx H. destruct (Qcompare_spec x 0) as [C|C|C]; [|lra|].
  - rewrite C. apply round_nonneg. lra.
  - rewrite !round_pos_eq by lra. by apply round_pos_le.
Qed.

(** A number that is a multiple of its unit in the last place is a
    double. *)
Lemma round_pos_fixed (x : Q) (z : Z) :
  0 < x -> x == inject_Z z * 2 ^ ulp_exp x -> round_pos x == x.
Proof.
  intros Hx E. unfold round_pos.
  rewrite (nearest_even_comp _ (inject_Z z)).
  - by rewrite nearest_even_Z.
  - rewrite E at 1. apply mul_pow2_div.
Qed.

(** The doubles: an integer of at most 53 bits times a power of two
    that is not below the smallest one. *)
Lemma round_pos_repr (n e : Z) :
  (0 < n <= 2 ^ 53)%Z -> (-1074 <= e)%Z ->
  round_pos (inject_Z n * 2 ^ e) == inject_Z n * 2 ^ e.
Proof.
  intros Hn He. set (r := inject_Z n * 2 ^ e).
  assert (Hr : 0 < r).
  { apply Qmult_lt_0_compat; [|apply pow2_pos].
    change 0 with (inject_Z 0). rewrite <- Zlt_Qlt. lia. }
  set (l := Z.log2 n).
  destruct (Z.log2_spec n (proj1 Hn)) as [L1 L2]. fold l in L1, L2.
  assert (Hl0 : (0 <= l)%Z) by apply Z.log2_nonneg.
  assert (Hl : (l <= 53)%Z).
  { destruct Hn as [_ Hn]. apply Z.log2_le_mono in Hn.
    by rewrite Z.log2_pow2 in Hn. }
  assert (Hlog : Qlog2 r = (l + e)%Z).
  { apply Qlog2_unique; unfold r.
    - rewrite pow2_add. apply Qmult_le_compat_r; [|apply Qlt_le_weak, pow2_pos].
      rewrite <- pow2_Z by done. by rewrite <- Zle_Qle.
    - replace (l + e + 1)%Z with ((l + 1) + e)%Z by lia.
      rewrite pow2_add. apply Qmult_lt_compat_r; [apply pow2_pos|].
      rewrite <- pow2_Z by lia. rewrite <- Zlt_Qlt.
      by replace (l + 1)%Z with (Z.succ l) by lia. }
  assert (Hu : ulp_exp r = Z.max (l + e - 52) (-1074)).
  { unfold ulp_exp. by rewrite Hlog. }
  destruct (Z.eq_dec l 53%Z) as [E|E].
  - assert (n = 2 ^ 53)%Z as ->.
    { rewrite E in L1. lia. }
    apply (round_pos_fixed r (2 ^ 52)); [done|].
    rewrite Hu. replace (Z.max (l + e - 52) (-1074)) with (1 + e)%Z by lia.
    unfold r. rewrite pow2_add. change (2 ^ 1) with 2.
    change (inject_Z (2 ^ 53)) with (inject_Z (2 ^ 52) * 2). ring.
  - set (e' := Z.max (l + e - 52) (-1074)) in *.
    apply (round_pos_fixed r (n * 2 ^ (e - e'))); [done|].
    rewrite Hu, inject_Z_mult, pow2_Z by lia.
    rewrite <- Qmult_assoc, <- pow2_add.
    unfold r. by replace (e - e' + e')%Z with e by lia.
Qed.

Lemma nearest_scaled_bounds (x : Q) :
  0 < x -> (0 <= nearest_even (x / 2 ^ ulp_exp x) <= 2 ^ 53)%Z.
Proof.
  intros Hx. split.
  - apply nearest_even_ge. apply Qlt_le_weak.
    apply Qlt_shift_div_l; [apply pow2_pos|]. by rewrite Qmult_0_l.
  - apply nearest_even_le_Z. rewrite pow2_Z by lia.
    by apply Qlt_le_weak, scaled_lt.
Qed.

(** Rounding a double gives it back. *)
Lemma round_idem (x : Q) : 0 <= x -> round (round x) == round x.
Proof.
  intros H. destruct (Qcompare_spec x 0) as [C|C|C]; [|lra|].
  - by rewrite C.
  - rewrite (round_pos_eq x C). unfold round_pos.
    pose proof (nearest_scaled_bounds x C) as [B0 B1].
    set (n := nearest_even _) in *.
    destruct (Z.eq_dec n 0%Z) as [->|Hn].
    + by rewrite Qmult_0_l.
    + assert (Hr : 0 < inject_Z n * 2 ^ ulp_exp x).
      { apply Qmult_lt_0_compat; [|apply pow2_pos].
        change 0 with (inject_Z 0). rewrite <- Zlt_Qlt. lia. }
      rewrite (round_pos_eq _ Hr). apply round_pos_repr; [lia|].
      unfold ulp_exp. lia.
Qed.

Lemma round_Z (z : Z) :
  (0 <= z <= 2 ^ 53)%Z -> round (inject_Z z) == inject_Z z.
Proof.
  intros Hz. destruct (Z.eq_dec z 0%Z) as [->|Hn]; [done|].
  assert (Hr : 0 < inject_Z z).
  { change 0 with (inject_Z 0). rewrite <- Zlt_Qlt. lia. }
  rewrite (round_pos_eq _ Hr).
  assert (E : inject_Z z == inject_Z z * 2 ^ 0) by (change (2 ^ 0) with 1; ring).
  rewrite (round_pos_comp _ _ Hr E), round_pos_repr by lia.
  symmetry. exact E.
Qed.

(** Doubling commutes with rounding, for a number that is not
    subnormal. *)
Lemma round_double (x : Q) : 2 ^ (-1022) <= x -> round (2 * x) == 2 * round x.
Proof.
  intros H. assert (Hx : 0 < x).
  { eapply Qlt_le_trans; [apply (pow2_pos (-1022)) | done]. }
  assert (H2 : 0 < 2 * x) by lra.
  rewrite (round_pos_eq _ Hx), (round_pos_eq _ H2). unfold round_pos.
  assert (Hl : (-1022 <= Qlog2 x)%Z).
  { rewrite <- (Qlog2_pow2 (-1022)). apply Qlog2_le; [apply pow2_pos | done]. }
  assert (E : ulp_exp (2 * x) = (ulp_exp x + 1)%Z).
  { unfold ulp_exp. rewrite (Qlog2_double x Hx). lia. }
  rewrite E.
  rewrite (nearest_even_comp (2 * x / 2 ^ (ulp_exp x + 1)) (x / 2 ^ ulp_exp x)).
  - rewrite pow2_succ. ring.
  - rewrite pow2_succ. field. apply Qpower_not_0. discriminate.
Qed.

Lemma round_1 : round 1 == 1.
Proof. by vm_compute. Qed.

(** *** The operations *)

Lemma inject_nat_nonneg (n : nat) : 0 <= inject_Z (Z.of_nat n).
Proof. change 0 with (inject_Z 0). rewrite <- Zle_Qle. lia. Qed.

Lemma inject_nat_le (m n : nat) :
  (m <= n)%nat -> inject_Z (Z.of_nat m) <= inject_Z (Z.of_nat n).
Proof. intros H. rewrite <- Zle_Qle. lia. Qed.

Lemma of_nat_0 : of_nat 0 = 0.
Proof. reflexivity. Qed.

Lemma of_nat_nonneg (n : nat) : 0 <= of_nat n.
Proof. apply round_nonneg, inject_nat_nonneg. Qed.

Lemma of_nat_le (m n : nat) : (m <= n)%nat -> of_nat m <= of_nat n.
Proof.
  intros H. apply round_le; [apply inject_nat_nonneg | by apply inject_nat_le].
Qed.

Lemma of_nat_ge_1 (n : nat) : (1 <= n)%nat -> 1 <= of_nat n.
Proof. intros H. rewrite <- round_1. by apply (of_nat_le 1 n). Qed.

(** The product [2.0 * n] is the conversion of [2 * n]. *)
Lemma mul_2_of_nat (n : nat) : mul 2 (of_nat n) == of_nat (2 * n).
Proof.
  unfold mul, of_nat. destruct n as [|n]; [done|].
  assert (H1 : 1 <= inject_Z (Z.of_nat (S n))).
  { change 1 with (inject_Z 1). rewrite <- Zle_Qle. lia. }
  assert (Hp : 2 ^ (-1022) <= 1) by by apply Qle_bool_iff.
  rewrite round_double.
  2:{ eapply Qle_trans; [exact Hp|]. rewrite <- round_1.
      apply round_le; [done | exact H1]. }
  rewrite round_idem by lra.
  rewrite <- round_double by lra.
  apply round_comp. rewrite Nat2Z.inj_mul, inject_Z_mult. done.
Qed.

Lemma div_range (x y : Q) : 0 <= x -> x <= y -> 0 < y -> 0 <= div x y <= 1.
Proof.
  intros Hx Hxy Hy. unfold div. split.
  - apply round_nonneg. apply Qle_shift_div_l; [done | lra].
  - rewrite <- round_1. apply round_le.
    + apply Qle_shift_div_l; [done | lra].
    + apply Qle_shift_div_r; [done | lra].
Qed.

Lemma div_self (x : Q) : 0 < x -> div x x == 1.
Proof.
  intros Hx. unfold div. rewrite <- round_1. apply round_comp.
  field. lra.
Qed.

Lemma int_div_nonneg (a b : nat) : 0 <= int_div a b.
Proof.
  unfold int_div. apply round_nonneg. destruct b as [|b].
  - unfold Qdiv. cbn. rewrite Qmult_0_r. done.
  - apply Qle_shift_div_l; [|rewrite Qmult_0_l; apply inject_nat_nonneg].
    change 0 with (inject_Z 0). rewrite <- Zlt_Qlt. lia.
Qed.

Lemma int_div_self (a : nat) : (0 < a)%nat -> int_div a a == 1.
Proof.
  intros H. unfold int_div. rewrite <- round_1. apply round_comp.
  field. change 0 with (inject_Z 0). rewrite inject_Z_injective. lia.
Qed.

Lemma int_div_ge_1 (a b : nat) : (0 < b <= a)%nat -> 1 <= int_div a b.
Proof.
  intros H. unfold int_div. rewrite <- round_1. apply round_le; [done|].
  apply Qle_shift_div_l.
  - change 0 with (inject_Z 0). rewrite <- Zlt_Qlt. lia.
  - rewrite Qmult_1_l. apply inject_nat_le. lia.
Qed.

Lemma literal_nonneg (x : Q) : 0 <= x -> 0 <= literal x.
Proof. apply round_nonneg. Qed.

Lemma add_nonneg (x y : Q) : 0 <= x -> 0 <= y -> 0 <= add x y.
Proof. intros Hx Hy. apply round_nonneg. lra. Qed.

Lemma mul_nonneg (x y : Q) : 0 <= x -> 0 <= y -> 0 <= mul x y.
Proof. intros Hx Hy. apply round_nonneg. by apply Qmult_le_0_compat. Qed.

#[global] Instance add_comp : Proper (Qeq ==> Qeq ==> Qeq) add.
Proof. intros x x' Ex y y' Ey. unfold add. by rewrite Ex, Ey. Qed.

#[global] Instance mul_comp : Proper (Qeq ==> Qeq ==> Qeq) mul.
Proof. intros x x' Ex y y' Ey. unfold mul. by rewrite Ex, Ey. Qed.

#[global] Instance div_comp : Proper (Qeq ==> Qeq ==> Qeq) div.
Proof. intros x x' Ex y y' Ey. unfold div. by rewrite Ex, Ey. Qed.

(** A threshold that is a decimal of the source is compared with
    doubles; the decimal itself would accept the same ones. *)
Lemma ge_literal (x s : Q) :
  0 <= x -> x <= literal x -> 0 <= s -> (literal x <= round s <-> x <= round s).
Proof.
  intros Hx Hl Hs. unfold literal in *. split; intros H.
  - by eapply Qle_trans.
  - rewrite <- (round_idem s) by done. apply round_le; done.
Qed.

Lemma gt_literal (x s : Q) :
  0 <= x -> literal x <= x -> 0 <= s -> (literal x < round s <-> x < round s).
Proof.
  intros Hx Hl Hs. unfold literal in *. split; intros H.
  - apply Qnot_le_lt. intros N. apply (Qlt_not_le _ _ H).
    rewrite <- (round_idem s) by done.
    apply round_le; [by apply round_nonneg | done].
  - by eapply Qle_lt_trans.
Qed.

(** *** The operations and those of IEEE 754

    On the sample numbers the sum, the product and the quotient are
    those of [SpecFloat] for binary64, and so is the conversion of an
    integer. *)
Lemma agrees_with_SpecFloat :
  forallb
    (fun x =>
       forallb
         (fun y =>
            agree (SFadd 53 1024) add x y && agree (SFmul 53 1024) mul x y
            && (is_zero y || agree (SFdiv 53 1024) div x y))
         samples)
    samples = true
  /\ forallb
       (fun n => Qeq_bool (of_spec_float (ieee_of_Z n)) (round (inject_Z n)))
       [0; 1; 7; 200; 2 ^ 53 + 1; 2 ^ 53 + 3; 2 ^ 62 + 12345]%Z = true.
Proof. split; by vm_compute. Qed.

End Binary64Facts.

Module DifflibFacts.
Import Difflib.

Section Bounds.
Variables a b : str.

Lemma j2len_prev_bound alo blo bhi i d j :
  row_ok alo blo bhi i d -> blo <= j -> alo <= i ->
  j2len_prev d j + 1 <= j + 1 - blo /\ j2len_prev d j + 1 + alo <= S i.
Proof.
  intros Hd Hj Hi. destruct j as [|j']; simpl; [lia|].
  destruct (d !! j') as [k0|] eqn:E; simpl; [|lia].
  destruct (Hd _ _ E) as (? & ? & ? & ?). lia.
Qed.

Lemma scan_row_ok alo blo bhi i d js new best :
  alo <= i -> row_ok alo blo bhi i d ->
  row_ok alo blo bhi (S i) new -> best_ok alo blo bhi (S i) best ->
  row_ok alo blo bhi (S i) (fst (scan_row i blo bhi d js new best))
  /\ best_ok alo blo bhi (S i) (snd (scan_row i blo bhi d js new best)).
Proof.
  intros Hi Hd. revert new best.
  induction js as [|j js IH]; intros new best Hnew Hbest; simpl; [done|].
  destruct (Nat.ltb_spec j blo); [by apply IH|].
  destruct (Nat.leb_spec bhi j); [done|].
  destruct (j2len_prev_bound alo blo bhi i d j Hd ltac:(lia) Hi) as [K1 K2].
  apply IH.
  - intros j0 k0. rewrite lookup_insert.
    case_decide; [|by apply Hnew].
    intros [= <-]. subst j0. lia.
  - destruct (Nat.ltb_spec (snd best) (j2len_prev d j + 1)); [|done].
    unfold best_ok; simpl. lia.
Qed.

Lemma scan_rows_from_ok alo blo bhi n : forall i st,
  alo <= i -> row_ok alo blo bhi i (fst st) -> best_ok alo blo bhi i (snd st) ->
  best_ok alo blo bhi (i + n)
    (snd (fold_left
            (fun (st : gmap nat nat * (nat * nat * nat)) (i : nat) =>
               scan_row i blo bhi (fst st) (b2j b (char_at a i)) ∅ (snd st))
            (seq i n) st)).
Proof.
  induction n as [|n IH]; intros i st Hi Hd Hb; simpl.
  - by rewrite Nat.add_0_r.
  - replace (i + S n) with (S i + n) by lia.
    destruct (scan_row_ok alo blo bhi i (fst st) (b2j b (char_at a i)) ∅ (snd st))
      as [H1 H2]; [done | done | | | ].
    + intros j k. by rewrite lookup_empty.
    + unfold best_ok in *. lia.
    + apply IH; [lia | done | done].
Qed.

Lemma scan_rows_ok alo ahi blo bhi :
  alo <= ahi -> blo <= bhi ->
  best_ok alo blo bhi ahi (snd (scan_rows a b alo ahi blo bhi)).
Proof.
  intros Ha Hb. unfold scan_rows.
  replace ahi with (alo + (ahi - alo)) at 1 by lia.
  apply scan_rows_from_ok; [done| |].
  - intros j k. simpl. by rewrite lookup_empty.
  - unfold best_ok; simpl. lia.
Qed.

Lemma extend_left_ok alo blo bhi ahi : forall bi bj bs,
  best_ok alo blo bhi ahi (bi, bj, bs) ->
  best_ok alo blo bhi ahi (extend_left a b alo blo bi bj bs).
Proof.
  induction bi as [|i' IH]; intros bj bs H; simpl; [done|].
  destruct bj as [|j']; [done|].
  destruct (Nat.ltb_spec alo (S i')); simpl; [|done].
  destruct (Nat.ltb_spec blo (S j')); simpl; [|done].
  destruct (char_eqb _ _); [|done].
  apply IH. unfold best_ok in *; simpl in *. lia.
Qed.

Lemma extend_right_ok bhi bi bj : forall room bs,
  bj + bs <= bhi ->
  bs <= extend_right a b room bhi bi bj bs
  /\ bi + extend_right a b room bhi bi bj bs <= bi + bs + room
  /\ bj + extend_right a b room bhi bi bj bs <= bhi.
Proof.
  induction room as [|room IH]; intros bs H; simpl; [lia|].
  destruct (Nat.ltb_spec (bj + bs) bhi); simpl; [|lia].
  destruct (char_eqb _ _); [|lia].
  destruct (IH (S bs)) as (? & ? & ?); lia.
Qed.

(** The match [find_longest_match] returns lies inside the window. *)
Lemma find_longest_match_bounds alo ahi blo bhi i j k :
  alo <= ahi -> blo <= bhi ->
  find_longest_match a b alo ahi blo bhi = (i, j, k) ->
  alo <= i /\ i + k <= ahi /\ blo <= j /\ j + k <= bhi.
Proof.
  intros Ha Hb. unfold find_longest_match.
  pose proof (scan_rows_ok alo ahi blo bhi Ha Hb) as H0.
  destruct (snd (scan_rows a b alo ahi blo bhi)) as [[bi0 bj0] bs0].
  apply extend_left_ok in H0.
  destruct (extend_left a b alo blo bi0 bj0 bs0) as [[bi bj] bs].
  unfold best_ok in H0; simpl in H0.
  intros [= <- <- <-].
  destruct (extend_right_ok bhi bi bj (ahi - (bi + bs)) bs) as (? & ? & ?); lia.
Qed.

(** The blocks found in a window cover no more than either side of it. *)
Lemma matched_bound fuel : forall alo ahi blo bhi,
  alo <= ahi -> blo <= bhi ->
  matched a b fuel alo ahi blo bhi <= ahi - alo
  /\ matched a b fuel alo ahi blo bhi <= bhi - blo.
Proof.
  induction fuel as [|fuel IH]; intros alo ahi blo bhi Ha Hb; simpl; [lia|].
  destruct (find_longest_match a b alo ahi blo bhi) as [[i j] k] eqn:E.
  apply find_longest_match_bounds in E as (? & ? & ? & ?); [|done..].
  destruct (Nat.eqb_spec k 0); [lia|].
  assert (L : (if Nat.ltb alo i && Nat.ltb blo j
               then matched a b fuel alo i blo j else 0) <= i - alo
              /\ (if Nat.ltb alo i && Nat.ltb blo j
                  then matched a b fuel alo i blo j else 0) <= j - blo).
  { destruct (Nat.ltb alo i && Nat.ltb blo j); [apply IH; lia | lia]. }
  assert (R : (if Nat.ltb (i + k) ahi && Nat.ltb (j + k) bhi
               then matched a b fuel (i + k) ahi (j + k) bhi else 0)
              <= ahi - (i + k)
              /\ (if Nat.ltb (i + k) ahi && Nat.ltb (j + k) bhi
                  then matched a b fuel (i + k) ahi (j + k) bhi else 0)
                 <= bhi - (j + k)).
  { destruct (Nat.ltb (i + k) ahi && Nat.ltb (j + k) bhi);
      [apply IH; lia | lia]. }
  lia.
Qed.

(** The recursion of [matched] ends before the fuel does: more fuel
    than the window is wide never changes the result. *)
Lemma matched_fuel fuel : forall fuel' alo ahi blo bhi,
  alo <= ahi -> blo <= bhi -> ahi - alo < fuel -> ahi - alo < fuel' ->
  matched a b fuel alo ahi blo bhi = matched a b fuel' alo ahi blo bhi.
Proof.
  induction fuel as [|fuel IH]; intros fuel' alo ahi blo bhi Ha Hb Hf Hf';
    [lia|].
  destruct fuel' as [|fuel']; [lia|]. simpl.
  destruct (find_longest_match a b alo ahi blo bhi) as [[i j] k] eqn:E.
  apply find_longest_match_bounds in E as (? & ? & ? & ?); [|done..].
  destruct (Nat.eqb_spec k 0); [done|].
  f_equal; [f_equal|].
  - destruct (Nat.ltb alo i && Nat.ltb blo j); [apply IH; lia | done].
  - destruct (Nat.ltb (i + k) ahi && Nat.ltb (j + k) bhi);
      [apply IH; lia | done].
Qed.

Lemma matches_bound :
  2 * matches a b <= length a + length b.
Proof.
  unfold matches.
  destruct (matched_bound (S (length a)) 0 (length a) 0 (length b)); lia.
Qed.

Lemma ratio_range : (0 <= ratio a b <= 1)%Q.
Proof.
  unfold ratio. pose proof matches_bound as M.
  destruct (length a + length b) as [|n] eqn:E.
  - split; [apply Qle_bool_iff | apply Qle_refl]; reflexivity.
  - rewrite Binary64Facts.mul_2_of_nat. apply Binary64Facts.div_range.
    + apply Binary64Facts.of_nat_nonneg.
    + by apply Binary64Facts.of_nat_le.
    + apply Qlt_le_trans with 1%Q; [reflexivity|].
      apply Binary64Facts.of_nat_ge_1. lia.
Qed.
End Bounds.
End DifflibFacts.


Module ScorerFacts.
Import PyStr StrFacts Scorer ScorerSpec.

Lemma Qltb_lt (x y : Q) : Qltb x y = true <-> (x < y)%Q.
Proof.
  unfold Qltb. rewrite negb_true_iff. split.
  - intros H. apply Qnot_le_lt. intros L.
    apply Qle_bool_iff in L. congruence.
  - intros H. destruct (Qle_bool y x) eqn:E; [|done].
    apply Qle_bool_iff in E. exfalso. by apply (Qlt_not_le x y).
Qed.

Lemma Qltb_ge (x y : Q) : Qltb x y = false <-> (y <= x)%Q.
Proof.
  unfold Qltb. rewrite negb_false_iff. apply Qle_bool_iff.
Qed.

Lemma word_set_nil (name : str) : word_set name = [] <-> words name = ∅.
Proof.
  unfold word_set, words. split.
  - intros H. apply set_eq. intros w.
    rewrite elem_of_list_to_set, <- elem_of_remove_dups, H. set_solver.
  - intros H. destruct (remove_dups (split name)) as [|w r] eqn:E; [done|].
    exfalso. assert (Hw : w ∈ (list_to_set (split name) : gset str)).
    { rewrite elem_of_list_to_set, <- elem_of_remove_dups, E. by left. }
    rewrite H in Hw. set_solver.
Qed.

Lemma inter_size (name1 name2 : str) :
  length (list_intersection (word_set name1) (word_set name2))
  = size (words name1 ∩ words name2).
Proof.
  unfold word_set, words.
  rewrite <- (size_list_to_set (C := gset str)).
  - f_equal. apply set_eq. intros w.
    rewrite elem_of_intersection, !elem_of_list_to_set,
      list_elem_of_intersection, !elem_of_remove_dups. done.
  - apply NoDup_list_intersection, NoDup_remove_dups.
Qed.

Lemma union_size (name1 name2 : str) :
  length (list_union (word_set name1) (word_set name2))
  = size (words name1 ∪ words name2).
Proof.
  unfold word_set, words.
  rewrite <- (size_list_to_set (C := gset str)).
  - f_equal. apply set_eq. intros w.
    rewrite elem_of_union, !elem_of_list_to_set,
      list_elem_of_union, !elem_of_remove_dups. done.
  - apply NoDup_list_union; apply NoDup_remove_dups.
Qed.

Lemma Qmin_one (score : Q) :
  (if Qltb score 1 then score else 1%Q) = Qmin 1 score.
Proof.
  unfold Qmin, GenericMinMax.gmin.
  destruct (Qltb score 1) eqn:E.
  - apply Qltb_lt in E. apply Qgt_alt in E. by rewrite E.
  - apply Qltb_ge in E. destruct (1 ?= score)%Q eqn:C; try done.
    all: apply Qgt_alt in C; exfalso; by apply (Qlt_not_le score 1).
Qed.

Lemma bonus_eq (overlap : Q) :
  (if Qltb (Binary64.literal 0.8) overlap then Binary64.literal 0.2 else 0%Q)
  = bonus overlap.
Proof.
  unfold bonus. destruct (Qlt_le_dec (Binary64.literal 0.8) overlap) as [H|H].
  - apply Qltb_lt in H. by rewrite H.
  - apply Qltb_ge in H. by rewrite H.
Qed.

Lemma bonus_nonneg (overlap : Q) : (0 <= bonus overlap)%Q.
Proof.
  unfold bonus. destruct (Qlt_le_dec _ overlap); apply Qle_bool_iff;
    by vm_compute.
Qed.

Lemma jaccard_nonneg (X Y : gset str) : (0 <= jaccard X Y)%Q.
Proof. apply Binary64Facts.int_div_nonneg. Qed.

Lemma calculate_similarity_spec (name1 name2 : str) :
  _calculate_similarity name1 name2 = spec_similarity name1 name2.
Proof.
  unfold _calculate_similarity, spec_similarity.
  destruct name1 as [|c1 r1]; [by rewrite decide_True by (by left)|].
  destruct name2 as [|c2 r2]; [by rewrite decide_True by (by right)|].
  rewrite decide_False by (intros [?|?]; discriminate). simpl negb. simpl orb.
  cbv iota.
  destruct (word_set (c1 :: r1)) as [|w1 l1] eqn:E1.
  { apply word_set_nil in E1. by rewrite decide_True by (by left). }
  destruct (word_set (c2 :: r2)) as [|w2 l2] eqn:E2.
  { apply word_set_nil in E2. by rewrite decide_True by (by right). }
  rewrite decide_False.
  2:{ intros [H|H]; apply word_set_nil in H; congruence. }
  rewrite <- E1, <- E2, inter_size, union_size.
  fold (jaccard (words (c1 :: r1)) (words (c2 :: r2))).
  by rewrite bonus_eq, Qmin_one.
Qed.

Lemma spec_similarity_range (name1 name2 : str) :
  (0 <= spec_similarity name1 name2 <= 1)%Q.
Proof.
  unfold spec_similarity.
  destruct (decide _); [split; by apply Qle_bool_iff|].
  destruct (decide _); [apply DifflibFacts.ratio_range|].
  pose proof (DifflibFacts.ratio_range name1 name2) as [R0 R1].
  pose proof (jaccard_nonneg (words name1) (words name2)) as J.
  pose proof (bonus_nonneg (jaccard (words name1) (words name2))) as B.
  cbv zeta. split.
  - apply Q.min_glb; [by apply Qle_bool_iff|].
    apply Binary64Facts.add_nonneg; [|done].
    apply Binary64Facts.add_nonneg; apply Binary64Facts.mul_nonneg;
      try done; apply Qle_bool_iff; by vm_compute.
  - apply Q.le_min_l.
Qed.

(** Two names that are the same non-empty list of words score one. *)
Lemma calculate_similarity_range (name1 name2 : str) :
  (0 <= _calculate_similarity name1 name2 <= 1)%Q.
Proof. rewrite calculate_similarity_spec. apply spec_similarity_range. Qed.

Lemma calculate_similarity_empty_l (name : str) :
  _calculate_similarity [] name = 0%Q.
Proof. reflexivity. Qed.

Lemma calculate_similarity_empty_r (name : str) :
  _calculate_similarity name [] = 0%Q.
Proof. unfold _calculate_similarity. by destruct name. Qed.

End ScorerFacts.


Module DictFacts.
Import PyStr Registry.

Section Dict.
Context {V : Type}.
Implicit Types (d : list (str * V)) (k : str) (v : V).

Lemma eqb_true a b : eqb a b = true <-> a = b.
Proof. unfold eqb. apply bool_decide_eq_true. Qed.

Lemma eqb_false a b : eqb a b = false <-> a <> b.
Proof. unfold eqb. apply bool_decide_eq_false. Qed.

Lemma dict_get_Some_elem d k v : dict_get k d = Some v -> (k, v) ∈ d.
Proof.
  induction d as [|[k' v'] d IH]; simpl; [done|].
  destruct (eqb k' k) eqn:E.
  - apply eqb_true in E as ->. intros [= ->]. by left.
  - intros H. right. by apply IH.
Qed.

Lemma dict_get_None d k : dict_get k d = None <-> k ∉ map fst d.
Proof.
  induction d as [|[k' v'] d IH]; simpl.
  - split; [intros _; apply not_elem_of_nil | done].
  - rewrite not_elem_of_cons. destruct (eqb k' k) eqn:E.
    + apply eqb_true in E as ->. split; [done | by intros [? _]].
    + apply eqb_false in E. rewrite IH. split; [by split; auto | by intros [_ ?]].
Qed.

Lemma dict_get_elem d k v :
  NoDup (map fst d) -> (k, v) ∈ d -> dict_get k d = Some v.
Proof.
  induction d as [|[k' v'] d IH]; simpl; intros ND H.
  - by apply elem_of_nil in H.
  - apply NoDup_cons in ND as [Hk ND]. apply elem_of_cons in H as [[= <- <-]|H].
    + assert (E : eqb k k = true) by by apply eqb_true. by rewrite E.
    + destruct (eqb k' k) eqn:E; [|by apply IH].
      apply eqb_true in E as ->. exfalso. apply Hk.
      apply list_elem_of_fmap. by exists (k, v).
Qed.

Lemma dict_get_middle pre k v post :
  k ∉ map fst pre -> dict_get k (pre ++ (k, v) :: post) = Some v.
Proof.
  induction pre as [|[k' v'] pre IH]; simpl; intros H.
  - assert (E : eqb k k = true) by by apply eqb_true. by rewrite E.
  - apply not_elem_of_cons in H as [Hne H].
    assert (E : eqb k' k = false) by (apply eqb_false; congruence).
    rewrite E. by apply IH.
Qed.

Lemma dict_set_middle pre k v v' post :
  k ∉ map fst pre ->
  dict_set k v' (pre ++ (k, v) :: post) = pre ++ (k, v') :: post.
Proof.
  induction pre as [|[k0 v0] pre IH]; simpl; intros H.
  - assert (E : eqb k k = true) by by apply eqb_true. by rewrite E.
  - apply not_elem_of_cons in H as [Hne H].
    assert (E : eqb k0 k = false) by (apply eqb_false; congruence).
    rewrite E. f_equal. by apply IH.
Qed.

Lemma dict_set_fresh d k v :
  k ∉ map fst d -> dict_set k v d = d ++ [(k, v)].
Proof.
  induction d as [|[k0 v0] d IH]; simpl; intros H; [done|].
  apply not_elem_of_cons in H as [Hne H].
  assert (E : eqb k0 k = false) by (apply eqb_false; congruence).
  rewrite E. f_equal. by apply IH.
Qed.

Lemma dict_get_set_eq d k v : dict_get k (dict_set k v d) = Some v.
Proof.
  induction d as [|[k0 v0] d IH]; simpl.
  - assert (E : eqb k k = true) by by apply eqb_true. by rewrite E.
  - destruct (eqb k0 k) eqn:E; simpl.
    + assert (E' : eqb k k = true) by by apply eqb_true. by rewrite E'.
    + by rewrite E.
Qed.

Lemma dict_get_set_ne d k k' v :
  k <> k' -> dict_get k' (dict_set k v d) = dict_get k' d.
Proof.
  intros Hne. induction d as [|[k0 v0] d IH]; simpl.
  - assert (E : eqb k k' = false) by by apply eqb_false. by rewrite E.
  - destruct (eqb k0 k) eqn:E; simpl.
    + apply eqb_true in E as ->.
      assert (E : eqb k k' = false) by by apply eqb_false. by rewrite E.
    + destruct (eqb k0 k'); [done | apply IH].
Qed.

Lemma dict_set_elem d k v e :
  e ∈ dict_set k v d -> e = (k, v) \/ e ∈ d.
Proof.
  induction d as [|[k0 v0] d IH]; simpl.
  - intros ->%list_elem_of_singleton. by left.
  - destruct (eqb k0 k) eqn:E.
    + intros [->|H]%elem_of_cons; [by left | right; by right].
    + intros [->|H]%elem_of_cons; [right; by left|].
      destruct (IH H) as [->|?]; [by left | right; by right].
Qed.

Lemma dict_set_keys_old d k v :
  k ∈ map fst d -> map fst (dict_set k v d) = map fst d.
Proof.
  induction d as [|[k0 v0] d IH]; cbn [dict_set map fst]; intros H.
  - by apply elem_of_nil in H.
  - destruct (eqb k0 k) eqn:E; cbn [map fst].
    + by apply eqb_true in E as ->.
    + apply eqb_false in E. apply elem_of_cons in H as [->|H]; [done|].
      f_equal. by apply IH.
Qed.

Lemma dict_set_keys_new d k v :
  k ∉ map fst d -> map fst (dict_set k v d) = map fst d ++ [k].
Proof. intros H. rewrite dict_set_fresh by done. by rewrite map_app. Qed.

Lemma dict_set_NoDup d k v :
  NoDup (map fst d) -> NoDup (map fst (dict_set k v d)).
Proof.
  intros ND. destruct (decide (k ∈ map fst d)) as [H|H].
  { by rewrite dict_set_keys_old. }
  rewrite dict_set_keys_new by done.
  apply NoDup_app. split; [done|]. split; [|apply NoDup_singleton].
  intros x Hx ->%list_elem_of_singleton. done.
Qed.
End Dict.
End DictFacts.

Module CaseFacts.
Import PyStr Canon StrFacts.

Lemma lower_nil (s : str) : lower s = [] <-> s = [].
Proof. unfold lower. destruct s; simpl; split; congruence. Qed.

Lemma dropwhile_nil (p : ascii -> bool) (s : str) :
  dropwhile p s = [] <-> (forall c, In c s -> p c = true).
Proof.
  induction s as [|x r IH]; simpl; [split; [intros _ ? [] | done]|].
  destruct (p x) eqn:E.
  - rewrite IH. split; [intros H c [<-|Hc]; auto | intros H c Hc; auto].
  - split; [discriminate|]. intros H. specialize (H x (or_introl eq_refl)).
    congruence.
Qed.

Lemma dropwhile_head (p : ascii -> bool) (s : str) (c : ascii) (r : str) :
  dropwhile p s = c :: r -> p c = false.
Proof.
  induction s as [|x s IH]; simpl; [discriminate|].
  destruct (p x) eqn:E; [done|]. by intros [= <- _].
Qed.

Lemma strip_by_nil (p : ascii -> bool) (s : str) :
  strip_by p s = [] <-> (forall c, In c s -> p c = true).
Proof.
  unfold strip_by, rstrip_by, lstrip_by. split.
  - intros H. apply dropwhile_nil.
    destruct (dropwhile p s) as [|c r] eqn:E; [done|].
    apply dropwhile_head in E.
    assert (H' : dropwhile p (rev (c :: r)) = []).
    { destruct (dropwhile p (rev (c :: r))) as [|y l]; [done|].
      apply (f_equal (@length ascii)) in H.
      rewrite length_rev in H. simpl in H. lia. }
    rewrite dropwhile_nil in H'.
    rewrite (H' c) in E; [done|]. apply in_rev. rewrite rev_involutive. by left.
  - intros H. apply dropwhile_nil in H. by rewrite H.
Qed.

Lemma space_not_upper (c : ascii) : isspace c = true -> lower_char c = c.
Proof.
  destruct c as [[] [] [] [] [] [] [] []]; vm_compute; congruence.
Qed.

Lemma strip_lower_nil (x : str) : strip x = [] -> strip (lower x) = [].
Proof.
  unfold strip. rewrite !strip_by_nil. intros H c Hc.
  apply in_map_iff in Hc as (y & <- & Hy).
  rewrite space_not_upper; by apply H.
Qed.

(** A name of blanks alone normalizes to the empty string. *)
Lemma normalize_name_blank (x : str) : strip x = [] -> _normalize_name x = [].
Proof.
  intros H. unfold _normalize_name. destruct (truthy x); [|done]. simpl.
  by rewrite (strip_lower_nil x H).
Qed.

Lemma re_split_from_concat (s : str) : forall seg run,
  concat (re_split_from seg run s)
  = match run with Some w => rev w | None => rev seg end ++ s.
Proof.
  induction s as [|c r IH]; intros seg run; cbn [re_split_from].
  - destruct run; cbn [concat]; by rewrite ?app_nil_r.
  - destruct (isspace c); [|destruct (isdelim c)]; destruct run;
      cbn [concat]; rewrite IH; cbn [rev]; rewrite <- ?app_assoc; done.
Qed.

Lemma re_split_concat (s : str) : concat (re_split s) = s.
Proof. unfold re_split. by rewrite re_split_from_concat. Qed.

Lemma proper_case_part_length (p : str) :
  length (proper_case_part p) = length p.
Proof.
  unfold proper_case_part.
  destruct (truthy (strip p)); [|done].
  destruct (mem (lower p) lowercase_words); [apply length_map|].
  destruct (mem (upper p) uppercase_words); [apply length_map|].
  destruct p; [done|]. unfold capitalize, lower. simpl. by rewrite length_map.
Qed.

Lemma proper_case_length (s : str) : length (_proper_case s) = length s.
Proof.
  unfold _proper_case. destruct (truthy s); [|done]. simpl.
  rewrite <- (re_split_concat s) at 2.
  induction (re_split s) as [|p ps IH]; [done|].
  cbn [map concat]. by rewrite !length_app, proper_case_part_length, IH.
Qed.

Lemma proper_case_nil (s : str) : _proper_case s = [] -> s = [].
Proof.
  intros H. apply length_zero_iff_nil. rewrite <- proper_case_length, H. done.
Qed.

Lemma create_canonical_nil (x : str) :
  _create_canonical_name x = [] -> _normalize_name x = [].
Proof.
  unfold _create_canonical_name. intros H%proper_case_nil.
  by apply normalize_name_blank.
Qed.

Lemma folder_name_nil (item : str) :
  _folder_name_to_company_name item = [] -> item = [].
Proof.
  unfold _folder_name_to_company_name. intros H%proper_case_nil.
  unfold sub_class in H. by destruct item.
Qed.

End CaseFacts.

Module RegistryFacts.
Import PyStr Canon Scorer Registry RegistrySpec.
Import StrFacts CaseFacts DictFacts ScorerFacts.

Lemma mem_true (x : str) (xs : list str) : mem x xs = true <-> x ∈ xs.
Proof. unfold mem. apply bool_decide_eq_true. Qed.

Lemma mem_false (x : str) (xs : list str) : mem x xs = false <-> x ∉ xs.
Proof. unfold mem. apply bool_decide_eq_false. Qed.

Lemma set_add_elem (x v : str) (s : list str) :
  v ∈ set_add x s <-> v = x \/ v ∈ s.
Proof.
  unfold set_add. destruct (mem x s) eqn:E.
  - apply mem_true in E. split; [by right | by intros [->|?]].
  - rewrite elem_of_app, list_elem_of_singleton. tauto.
Qed.

(** *** The invariant *)

Lemma wf_empty (threshold : Q) : wf (empty_normalizer threshold).
Proof.
  repeat split; simpl.
  - apply NoDup_nil_2.
  - intros k m H. by apply elem_of_nil in H.
  - intros k m H. by apply elem_of_nil in H.
Qed.

Lemma wf_dict_set (st : normalizer) (m : CompanyMapping)
    (idx : list (str * str)) :
  wf st ->
  (canonical_name m = [] ->
   forall v, v ∈ variations m -> _normalize_name v = []) ->
  wf {| similarity_threshold := similarity_threshold st;
        company_mappings :=
          dict_set (lower (canonical_name m)) m (company_mappings st);
        normalized_to_canonical := idx |}.
Proof.
  intros (ND & Hk & Hv) Hm. repeat split; simpl.
  - by apply dict_set_NoDup.
  - intros k m' [[= -> ->]|H]%dict_set_elem; [done | by apply Hk].
  - intros k m' [[= -> ->]|H]%dict_set_elem; [done | by apply (Hv k)].
Qed.

Lemma wf_scan_item (st : normalizer) (item : str) :
  wf st -> wf (scan_item st item).
Proof.
  intros W. unfold scan_item. destruct (eqb item _); [done|].
  apply (wf_dict_set st
           (add_variation item
              (add_variation (_folder_name_to_company_name item)
                 (new_mapping (_folder_name_to_company_name item) item))));
    [done|].
  simpl. intros E%folder_name_nil v. subst item.
  rewrite !set_add_elem. intros [->|[->|H]]; [done | done |].
  by apply elem_of_nil in H.
Qed.

Lemma wf_scan_names (dirs : list str) : forall st,
  wf st -> wf (scan_names st dirs).
Proof.
  unfold scan_names. induction dirs as [|d dirs IH]; intros st W; [done|].
  simpl. by apply IH, wf_scan_item.
Qed.

Lemma wf_add_new_company (st : normalizer) (x : str) :
  wf st -> wf (_add_new_company st (_create_canonical_name x) x).
Proof.
  intros W. unfold _add_new_company.
  apply (wf_dict_set st
           (add_variation (_create_canonical_name x)
              (add_variation x (new_mapping (_create_canonical_name x) []))));
    [done|].
  simpl. intros E v. rewrite !set_add_elem.
  intros [->|[->|H]].
  - by rewrite E.
  - by apply create_canonical_nil.
  - by apply elem_of_nil in H.
Qed.

Lemma wf_add_variation (st : normalizer) (c x : str) (m : CompanyMapping) :
  wf st -> c <> [] ->
  dict_get (lower c) (company_mappings st) = Some m ->
  wf (with_mappings st
        (dict_set (lower c) (add_variation x m) (company_mappings st))).
Proof.
  intros W Hc G. pose proof W as (ND & Hk & Hv).
  apply dict_get_Some_elem in G. pose proof (Hk _ _ G) as E.
  rewrite E.
  apply (wf_dict_set st (add_variation x m)); [done|].
  simpl. intros N. rewrite N in E. change (lower c = []) in E.
  by apply (proj1 (lower_nil c)) in E.
Qed.

(** *** The loop of [_find_fuzzy_match] *)

Lemma fuzzy_step_flat (th : Q) (input : str) (e : str * CompanyMapping)
    (best : option str * Q) :
  fuzzy_step th input best e = consider_all th (named_scores input e) best.
Proof.
  unfold fuzzy_step, consider_all, named_scores, mapping_scores.
  cbn [map fold_left fst snd].
  generalize (consider th
                (_calculate_similarity input
                   (_normalize_name (canonical_name (snd e))))
                (canonical_name (snd e)) best).
  induction (variations (snd e)) as [|v vs IH]; intros b; [done|].
  cbn [map fold_left fst snd]. apply IH.
Qed.

Lemma fuzzy_scan_flat (st : normalizer) (x : str) :
  fuzzy_scan st x
  = consider_all (similarity_threshold st)
      (flat_map (named_scores (_normalize_name x)) (company_mappings st))
      (None, 0%Q).
Proof.
  unfold fuzzy_scan. generalize (@None str, 0%Q).
  induction (company_mappings st) as [|e es IH]; intros b; [done|].
  cbn [fold_left flat_map]. unfold consider_all.
  rewrite fold_left_app. fold (consider_all (similarity_threshold st)).
  rewrite IH. by rewrite fuzzy_step_flat.
Qed.

Lemma consider_all_none (th : Q) (l : list (str * Q)) (best : option str * Q) :
  (forall ns, ns ∈ l -> ~ ((snd best < snd ns)%Q /\ (th <= snd ns)%Q)) ->
  consider_all th l best = best.
Proof.
  unfold consider_all. induction l as [|ns l IH]; intros H; [done|].
  cbn [fold_left]. unfold consider at 2.
  destruct (Qltb (snd best) (snd ns) && Qle_bool th (snd ns)) eqn:E.
  - apply andb_true_iff in E as [E1 E2].
    apply Qltb_lt in E1. apply Qle_bool_iff in E2.
    exfalso. apply (H ns); [by left | done].
  - apply IH. intros ns' Hns. apply H. by right.
Qed.

Lemma consider_all_snd (th : Q) (l : list (str * Q)) : forall best,
  snd (consider_all th l best) = snd best
  \/ exists ns, ns ∈ l /\ snd (consider_all th l best) = snd ns.
Proof.
  unfold consider_all. induction l as [|ns l IH]; intros best; [by left|].
  cbn [fold_left].
  destruct (IH (consider th (snd ns) (fst ns) best)) as [H|(ns' & Hin & H)].
  - rewrite H. unfold consider.
    destruct (_ && _); [right; exists ns; split; [by left | done] | by left].
  - right. exists ns'. split; [by right | done].
Qed.

Lemma consider_all_hit (th : Q) (P R : list (str * Q)) (n : str) (s : Q)
    (best : option str * Q) :
  (snd best < s)%Q -> (th <= s)%Q ->
  (forall ns, ns ∈ P -> (snd ns < s)%Q) ->
  (forall ns, ns ∈ R -> (snd ns <= s)%Q) ->
  consider_all th (P ++ (n, s) :: R) best = (Some n, s).
Proof.
  intros Hb Hth HP HR. unfold consider_all.
  rewrite fold_left_app. cbn [fold_left fst snd].
  fold (consider_all th P best).
  assert (Hlt : (snd (consider_all th P best) < s)%Q).
  { destruct (consider_all_snd th P best) as [->|(ns & Hin & ->)];
      [done | by apply HP]. }
  unfold consider at 2.
  apply Qltb_lt in Hlt. rewrite Hlt.
  apply Qle_bool_iff in Hth. rewrite Hth. cbn [andb].
  apply (consider_all_none th R (Some n, s)).
  intros ns Hin [Hc _]. cbn [snd] in Hc.
  apply (Qlt_not_le _ _ Hc). by apply HR.
Qed.

Lemma first_max_exists {A : Type} (f : A -> Q) (l : list A) :
  l <> [] ->
  exists P x R, l = P ++ x :: R
    /\ (forall y, y ∈ P -> (f y < f x)%Q)
    /\ (forall y, y ∈ R -> (f y <= f x)%Q).
Proof.
  induction l as [|a l IH]; [done|]. intros _.
  destruct l as [|b l'].
  { exists [], a, []. repeat split; intros y Hy; by apply elem_of_nil in Hy. }
  destruct IH as (P & x & R & E & HP & HR); [done|].
  destruct (Qlt_le_dec (f a) (f x)) as [Hlt|Hge].
  - exists (a :: P), x, R. rewrite E. repeat split; [|done].
    intros y [->|Hy]%elem_of_cons; [done | by apply HP].
  - exists [], a, (b :: l'). repeat split.
    + intros y Hy. by apply elem_of_nil in Hy.
    + intros y Hy. rewrite E in Hy.
      apply elem_of_app in Hy as [Hy|[->|Hy]%elem_of_cons].
      * apply Qlt_le_weak. eapply Qlt_le_trans; [by apply HP | done].
      * done.
      * eapply Qle_trans; [by apply HR | done].
Qed.

Lemma flat_map_split {A B : Type} (g : A -> list B) (l : list A) :
  forall (P : list B) (x : B) (R : list B),
  flat_map g l = P ++ x :: R ->
  exists pre e post P' R',
    l = pre ++ e :: post /\ P = flat_map g pre ++ P'
    /\ g e = P' ++ x :: R' /\ R = R' ++ flat_map g post.
Proof.
  induction l as [|a l IH]; intros P x R H; cbn [flat_map] in H.
  { by destruct P. }
  apply app_eq_app in H as (m & [[E1 E2]|[E1 E2]]).
  - destruct m as [|y m].
    + rewrite app_nil_r in E1. cbn [app] in E2. symmetry in E2.
      apply (IH []) in E2 as (pre & e & post & P' & R' & -> & E & Hg & ->).
      exists (a :: pre), e, post, P', R'. repeat split; [|done].
      cbn [flat_map]. rewrite <- app_assoc, <- E, app_nil_r. done.
    + cbn [app] in E2. injection E2 as <- ->.
      exists [], a, l, P, m. by repeat split.
  - apply IH in E2 as (pre & e & post & P' & R' & -> & -> & Hg & ->).
    exists (a :: pre), e, post, P', R'. repeat split; [|done].
    cbn [flat_map]. by rewrite E1, <- app_assoc.
Qed.

Lemma named_scores_elem (input : str) (e : str * CompanyMapping) (ns : str * Q) :
  ns ∈ named_scores input e <->
  fst ns = canonical_name (snd e) /\ snd ns ∈ mapping_scores input (snd e).
Proof.
  unfold named_scores. rewrite list_elem_of_fmap. split.
  - intros (s & -> & Hs). by split.
  - intros [H1 H2]. exists (snd ns). split; [|done].
    destruct ns; simpl in *. by subst.
Qed.

Lemma flat_scores_elem (input : str) (l : list (str * CompanyMapping))
    (ns : str * Q) :
  ns ∈ flat_map (named_scores input) l <->
  exists e, e ∈ l /\ fst ns = canonical_name (snd e)
            /\ snd ns ∈ mapping_scores input (snd e).
Proof.
  rewrite list_elem_of_In, in_flat_map. split.
  - intros (e & He & Hns). exists e. rewrite list_elem_of_In.
    split; [done|]. apply named_scores_elem. by apply list_elem_of_In.
  - intros (e & He & Hns). exists e. rewrite <- !list_elem_of_In.
    split; [done|]. by apply named_scores_elem.
Qed.

(** The scores of a mapping with an empty canonical name are all zero. *)
Lemma mapping_scores_empty (st : normalizer) (input : str)
    (k : str) (m : CompanyMapping) (s : Q) :
  wf st -> (k, m) ∈ company_mappings st -> canonical_name m = [] ->
  s ∈ mapping_scores input m -> s = 0%Q.
Proof.
  intros (_ & _ & Hv) Hin E. unfold mapping_scores.
  rewrite list_elem_of_fmap. intros (v & -> & Hv').
  assert (N : _normalize_name v = []).
  { apply elem_of_cons in Hv' as [->|Hv']; [by rewrite E | by eapply Hv]. }
  rewrite N. apply calculate_similarity_empty_r.
Qed.

Lemma find_fuzzy_match_elem (st : normalizer) (x c : str) :
  _find_fuzzy_match st x = Some c ->
  exists e, e ∈ company_mappings st /\ c = canonical_name (snd e).
Proof.
  unfold _find_fuzzy_match. rewrite fuzzy_scan_flat.
  generalize (flat_scores_elem (_normalize_name x) (company_mappings st)).
  generalize (flat_map (named_scores (_normalize_name x)) (company_mappings st)).
  intros l Hl.
  assert (G : forall best,
    fst (consider_all (similarity_threshold st) l best) = fst best
    \/ exists ns, ns ∈ l
         /\ fst (consider_all (similarity_threshold st) l best) = Some (fst ns)).
  { clear Hl. unfold consider_all. induction l as [|ns l IH]; intros best;
      [by left|]. cbn [fold_left].
    destruct (IH (consider (similarity_threshold st) (snd ns) (fst ns) best))
      as [H|(ns' & Hin & H)].
    - rewrite H. unfold consider.
      destruct (_ && _); [right; exists ns; split; [by left | done] | by left].
    - right. exists ns'. split; [by right | done]. }
  destruct (G (None, 0%Q)) as [H|(ns & Hin & H)]; rewrite H; [done|].
  intros [= <-]. apply Hl in Hin as (e & He & Hc & _). by exists e.
Qed.

End RegistryFacts.


Module NormalizeFacts.
Import PyStr Canon Scorer Registry RegistrySpec.
Import StrFacts CaseFacts DictFacts ScorerFacts RegistryFacts.

(** *** The branches of [normalize_company_name] *)

Lemma guard_true (x : str) :
  null_like x -> negb (truthy x) || mem (lower x) null_names = true.
Proof.
  intros [->|H]; [done|]. apply mem_true in H. rewrite H. apply orb_true_r.
Qed.

Lemma guard_false (x : str) :
  ~ null_like x -> negb (truthy x) || mem (lower x) null_names = false.
Proof.
  intros H. apply orb_false_iff. split.
  - destruct x; [|done]. exfalso. apply H. by left.
  - apply mem_false. intros Hin. apply H. by right.
Qed.

Lemma null_like_cases (x : str) : null_like x \/ ~ null_like x.
Proof.
  unfold null_like. destruct (decide (x = [])); [by left; left|].
  destruct (decide (lower x ∈ null_names)); [by left; right|].
  right. by intros [?|?].
Qed.

Lemma normalize_guard (st : normalizer) (x : str) :
  null_like x -> normalize_company_name st x = Some ("Unknown" : str, st).
Proof. intros H. unfold normalize_company_name. by rewrite guard_true. Qed.

Lemma some_truthy_Some (c : str) : c <> [] -> some_truthy (Some c) = Some c.
Proof. by destruct c. Qed.

Lemma some_truthy_inv (o : option str) (c : str) :
  some_truthy o = Some c -> o = Some c /\ c <> [].
Proof. destruct o as [[|a s]|]; simpl; [done| |done]. by intros [= <-]. Qed.

Lemma normalize_exact (st : normalizer) (x c : str) :
  ~ null_like x -> _find_exact_match st x = Some c -> c <> [] ->
  normalize_company_name st x = Some (c, st).
Proof.
  intros G E Hc. unfold normalize_company_name.
  by rewrite guard_false, E, some_truthy_Some.
Qed.

Lemma find_exact_match_elem (st : normalizer) (x c : str) :
  wf st -> _find_exact_match st x = Some c ->
  exists e, e ∈ company_mappings st /\ matches_mapping x (snd e)
            /\ c = canonical_name (snd e).
Proof.
  intros (_ & Hk & _). unfold _find_exact_match.
  destruct (dict_get (lower x) (company_mappings st)) as [m|] eqn:G.
  - intros [= <-]. apply dict_get_Some_elem in G.
    exists (lower x, m). split; [done|]. split; [|done].
    left. by apply Hk.
  - destruct (List.find _ _) as [e|] eqn:F; [|done]. intros [= <-].
    apply find_some in F as [Hin Hm]. exists e.
    split; [by apply list_elem_of_In|]. split; [|done].
    right. by apply mem_true in Hm.
Qed.

Lemma find_exact_match_None (st : normalizer) (x : str) :
  wf st -> _find_exact_match st x = None ->
  forall e, e ∈ company_mappings st -> ~ matches_mapping x (snd e).
Proof.
  intros (_ & Hk & _). unfold _find_exact_match.
  destruct (dict_get (lower x) (company_mappings st)) as [m|] eqn:G; [done|].
  destruct (List.find _ _) as [e|] eqn:F; [done|]. intros _ e Hin [Hm|Hm].
  - apply dict_get_None in G. apply G.
    apply list_elem_of_fmap. exists e. split; [|done].
    destruct e as [k m]. simpl in *. rewrite Hm. symmetry. by apply Hk.
  - apply list_elem_of_In in Hin.
    pose proof (find_none _ _ F e Hin) as N. simpl in N.
    apply mem_false in N. done.
Qed.

(** The registry invariant holds in every reachable state. *)
Lemma normalize_wf (st st' : normalizer) (x r : str) :
  wf st -> normalize_company_name st x = Some (r, st') -> wf st'.
Proof.
  intros W. unfold normalize_company_name.
  destruct (negb (truthy x) || mem (lower x) null_names); [by intros [= _ <-]|].
  destruct (some_truthy (_find_exact_match st x)); [by intros [= _ <-]|].
  destruct (some_truthy (_find_fuzzy_match st x)) as [c|] eqn:F.
  - apply some_truthy_inv in F as [_ Hc].
    destruct (dict_get (lower c) (company_mappings st)) as [m|] eqn:G; [|done].
    intros [= _ <-]. by apply wf_add_variation.
  - intros [= _ <-]. by apply wf_add_new_company.
Qed.

Lemma reachable_wf (st : normalizer) : reachable st -> wf st.
Proof.
  induction 1 as [th dirs|st x r st' _ IH H].
  - apply wf_scan_names, wf_empty.
  - by eapply normalize_wf.
Qed.

Lemma fuzzy_match_key (st : normalizer) (x c : str) :
  wf st -> _find_fuzzy_match st x = Some c ->
  exists m, dict_get (lower c) (company_mappings st) = Some m
            /\ canonical_name m = c.
Proof.
  intros W F. apply find_fuzzy_match_elem in F as ([k m] & Hin & ->).
  destruct W as (ND & Hk & _). exists m. split; [|done].
  simpl. rewrite <- (Hk _ _ Hin). by apply dict_get_elem.
Qed.

(** [normalize_company_name] raises in no state that satisfies the
    invariant. *)
Lemma normalize_returns (st : normalizer) (x : str) :
  wf st -> exists r st', normalize_company_name st x = Some (r, st').
Proof.
  intros W. unfold normalize_company_name.
  destruct (negb (truthy x) || mem (lower x) null_names); [by eauto|].
  destruct (some_truthy (_find_exact_match st x)); [by eauto|].
  destruct (some_truthy (_find_fuzzy_match st x)) as [c|] eqn:F; [|by eauto].
  apply some_truthy_inv in F as [F _].
  destruct (fuzzy_match_key st x c W F) as (m & -> & _). by eauto.
Qed.

(** After a call that returned [c], the registry holds a mapping with
    canonical name [c] under the key [lower c], unless the guard
    answered. *)
Lemma normalize_registers (st st' : normalizer) (x c : str) :
  wf st -> ~ null_like x ->
  normalize_company_name st x = Some (c, st') ->
  exists m, dict_get (lower c) (company_mappings st') = Some m
            /\ canonical_name m = c.
Proof.
  intros W G. unfold normalize_company_name. rewrite guard_false by done.
  destruct (some_truthy (_find_exact_match st x)) as [c0|] eqn:E.
  - intros [= <- <-]. apply some_truthy_inv in E as [E _].
    apply find_exact_match_elem in E as ([k m] & Hin & _ & ->); [|done].
    destruct W as (ND & Hk & _). exists m. split; [|done].
    simpl. rewrite <- (Hk _ _ Hin). by apply dict_get_elem.
  - destruct (some_truthy (_find_fuzzy_match st x)) as [c0|] eqn:F.
    + apply some_truthy_inv in F as [F _].
      destruct (fuzzy_match_key st x c0 W F) as (m & Gm & Hm).
      rewrite Gm. intros [= <- <-]. exists (add_variation x m).
      split; [|done]. simpl. apply dict_get_set_eq.
    + intros [= <- <-]. eexists. split; [apply dict_get_set_eq|done].
Qed.

(** Normalizing a name that [normalize_company_name] returned gives it
    back and changes nothing, provided the name is not empty and is not
    one the guard answers. *)
Lemma normalize_canonical_again (st st' : normalizer) (x c : str) :
  reachable st -> normalize_company_name st x = Some (c, st') ->
  ~ null_like c -> normalize_company_name st' c = Some (c, st').
Proof.
  intros R H Hc. pose proof (reachable_wf st R) as W.
  destruct (null_like_cases x) as [G|G].
  { rewrite normalize_guard in H by done. injection H as <- <-.
    exfalso. apply Hc. right. vm_compute. by left. }
  destruct (normalize_registers st st' x c W G H) as (m & Gm & Hm).
  apply normalize_exact; [done| |].
  - unfold _find_exact_match. by rewrite Gm, Hm.
  - intros ->. apply Hc. by left.
Qed.

End NormalizeFacts.


Module FuzzyFacts.
Import PyStr Canon Scorer Registry RegistrySpec.
Import StrFacts CaseFacts DictFacts ScorerFacts RegistryFacts NormalizeFacts.

(** The loop of [_find_fuzzy_match] finds nothing when no score both
    reaches the threshold and is positive. *)
Lemma fuzzy_miss (st : normalizer) (x : str) :
  (forall e s, e ∈ company_mappings st ->
     s ∈ mapping_scores (_normalize_name x) (snd e) ->
     (s < similarity_threshold st)%Q \/ (s <= 0)%Q) ->
  _find_fuzzy_match st x = None.
Proof.
  intros H. unfold _find_fuzzy_match. rewrite fuzzy_scan_flat.
  rewrite consider_all_none; [done|].
  intros ns Hin [H1 H2]. cbn [snd] in H1.
  apply flat_scores_elem in Hin as (e & He & _ & Hs).
  destruct (H e (snd ns) He Hs) as [L|L].
  - by apply (Qlt_not_le _ _ L).
  - by apply (Qlt_not_le _ _ H1).
Qed.

(** It finds the first mapping with the highest score when some score
    reaches the threshold and is positive. *)
Lemma fuzzy_hit (st : normalizer) (x : str) :
  (exists e s, e ∈ company_mappings st
     /\ s ∈ mapping_scores (_normalize_name x) (snd e)
     /\ (similarity_threshold st <= s)%Q /\ (0 < s)%Q) ->
  exists pre k m post s,
    company_mappings st = pre ++ (k, m) :: post
    /\ s ∈ mapping_scores (_normalize_name x) m /\ (0 < s)%Q
    /\ (forall e s', e ∈ pre ++ post ->
          s' ∈ mapping_scores (_normalize_name x) (snd e) -> (s' <= s)%Q)
    /\ (forall s', s' ∈ mapping_scores (_normalize_name x) m -> (s' <= s)%Q)
    /\ (forall e s', e ∈ pre ->
          s' ∈ mapping_scores (_normalize_name x) (snd e) -> (s' < s)%Q)
    /\ _find_fuzzy_match st x = Some (canonical_name m).
Proof.
  intros (e0 & s0 & He0 & Hs0 & Hth & Hpos).
  set (input := _normalize_name x) in *.
  set (S := flat_map (named_scores input) (company_mappings st)).
  assert (Hin0 : (canonical_name (snd e0), s0) ∈ S).
  { apply flat_scores_elem. by exists e0. }
  destruct (first_max_exists snd S) as (P & [n s] & R & ES & HP & HR).
  { intros E. rewrite E in Hin0. by apply elem_of_nil in Hin0. }
  cbn [snd] in HP, HR.
  assert (Hs0s : (s0 <= s)%Q).
  { rewrite ES in Hin0.
    apply elem_of_app in Hin0 as [H|[H|H]%elem_of_cons].
    - apply Qlt_le_weak. apply (HP _ H).
    - injection H as _ <-. apply Qle_refl.
    - apply (HR _ H). }
  pose proof ES as ES'. unfold S in ES'.
  apply flat_map_split in ES'
    as (pre & [k m] & post & P' & R' & Hmap & -> & Hg & ->).
  assert (Hn : n = canonical_name m /\ s ∈ mapping_scores input m).
  { assert (Hns : (n, s) ∈ named_scores input (k, m)).
    { rewrite Hg. apply elem_of_app. right. by left. }
    by apply named_scores_elem in Hns. }
  destruct Hn as [-> Hs].
  exists pre, k, m, post, s. split; [done|]. split; [done|].
  split; [by eapply Qlt_le_trans|].
  assert (Hpre : forall e s', e ∈ pre -> s' ∈ mapping_scores input (snd e) ->
                              (s' < s)%Q).
  { intros e s' He Hs'. apply (HP (canonical_name (snd e), s')).
    apply elem_of_app. left. apply flat_scores_elem. by exists e. }
  split; [|split; [|split; [done|]]].
  - intros e s' [He|He]%elem_of_app Hs'.
    + apply Qlt_le_weak. by apply (Hpre e).
    + apply (HR (canonical_name (snd e), s')).
      apply elem_of_app. right. apply flat_scores_elem. by exists e.
  - intros s' Hs'.
    assert (Hns : (canonical_name m, s') ∈ named_scores input (k, m)).
    { by apply named_scores_elem. }
    rewrite Hg in Hns.
    apply elem_of_app in Hns as [H|[H|H]%elem_of_cons].
    + apply Qlt_le_weak. apply (HP (canonical_name m, s')).
      apply elem_of_app. by right.
    + injection H as ->. apply Qle_refl.
    + apply (HR (canonical_name m, s')). apply elem_of_app. by left.
  - unfold _find_fuzzy_match. rewrite fuzzy_scan_flat.
    fold input. fold S. rewrite ES.
    rewrite (consider_all_hit _ _ _ (canonical_name m) s); [done| | |done|done].
    + cbn [snd]. by eapply Qlt_le_trans.
    + by eapply Qle_trans.
Qed.

(** The fuzzy-match step of [normalize_company_name], in a reachable
    state, for a raw name the guard lets through and that has no exact
    match. *)
Lemma fuzzy_match_step (st : normalizer) (x : str) :
  reachable st -> ~ null_like x -> _find_exact_match st x = None ->
  ((exists e s, e ∈ company_mappings st
      /\ s ∈ mapping_scores (_normalize_name x) (snd e)
      /\ (similarity_threshold st <= s)%Q /\ (0 < s)%Q) ->
   exists pre k m post,
     company_mappings st = pre ++ (k, m) :: post
     /\ first_best (_normalize_name x) pre m post
     /\ normalize_company_name st x = matched_result st x pre k m post)
  /\ ((forall e s, e ∈ company_mappings st ->
         s ∈ mapping_scores (_normalize_name x) (snd e) ->
         (s < similarity_threshold st)%Q \/ (s <= 0)%Q) ->
      normalize_company_name st x = registered_result st x).
Proof.
  intros R G E. pose proof (reachable_wf st R) as W. split.
  - intros H. apply fuzzy_hit in H
      as (pre & k & m & post & s & Hmap & Hs & Hpos & Hall & Hm & Hpre & F).
    exists pre, k, m, post. split; [done|]. split.
    { exists s. by repeat split. }
    assert (Hin : (k, m) ∈ company_mappings st).
    { rewrite Hmap. apply elem_of_app. right. by left. }
    assert (Hc : canonical_name m <> []).
    { intros N. rewrite (mapping_scores_empty st _ k m s W Hin N Hs) in Hpos.
      by apply Qlt_irrefl in Hpos. }
    destruct W as (ND & Hk & _).
    assert (Hkey : k = lower (canonical_name m)) by by apply Hk.
    assert (Hfresh : k ∉ map fst pre).
    { rewrite Hmap, map_app in ND. apply NoDup_app in ND as (_ & ND & _).
      intros Hp. apply (ND k Hp). by left. }
    unfold normalize_company_name, matched_result.
    rewrite guard_false, E by done. cbn [some_truthy].
    rewrite F, some_truthy_Some by done.
    rewrite <- Hkey, Hmap.
    by rewrite dict_get_middle, dict_set_middle.
  - intros H. apply fuzzy_miss in H.
    unfold normalize_company_name, registered_result.
    by rewrite guard_false, E, H.
Qed.

End FuzzyFacts.


Module FSFacts.
Import PyStr FS.

Implicit Types (t : tree) (p q : path) (n : node).

Lemma exists_true t p : exists_ t p = true <-> is_Some (t !! p).
Proof.
  unfold exists_. destruct (t !! p) as [n|].
  - split; [by eauto | done].
  - split; [done | by intros [? ?]].
Qed.

Lemma exists_false t p : exists_ t p = false <-> t !! p = None.
Proof. unfold exists_. by destruct (t !! p). Qed.

Lemma is_file_true t p : is_file t p = true <-> exists c, t !! p = Some (File c).
Proof.
  unfold is_file. destruct (t !! p) as [[c|]|].
  - split; [by eauto | done].
  - split; [done | by intros [c ?]].
  - split; [done | by intros [c ?]].
Qed.

Lemma is_dir_true t p : is_dir t p = true <-> t !! p = Some Dir.
Proof. unfold is_dir. by destruct (t !! p) as [[c|]|]. Qed.

Lemma below_true folder p :
  below folder p = true <-> folder `prefix_of` p /\ p <> folder.
Proof.
  unfold below. rewrite andb_true_iff, negb_true_iff,
    bool_decide_eq_true, bool_decide_eq_false. done.
Qed.

(** *** [mkdir] *)

Lemma mkdir_from_old t' rest : forall t done,
  mkdir_from t done rest = Some t' ->
  forall p n, t !! p = Some n -> t' !! p = Some n.
Proof.
  induction rest as [|c rest IH]; intros t done H p n Hp; simpl in H.
  - by injection H as <-.
  - destruct (t !! (done ++ [c])) as [[x|]|] eqn:E; [done| |].
    + by eapply IH.
    + eapply IH; [done|]. rewrite lookup_insert_ne; [done|].
      intros <-. pose proof (eq_trans (eq_sym E) Hp). discriminate.
Qed.

Lemma mkdir_from_new t' rest : forall t done,
  mkdir_from t done rest = Some t' ->
  forall p n, t' !! p = Some n ->
    t !! p = Some n
    \/ (n = Dir /\ exists r, r <> [] /\ r `prefix_of` rest /\ p = done ++ r).
Proof.
  induction rest as [|c rest IH]; intros t done H p n Hp; simpl in H.
  - injection H as <-. by left.
  - assert (Hnext : forall r, r <> [] -> r `prefix_of` rest ->
              exists r', r' <> [] /\ r' `prefix_of` c :: rest
                         /\ (done ++ [c]) ++ r = done ++ r').
    { intros r Hr Hpre. exists (c :: r). split; [done|].
      split; [by apply prefix_cons | by rewrite <- app_assoc]. }
    destruct (t !! (done ++ [c])) as [[x|]|] eqn:E; [done| |].
    + destruct (IH _ _ H p n Hp) as [?|(-> & r & Hr & Hpre & ->)];
        [by left | right]. split; [done|].
      destruct (Hnext r Hr Hpre) as (r' & ? & ? & ->). by exists r'.
    + destruct (IH _ _ H p n Hp) as [Hl|(-> & r & Hr & Hpre & ->)].
      * destruct (decide (p = done ++ [c])) as [->|Hne].
        -- rewrite lookup_insert_eq in Hl. injection Hl as <-.
           right. split; [done|]. exists [c]. split; [done|].
           split; [|done]. apply prefix_cons, prefix_nil.
        -- rewrite lookup_insert_ne in Hl by done. by left.
      * right. split; [done|].
        destruct (Hnext r Hr Hpre) as (r' & ? & ? & ->). by exists r'.
Qed.

(** The directories [mkdir] creates change no count of files. *)
Lemma mkdir_from_files (P : path -> bool) t' rest : forall t done,
  mkdir_from t done rest = Some t' -> files_where P t' = files_where P t.
Proof.
  induction rest as [|c rest IH]; intros t done H; simpl in H.
  - by injection H as <-.
  - destruct (t !! (done ++ [c])) as [[x|]|] eqn:E; [done| |].
    + by eapply IH.
    + rewrite (IH _ _ H). unfold files_where.
      rewrite map_filter_insert_not'; [done| |].
      * intros [Hy _]. done.
      * intros y Hy. pose proof (eq_trans (eq_sym E) Hy). discriminate.
Qed.

(** *** Numbered names *)

Lemma str_of_nat_inj (j k : nat) : str_of_nat j = str_of_nat k -> j = k.
Proof.
  unfold str_of_nat. intros H.
  apply (f_equal string_of_list_ascii) in H.
  rewrite !string_of_list_ascii_of_string in H.
  apply (f_equal NilEmpty.uint_of_string) in H.
  rewrite !NilEmpty.usu in H. injection H as H.
  apply (f_equal Nat.of_uint) in H. by rewrite !DecimalNat.Unsigned.of_to in H.
Qed.

Lemma numbered_inj (st su : str) (j k : nat) :
  numbered st j su = numbered st k su -> j = k.
Proof.
  unfold numbered. intros H.
  apply app_inv_head, app_inv_head, app_inv_tail in H.
  by apply str_of_nat_inj.
Qed.

(** A duplicate-free list of existing paths is no longer than the tree
    is large. *)
Lemma existing_paths_bound t (l : list path) :
  NoDup l -> (forall p, p ∈ l -> is_Some (t !! p)) -> length l <= size t.
Proof.
  intros ND H. rewrite <- size_dom.
  rewrite <- (size_list_to_set (C := gset path) l ND).
  apply subseteq_size. intros p Hp.
  apply elem_of_list_to_set in Hp. apply elem_of_dom. by apply H.
Qed.

End FSFacts.


Module NameFacts.
Import PyStr FS.

Lemma rfind_Some (c : ascii) (s : str) (i : nat) :
  rfind c s = Some i ->
  exists pre tl, s = pre ++ c :: tl /\ length pre = i /\ c ∉ tl.
Proof.
  revert i. induction s as [|x r IH]; intros i; simpl; [done|].
  destruct (rfind c r) as [j|] eqn:E.
  - intros [= <-]. destruct (IH j eq_refl) as (pre & tl & -> & <- & Hc).
    by exists (x :: pre), tl.
  - case_bool_decide as Hx; [|done]. intros [= <-]. subst x.
    exists [], r. split; [done|]. split; [done|].
    clear IH. induction r as [|y r IHr]; [apply not_elem_of_nil|].
    simpl in E. destruct (rfind c r) eqn:E'; [done|].
    case_bool_decide as Hy; [done|].
    apply not_elem_of_cons. split; [congruence | by apply IHr].
Qed.

Lemma last_occurrence (c : ascii) (pre pre' tl tl' : str) :
  pre ++ c :: tl = pre' ++ c :: tl' -> c ∉ tl -> c ∉ tl' ->
  pre = pre' /\ tl = tl'.
Proof.
  revert pre'. induction pre as [|x pre IH]; intros pre' E H H'.
  - destruct pre' as [|y pre']; simpl in E.
    + by injection E as ->.
    + injection E as -> ->. exfalso. apply H.
      apply elem_of_app. right. by left.
  - destruct pre' as [|y pre']; simpl in E.
    + injection E as -> <-. exfalso. apply H'.
      apply elem_of_app. right. by left.
    + injection E as -> E. destruct (IH pre' E H H') as [-> ->]. done.
Qed.

Lemma dot_not_in_pdf : "."%char ∉ pdf_tail.
Proof.
  unfold pdf_tail. simpl. rewrite !not_elem_of_cons.
  repeat split; try done. apply not_elem_of_nil.
Qed.

Lemma is_pdf_name_true (n : str) :
  is_pdf_name n = true <-> exists pre, n = pre ++ "."%char :: pdf_tail.
Proof. unfold is_pdf_name. rewrite bool_decide_eq_true. done. Qed.

(** A name that ends with a dot-free extension is a PDF name exactly
    when the extension is [.pdf], whatever stands before it. *)
Lemma is_pdf_by_extension (pre tl : str) :
  "."%char ∉ tl ->
  is_pdf_name (pre ++ "."%char :: tl) = bool_decide (tl = pdf_tail).
Proof.
  intros Htl. apply bool_decide_ext. split.
  - intros [pre' E].
    by destruct (last_occurrence _ _ _ _ _ E Htl dot_not_in_pdf) as [_ ->].
  - intros ->. by exists pre.
Qed.

Lemma digits_of_uint (d : Decimal.uint) (c : ascii) :
  In c (list_ascii_of_string (NilEmpty.string_of_uint d)) -> isdigit c = true.
Proof.
  induction d; simpl; try tauto; intros [<-|H]; auto.
Qed.

Lemma str_of_nat_digits (k : nat) (c : ascii) :
  In c (str_of_nat k) -> isdigit c = true.
Proof. apply digits_of_uint. Qed.

(** A name that ends with an underscore and a number is no PDF name. *)
Lemma numbered_plain_not_pdf (n : str) (k : nat) :
  is_pdf_name (n ++ ("_" : str) ++ str_of_nat k ++ []) = false.
Proof.
  apply bool_decide_eq_false. intros [pre E].
  rewrite app_nil_r in E.
  apply (f_equal (@rev ascii)) in E.
  rewrite !rev_app_distr in E. simpl in E.
  destruct (rev (str_of_nat k)) as [|d ds] eqn:Ed; simpl in E; [done|].
  injection E as -> _.
  assert (Hd : isdigit "f"%char = true); [|done].
  apply (str_of_nat_digits k). apply in_rev. rewrite Ed. by left.
Qed.

Lemma suffix_start_cut (n : str) (i : nat) :
  suffix_start n = Some i ->
  exists pre tl, n = pre ++ "."%char :: tl /\ ("."%char ∉ tl)
                 /\ stem n = pre /\ suffix n = "."%char :: tl.
Proof.
  intros H. unfold stem, suffix. rewrite H.
  unfold suffix_start in H.
  destruct (rfind "."%char n) as [j|] eqn:E; [|done].
  destruct (_ && _); [|done]. injection H as ->.
  apply rfind_Some in E as (pre & tl & -> & <- & Htl).
  exists pre, tl. split; [done|]. split; [done|].
  by rewrite take_app_length, drop_app_length.
Qed.

Lemma suffix_start_None_pdf (n : str) :
  suffix_start n = None -> is_pdf_name n = true -> n = "."%char :: pdf_tail.
Proof.
  intros H [pre ->]%is_pdf_name_true.
  unfold suffix_start in H.
  destruct (rfind "."%char (pre ++ "."%char :: pdf_tail)) as [j|] eqn:E.
  - apply rfind_Some in E as (pre' & tl & E & <- & Htl).
    destruct (last_occurrence _ _ _ _ _ E dot_not_in_pdf Htl) as [-> <-].
    destruct pre' as [|x pre']; [done|]. exfalso.
    assert (B : Nat.ltb 0 (length (x :: pre'))
                && Nat.ltb (length (x :: pre'))
                     (length ((x :: pre') ++ "."%char :: pdf_tail) - 1) = true).
    { apply andb_true_iff.
      split; apply Nat.ltb_lt; rewrite ?length_app; simpl; lia. }
    by rewrite B in H.
  - exfalso. clear H. induction pre as [|x pre IH]; simpl in E.
    + done.
    + destruct (rfind "."%char (pre ++ "."%char :: pdf_tail)); [done | by apply IH].
Qed.

(** Numbering a name keeps it a PDF name or a name that is none,
    except for the name [.pdf], which has no extension. *)
Lemma numbered_pdf (n : str) (k : nat) :
  n <> "."%char :: pdf_tail ->
  is_pdf_name (numbered (stem n) k (suffix n)) = is_pdf_name n.
Proof.
  intros Hn. unfold numbered.
  destruct (suffix_start n) as [i|] eqn:E.
  - apply suffix_start_cut in E as (pre & tl & -> & Htl & -> & ->).
    rewrite (is_pdf_by_extension pre tl Htl).
    rewrite !app_assoc. by rewrite (is_pdf_by_extension _ tl Htl).
  - unfold stem, suffix. rewrite E. rewrite numbered_plain_not_pdf.
    destruct (is_pdf_name n) eqn:P; [|done].
    by apply suffix_start_None_pdf in P.
Qed.

End NameFacts.


Module MergeFacts.
Import PyStr FS Merger FSFacts.

Implicit Types (t : tree) (p q : path) (n : node).

(** *** The search for a free name *)

Lemma next_free_spec (fuel : nat) t (dir : path) (st su : str) :
  forall counter target p,
  next_free fuel t dir st su counter target = Some p ->
  t !! p = None
  /\ (p = target
      \/ (is_Some (t !! target)
          /\ exists k, counter <= k /\ p = dir ++ [numbered st k su]
               /\ forall j, counter <= j < k ->
                    is_Some (t !! (dir ++ [numbered st j su])))).
Proof.
  induction fuel as [|fuel IH]; intros counter target p; simpl; [done|].
  destruct (exists_ t target) eqn:E.
  - apply exists_true in E. intros H.
    apply IH in H as [Hfree [->|(Hex & k & Hk & -> & Hall)]].
    + split; [done|]. right. split; [done|]. exists counter.
      split; [done|]. split; [done|]. intros j Hj. lia.
    + split; [done|]. right. split; [done|]. exists k.
      split; [lia|]. split; [done|]. intros j Hj.
      destruct (decide (j = counter)) as [->|Hne]; [done|].
      apply Hall. lia.
  - apply exists_false in E. intros [= <-]. split; [done | by left].
Qed.

Lemma next_free_None (fuel : nat) t (dir : path) (st su : str) :
  forall counter target,
  next_free fuel t dir st su counter target = None ->
  (1 <= fuel -> is_Some (t !! target))
  /\ forall j, counter <= j < counter + (fuel - 1) ->
       is_Some (t !! (dir ++ [numbered st j su])).
Proof.
  induction fuel as [|fuel IH]; intros counter target; simpl.
  - intros _. split; intros; lia.
  - destruct (exists_ t target) eqn:E; [|done].
    apply exists_true in E. intros H. apply IH in H as [H1 H2].
    split; [done|]. intros j Hj.
    destruct (decide (j = counter)) as [->|Hne].
    + apply H1. lia.
    + apply H2. lia.
Qed.

(** The loop that looks for a free name ends: the tree is finite and
    the numbered names are all different. *)
Lemma resolve_target_total t target :
  exists p, resolve_target t target = Some p.
Proof.
  unfold resolve_target.
  destruct (next_free _ _ _ _ _ _ _) as [p|] eqn:E; [by eauto|].
  exfalso. apply next_free_None in E as [_ H].
  set (dir := parent target) in *.
  set (st := stem (name target)) in *. set (su := suffix (name target)) in *.
  set (l := map (fun j => dir ++ [numbered st j su]) (seq 1 (S (size t)))).
  assert (ND : NoDup l).
  { apply NoDup_fmap_2_strong; [|apply NoDup_seq].
    intros j k _ _ Hjk. apply app_inv_head in Hjk.
    injection Hjk as Hjk. by apply numbered_inj in Hjk. }
  assert (Hl : forall p, p ∈ l -> is_Some (t !! p)).
  { intros p Hp. apply list_elem_of_fmap in Hp as (j & -> & Hj).
    apply elem_of_seq in Hj. apply H. simpl. lia. }
  pose proof (existing_paths_bound t l ND Hl) as B.
  unfold l in B. rewrite length_map, length_seq in B. lia.
Qed.

(** *** One file moved, between two different folders *)

Section Step.
Variables kn mn : str.
Hypothesis folders_differ : kn <> mn.

Let K : path := [kn].
Let M : path := [mn].

Lemma under_M_cons p : M `prefix_of` p <-> exists tl, p = mn :: tl.
Proof.
  unfold M. split.
  - intros [tl ->]. by exists tl.
  - intros [tl ->]. by exists tl.
Qed.

Lemma not_under_M tl : ~ M `prefix_of` kn :: tl.
Proof. intros [tl' [= E _]]%under_M_cons. done. Qed.

Lemma below_M_cons p :
  below M p = true <-> exists rel, rel <> [] /\ p = mn :: rel.
Proof.
  rewrite below_true, under_M_cons. unfold M. split.
  - intros [[tl ->] Hne]. exists tl. split; [|done]. by intros ->.
  - intros (rel & Hrel & ->). split; [by exists rel|]. by intros [= ->].
Qed.

Lemma removelast_cons (x : str) (rel : list str) :
  rel <> [] -> removelast (x :: rel) = x :: removelast rel.
Proof. by destruct rel. Qed.

Lemma last_cons_ne (x : str) (rel : list str) :
  rel <> [] -> List.last (x :: rel) [] = List.last rel [].
Proof. by destruct rel. Qed.

Lemma target_of_cons rel target :
  rel <> [] -> target_of kn rel target -> exists tl, target = kn :: tl.
Proof. intros _ [->|(k & _ & ->)]; by eauto. Qed.

(** What [move_item] does for an item below the merged folder. *)
Lemma move_item_step t t' (rel : list str) :
  rel <> [] ->
  move_item K M t (mn :: rel) = Finished t' ->
  (is_file t (mn :: rel) = false /\ t' = t)
  \/ exists c t1 target,
       t !! (mn :: rel) = Some (File c)
       /\ mkdir_parents t (kn :: removelast rel) = Some t1
       /\ resolve_target t1 (kn :: rel) = Some target
       /\ t1 !! target = None
       /\ target_of kn rel target
       /\ (is_Some (t1 !! (kn :: rel)) ->
           exists k, 1 <= k
             /\ target = numbered_sibling kn rel k
             /\ forall j, 1 <= j < k ->
                  is_Some (t1 !! numbered_sibling kn rel j))
       /\ t' = <[target := File c]> (delete (mn :: rel) t1).
Proof.
  intros Hrel. unfold move_item.
  destruct (is_file t (mn :: rel)) eqn:F; [|intros [= <-]; by left].
  apply is_file_true in F as [c Hc].
  change (drop (length M) (mn :: rel)) with rel.
  change (K ++ rel) with (kn :: rel).
  unfold parent at 1. rewrite (removelast_cons kn rel Hrel).
  destruct (mkdir_parents t (kn :: removelast rel)) as [t1|] eqn:Emk; [|done].
  destruct (resolve_target t1 (kn :: rel)) as [target|] eqn:Er; [|done].
  intros [= <-]. right. exists c, t1, target.
  pose proof Er as Er'. unfold resolve_target in Er'.
  unfold parent, name in Er'.
  rewrite (removelast_cons kn rel Hrel), (last_cons_ne kn rel Hrel) in Er'.
  apply next_free_spec in Er' as [Hfree Hshape].
  assert (Hc1 : t1 !! (mn :: rel) = Some (File c)).
  { eapply mkdir_from_old; [exact Emk | done]. }
  split; [exact Hc|]. split; [reflexivity|]. split; [done|]. split; [done|].
  split; [|split].
  - destruct Hshape as [->|(_ & k & Hk & -> & _)]; [by left|].
    right. by exists k.
  - intros Hex. destruct Hshape as [->|(_ & k & Hk & -> & Hall)].
    + destruct Hex as [? Hex].
      pose proof (eq_trans (eq_sym Hfree) Hex). discriminate.
    + by exists k.
  - unfold move. by rewrite Hc1.
Qed.

Lemma step_outside t t' rel p n :
  rel <> [] -> move_item K M t (mn :: rel) = Finished t' ->
  ~ M `prefix_of` p -> t !! p = Some n -> t' !! p = Some n.
Proof.
  intros Hrel H Hp Hn.
  apply (move_item_step _ _ _ Hrel) in H
    as [[_ ->]|(c & t1 & target & Hc & Emk & _ & Hfree & _ & _ & ->)];
    [done|].
  assert (H1 : t1 !! p = Some n) by (eapply mkdir_from_old; [exact Emk|done]).
  rewrite lookup_insert_ne.
  - rewrite lookup_delete_ne; [done|].
    intros <-. apply Hp. apply under_M_cons. by eauto.
  - intros <-. pose proof (eq_trans (eq_sym Hfree) H1). discriminate.
Qed.

Lemma step_inside t t' rel p n :
  rel <> [] -> move_item K M t (mn :: rel) = Finished t' ->
  M `prefix_of` p -> t' !! p = Some n -> t !! p = Some n.
Proof.
  intros Hrel H Hp Hn.
  apply (move_item_step _ _ _ Hrel) in H
    as [[_ ->]|(c & t1 & target & Hc & Emk & _ & Hfree & Hshape & _ & ->)];
    [done|].
  destruct (target_of_cons rel target Hrel Hshape) as [tl ->].
  rewrite lookup_insert_ne in Hn.
  2:{ intros <-. by apply not_under_M in Hp. }
  destruct (decide (p = mn :: rel)) as [->|Hne].
  { by rewrite lookup_delete_eq in Hn. }
  rewrite lookup_delete_ne in Hn by done.
  destruct (mkdir_from_new _ _ _ _ Emk p n Hn)
    as [?|(_ & r & Hr & Hpre & ->)]; [done|].
  exfalso. destruct Hpre as [r' Hr'].
  destruct r as [|x r]; [done|]. injection Hr' as <- _.
  by apply not_under_M in Hp.
Qed.


Lemma step_item_gone t t' rel :
  rel <> [] -> move_item K M t (mn :: rel) = Finished t' ->
  is_file t' (mn :: rel) = false.
Proof.
  intros Hrel H.
  apply (move_item_step _ _ _ Hrel) in H
    as [[F ->]|(c & t1 & target & Hc & Emk & _ & Hfree & Hshape & _ & ->)];
    [done|].
  destruct (target_of_cons rel target Hrel Hshape) as [tl ->].
  unfold is_file. rewrite lookup_insert_ne.
  2:{ intros [= E _]. done. }
  by rewrite lookup_delete_eq.
Qed.

(** A move changes no count whose predicate holds of the new path as
    it does of the old one. *)
Lemma step_count (P : path -> bool) t t' rel :
  rel <> [] -> move_item K M t (mn :: rel) = Finished t' ->
  (forall target, target_of kn rel target -> P target = P (mn :: rel)) ->
  files_where P t' = files_where P t.
Proof.
  intros Hrel H HP.
  apply (move_item_step _ _ _ Hrel) in H
    as [[F ->]|(c & t1 & target & Hc & Emk & _ & Hfree & Hshape & _ & ->)];
    [done|].
  rewrite <- (mkdir_from_files P _ _ _ _ Emk).
  assert (Hc1 : t1 !! (mn :: rel) = Some (File c)).
  { eapply mkdir_from_old; [exact Emk | done]. }
  specialize (HP target Hshape).
  unfold files_where.
  set (Q := fun e : path * node =>
              is_file_node (snd e) = true /\ P (fst e) = true).
  destruct (P (mn :: rel)) eqn:EP.
  - rewrite map_filter_insert_True by done.
    rewrite map_filter_delete.
    assert (Hin : filter Q t1 !! (mn :: rel) = Some (File c)).
    { apply map_lookup_filter_Some. by split. }
    assert (Hout : filter Q t1 !! target = None).
    { apply map_lookup_filter_None. by left. }
    rewrite map_size_insert_None.
    2:{ rewrite lookup_delete_ne; [done|]. intros <-.
        pose proof (eq_trans (eq_sym Hfree) Hc1). discriminate. }
    rewrite map_size_delete_Some by by eauto.
    assert (size (filter Q t1) <> 0); [|lia].
    apply map_size_ne_0_lookup. by eauto.
  - rewrite map_filter_insert_not'.
    + rewrite map_filter_delete. rewrite delete_id; [done|].
      apply map_lookup_filter_None. right. intros x _ [_ HPx].
      simpl in HPx. congruence.
    + intros [_ HPx]. simpl in HPx. congruence.
    + intros y Hy. rewrite lookup_delete_ne in Hy.
      * pose proof (eq_trans (eq_sym Hfree) Hy). discriminate.
      * intros <-. pose proof (eq_trans (eq_sym Hfree) Hc1). discriminate.
Qed.

(** *** The loop over the files of the merged folder *)

Lemma move_items_cons t t' item items :
  move_items K M t (item :: items) = Finished t' ->
  exists t1, move_item K M t item = Finished t1
             /\ move_items K M t1 items = Finished t'.
Proof.
  cbn [move_items]. destruct (move_item K M t item) as [t1| |]; [|done..].
  intros H. by exists t1.
Qed.

Lemma loop_outside items : forall t t',
  (forall item, item ∈ items -> below M item = true) ->
  move_items K M t items = Finished t' ->
  forall p n, ~ M `prefix_of` p -> t !! p = Some n -> t' !! p = Some n.
Proof.
  induction items as [|item items IH]; intros t t' Hb H p n Hp Hn.
  - by injection H as <-.
  - apply move_items_cons in H as (t1 & H1 & H2).
    destruct (proj1 (below_M_cons item) (Hb item ltac:(by left)))
      as (rel & Hrel & ->).
    eapply IH; [|exact H2|done|].
    + intros i Hi. apply Hb. by right.
    + by eapply step_outside.
Qed.

Lemma loop_inside items : forall t t',
  (forall item, item ∈ items -> below M item = true) ->
  move_items K M t items = Finished t' ->
  forall p n, M `prefix_of` p -> t' !! p = Some n -> t !! p = Some n.
Proof.
  induction items as [|item items IH]; intros t t' Hb H p n Hp Hn.
  - by injection H as <-.
  - apply move_items_cons in H as (t1 & H1 & H2).
    destruct (proj1 (below_M_cons item) (Hb item ltac:(by left)))
      as (rel & Hrel & ->).
    eapply step_inside; [done|exact H1|done|].
    eapply IH; [|exact H2|done|done].
    intros i Hi. apply Hb. by right.
Qed.

Lemma loop_gone items : forall t t',
  (forall item, item ∈ items -> below M item = true) ->
  move_items K M t items = Finished t' ->
  forall item, item ∈ items -> is_file t' item = false.
Proof.
  induction items as [|i items IH]; intros t t' Hb H item Hin.
  - by apply elem_of_nil in Hin.
  - apply move_items_cons in H as (t1 & H1 & H2).
    assert (Hb' : forall x, x ∈ items -> below M x = true).
    { intros x Hx. apply Hb. by right. }
    apply elem_of_cons in Hin as [->|Hin]; [|by eapply IH].
    destruct (proj1 (below_M_cons i) (Hb i ltac:(by left)))
      as (rel & Hrel & ->).
    pose proof (step_item_gone _ _ _ Hrel H1) as G.
    destruct (is_file t' (mn :: rel)) eqn:F; [|done].
    apply is_file_true in F as [c Hc].
    apply (loop_inside items t1 t' Hb' H2) in Hc.
    2:{ apply under_M_cons. by eauto. }
    unfold is_file in G. pose proof (eq_trans (eq_sym Hc) eq_refl) as E.
    by rewrite Hc in G.
Qed.

Lemma loop_count (P : path -> bool) items : forall t t',
  (forall item, item ∈ items -> below M item = true) ->
  move_items K M t items = Finished t' ->
  (forall rel c target, rel <> [] -> t !! (mn :: rel) = Some (File c) ->
     target_of kn rel target -> P target = P (mn :: rel)) ->
  files_where P t' = files_where P t.
Proof.
  induction items as [|item items IH]; intros t t' Hb H HP.
  - by injection H as <-.
  - apply move_items_cons in H as (t1 & H1 & H2).
    destruct (proj1 (below_M_cons item) (Hb item ltac:(by left)))
      as (rel & Hrel & ->).
    rewrite (IH t1 t'); [| |exact H2|].
    + destruct (is_file t (mn :: rel)) eqn:F.
      * apply is_file_true in F as [c Hc].
        apply (step_count P _ _ _ Hrel H1).
        intros target Ht. by apply (HP rel c).
      * unfold move_item in H1. rewrite F in H1. by injection H1 as <-.
    + intros i Hi. apply Hb. by right.
    + intros rel' c target Hrel' Hc Ht. apply (HP rel' c); [done| |done].
      eapply step_inside; [exact Hrel|exact H1| |done].
      apply under_M_cons. by eauto.
Qed.


End Step.
End MergeFacts.


Module MergerFacts.
Import PyStr Canon Scorer Registry FS Merger FSFacts NameFacts MergeFacts.

Implicit Types (t : tree) (p q : path) (n : node).

Lemma rglob_all_elem t folder p :
  p ∈ rglob_all t folder <-> below folder p = true /\ is_Some (t !! p).
Proof.
  unfold rglob_all. rewrite list_elem_of_In, filter_In, <- list_elem_of_In.
  rewrite list_elem_of_fmap. split.
  - intros [([q n] & -> & H) Hb]. split; [done|].
    apply elem_of_map_to_list in H. by exists n.
  - intros [Hb [n Hn]]. split; [|done]. exists (p, n). split; [done|].
    by apply elem_of_map_to_list.
Qed.

Lemma kept_and_merged_cases t c1 c2 :
  kept_and_merged t c1 c2 = (c1, c2) \/ kept_and_merged t c1 c2 = (c2, c1).
Proof.
  unfold kept_and_merged, choose_keep. destruct (_ || _); by eauto.
Qed.


(** What a successful merge is made of. *)
Lemma merge_success t c1 c2 t' :
  folder_name c1 <> folder_name c2 ->
  _merge_company_folders t c1 c2 = Some (true, t') ->
  exists keep merge tl,
    kept_and_merged t c1 c2 = (keep, merge)
    /\ folder_name keep <> folder_name merge
    /\ is_Some (t !! folder_of keep)
    /\ move_items (folder_of keep) (folder_of merge) t
         (rglob_all t (folder_of merge)) = Finished tl
    /\ tl !! folder_of merge = Some Dir
    /\ t' = filter (fun e : path * node =>
                      ~ folder_of merge `prefix_of` fst e) tl.
Proof.
  intros Hne. unfold _merge_company_folders.
  destruct (exists_ t (folder_of c1)) eqn:E1; [|done].
  destruct (exists_ t (folder_of c2)) eqn:E2; [|done]. simpl.
  apply exists_true in E1, E2.
  destruct (kept_and_merged t c1 c2) as [keep merge] eqn:EK.
  destruct (move_items _ _ _ _) as [tl| |] eqn:EM; [|done..].
  unfold rmtree. destruct (is_dir tl (folder_of merge)) eqn:ED; [|done].
  apply is_dir_true in ED. intros [= <-].
  exists keep, merge, tl. split; [done|].
  destruct (kept_and_merged_cases t c1 c2) as [E|E];
    rewrite EK in E; injection E as -> ->; by repeat split.
Qed.

Section Merge.
Variables (t t' : tree) (c1 c2 : CompanyMapping).
Hypothesis folders_differ : folder_name c1 <> folder_name c2.
Hypothesis merged : _merge_company_folders t c1 c2 = Some (true, t').

Let keep := fst (kept_and_merged t c1 c2).
Let merge := snd (kept_and_merged t c1 c2).

Lemma rglob_all_below :
  forall item, item ∈ rglob_all t (folder_of merge) ->
               below (folder_of merge) item = true.
Proof. intros item H. by apply rglob_all_elem in H as [? _]. Qed.

(** Nothing is left at or below the merged folder. *)
Lemma merge_source_gone p :
  folder_of merge `prefix_of` p -> t' !! p = None.
Proof.
  destruct (merge_success t c1 c2 t' folders_differ merged)
    as (k & m & tl & EK & _ & _ & _ & _ & ->).
  unfold merge. rewrite EK. simpl. intros Hp.
  apply map_lookup_filter_None. right. intros x _ H. simpl in H. done.
Qed.

(** What was outside the merged folder is still there. *)
Lemma merge_outside_kept p n :
  ~ folder_of merge `prefix_of` p -> t !! p = Some n -> t' !! p = Some n.
Proof.
  destruct (merge_success t c1 c2 t' folders_differ merged)
    as (k & m & tl & EK & Hne & _ & EM & _ & ->).
  unfold merge. rewrite EK. simpl. intros Hp Hn.
  apply map_lookup_filter_Some. split; [|done].
  eapply (loop_outside (folder_name k) (folder_name m)); [|exact EM|done|done].
  intros item H. by apply rglob_all_elem in H as [? _].
Qed.

(** A count of files is the same after the merge as before, when its
    predicate does not tell a moved file from the file it was. *)
Lemma merge_files_where (P : path -> bool) :
  (forall rel c target, rel <> [] ->
     t !! (folder_name merge :: rel) = Some (File c) ->
     target_of (folder_name keep) rel target ->
     P target = P (folder_name merge :: rel)) ->
  files_where P t' = files_where P t.
Proof.
  destruct (merge_success t c1 c2 t' folders_differ merged)
    as (k & m & tl & EK & Hne & _ & EM & ED & ->).
  unfold merge, keep. rewrite EK. simpl. intros HP.
  assert (Hb : forall item, item ∈ rglob_all t (folder_of m) ->
                            below (folder_of m) item = true).
  { intros item H. by apply rglob_all_elem in H as [? _]. }
  rewrite <- (loop_count (folder_name k) (folder_name m) Hne P _ _ _ Hb EM HP).
  unfold files_where. rewrite map_filter_filter.
  f_equal. apply map_filter_ext. intros p n Hn. simpl.
  split; [tauto|]. intros [Hf HPp]. split; [done|].
  intros Hp. destruct n as [c|]; [|done].
  destruct (decide (p = folder_of m)) as [->|Hpm].
  { pose proof (eq_trans (eq_sym ED) Hn). discriminate. }
  assert (Hin : p ∈ rglob_all t (folder_of m)).
  { apply rglob_all_elem. split; [by apply below_true|].
    exists (File c).
    by apply (loop_inside (folder_name k) (folder_name m) Hne _ _ _ Hb EM). }
  pose proof (loop_gone (folder_name k) (folder_name m) Hne _ _ _ Hb EM p Hin)
    as G.
  unfold is_file in G. by rewrite Hn in G.
Qed.


End Merge.

(** A successful merge of two different folders removes the merged
    folder and loses no file; it keeps the number of PDF files when no
    file below the merged folder is named [.pdf]. *)
Lemma merge_conserves_files t t' c1 c2 :
  folder_name c1 <> folder_name c2 ->
  _merge_company_folders t c1 c2 = Some (true, t') ->
  let merge := snd (kept_and_merged t c1 c2) in
  (forall p, folder_of merge `prefix_of` p -> t' !! p = None)
  /\ file_count t' = file_count t
  /\ ((forall rel c, t !! (folder_name merge :: rel) = Some (File c) ->
         List.last rel [] <> "."%char :: pdf_tail) ->
      pdf_count t' = pdf_count t).
Proof.
  intros Hne H. cbv zeta. split; [|split].
  - intros p. by apply merge_source_gone.
  - by apply (merge_files_where t t' c1 c2 Hne H (fun _ => true)).
  - intros Hdot.
    apply (merge_files_where t t' c1 c2 Hne H (fun p => is_pdf_name (name p))).
    intros rel c target Hrel Hc [->|(k & _ & ->)]; unfold name.
    + by rewrite !(last_cons_ne _ rel Hrel).
    + unfold numbered_sibling.
      rewrite app_comm_cons, last_last, (last_cons_ne _ rel Hrel).
      apply numbered_pdf. by apply (Hdot rel c).
Qed.

(** [_merge_company_folders] always returns: the loops of the model
    never run out of fuel. *)
Lemma move_items_returns K M items : forall t,
  move_items K M t items <> Diverged.
Proof.
  induction items as [|item items IH]; intros t; simpl; [done|].
  destruct (move_item K M t item) as [t1| |] eqn:E; [apply IH|done|].
  exfalso. unfold move_item in E.
  destruct (is_file t item); [|done].
  destruct (mkdir_parents _ _) as [t1|]; [|done].
  destruct (resolve_target_total t1 (K ++ drop (length M) item)) as [p Hp].
  by rewrite Hp in E.
Qed.

Lemma merge_company_folders_returns t c1 c2 :
  exists r, _merge_company_folders t c1 c2 = Some r.
Proof.
  unfold _merge_company_folders.
  destruct (_ || _); [by eauto|].
  destruct (kept_and_merged t c1 c2) as [keep merge].
  pose proof (move_items_returns (folder_of keep) (folder_of merge)
                (rglob_all t (folder_of merge)) t) as H.
  destruct (move_items _ _ _ _) as [tl| |]; [|by eauto|done].
  destruct (rmtree tl (folder_of merge)); by eauto.
Qed.

(** *** The candidates of [_auto_merge_duplicates] *)

Lemma find_duplicates_elem (cs : list CompanyMapping)
    (A B : CompanyMapping) (s : Q) :
  (A, B, s) ∈ find_duplicates cs <->
  exists i j, i < j /\ cs !! i = Some A /\ cs !! j = Some B
              /\ s = pair_score A B /\ (Binary64.literal 0.85 < s)%Q.
Proof.
  induction cs as [|c cs IH]; simpl.
  - split; [intros H; by apply elem_of_nil in H|].
    intros (i & j & _ & H & _). by rewrite lookup_nil in H.
  - rewrite elem_of_app, IH, list_elem_of_omap. split.
    + intros [(b & Hb & Hs)|(i & j & Hij & Hi & Hj & Hs)].
      * destruct (Qltb _ (pair_score c b)) eqn:E; [|done].
        injection Hs as <- <- <-. apply ScorerFacts.Qltb_lt in E.
        apply list_elem_of_lookup in Hb as [j Hj].
        exists 0, (S j). split; [lia|]. by repeat (split; [done|]).
      * exists (S i), (S j). split; [lia|]. by repeat (split; [done|]).
    + intros (i & j & Hij & Hi & Hj & -> & Hs).
      destruct i as [|i].
      * injection Hi as ->. destruct j as [|j]; [lia|]. left.
        exists B. split; [apply list_elem_of_lookup; by eauto|].
        apply ScorerFacts.Qltb_lt in Hs. by rewrite Hs.
      * destruct j as [|j]; [lia|]. right.
        exists i, j. split; [lia|]. by repeat (split; [done|]).
Qed.

End MergerFacts.

(** ** The folder a merge keeps and the names it gives *)

Module KeptFacts.
Import PyStr Canon Scorer Registry FS Merger MergerSpec.
Import FSFacts NameFacts MergeFacts MergerFacts.

Implicit Types (t : tree) (p q : path) (n : node).

(** *** Counting what [rglob] yields *)

Lemma filter_length_decide {A : Type} (f : A -> bool) (P : A -> Prop)
    `{!forall x, Decision (P x)} (l : list A) :
  (forall x, f x = true <-> P x) ->
  length (List.filter f l) = length (filter P l).
Proof.
  intros Hf. induction l as [|x l IH]; [done|].
  cbn [List.filter]. rewrite filter_cons.
  destruct (f x) eqn:E.
  - rewrite decide_True by by apply Hf. cbn. by rewrite IH.
  - rewrite decide_False; [done|]. intros N%Hf. congruence.
Qed.

Lemma filter_map_fst {A B : Type} (f : A -> bool) (l : list (A * B)) :
  List.filter f (map fst l) = map fst (List.filter (fun e => f (fst e)) l).
Proof.
  induction l as [|e l IH]; [done|]. cbn. destruct (f (fst e)); cbn; by rewrite IH.
Qed.






(** *** The numbered names *)





End KeptFacts.


(** * The claims of the specification *)

Module Claims.
Import PyStr Canon Scorer ScorerSpec Registry RegistrySpec FS Merger MergerSpec.
Import Examples.
Import StrFacts CanonFacts DifflibFacts ScorerFacts DictFacts RegistryFacts
       NormalizeFacts FuzzyFacts FSFacts NameFacts MergeFacts MergerFacts
       KeptFacts.

Lemma not_null_like (x : str) :
  negb (truthy x) || mem (lower x) null_names = false -> ~ null_like x.
Proof.
  intros H G. apply guard_true in G. rewrite G in H. discriminate.
Qed.

Lemma reachable_fresh : reachable fresh.
Proof. exact (reach_scan default_threshold []). Qed.

Lemma reachable_after (st : normalizer) (x : string) :
  reachable st -> reachable (after st x).
Proof.
  intros R. unfold after.
  destruct (normalize_company_name st x) as [[c st']|] eqn:E; [|done].
  by apply (reach_normalize st x c st').
Qed.

(** An optional pair is known from its two components. *)
Lemma option_pair_fst {A B : Type} (X : option (A * B)) (a : A) (d : B) :
  fst <$> X = Some a -> X = Some (a, default d (snd <$> X)).
Proof. destruct X as [[a' b]|]; simpl; [|done]. by intros [= ->]. Qed.

Lemma option_pair_snd {A B : Type} (X : option (A * B)) (b : B) (d : A) :
  snd <$> X = Some b -> X = Some (default d (fst <$> X), b).
Proof. destruct X as [[a b']|]; simpl; [|done]. by intros [= ->]. Qed.

Lemma merged_tree (t : tree) (c1 c2 : CompanyMapping) :
  fst <$> _merge_company_folders t c1 c2 = Some true ->
  _merge_company_folders t c1 c2
  = Some (true, match _merge_company_folders t c1 c2 with
                | Some (_, t') => t'
                | None => ∅
                end).
Proof.
  destruct (_merge_company_folders t c1 c2) as [[b t']|]; simpl; [|done].
  by intros [= ->].
Qed.

(** ** C1 *)

(** A token of the normalized name never equals a suffix entry of two
    or three words: the tokens hold no blank. *)
Lemma token_never_credit_union (s w : str) :
  In w (split s) ->
  w <> ("credit union" : str) /\ w <> ("federal credit union" : str).
Proof.
  intros H. split; intros ->.
  - assert (E : isspace " " = false); [|done].
    apply (split_no_space s ("credit union" : str)); [done|].
    simpl. tauto.
  - assert (E : isspace " " = false); [|done].
    apply (split_no_space s ("federal credit union" : str)); [done|].
    simpl. tauto.
Qed.

(** C1: [_normalize_name] compares single tokens with the suffix set, so
    the entries [credit union] and [federal credit union] never match:
    [Navy Federal Credit Union] normalizes to
    [navy federal credit union], which is not what [Navy] normalizes
    to. *)
Theorem normalize_name_keeps_credit_union :
  _normalize_name "Navy Federal Credit Union"
  = ("navy federal credit union" : str)
  /\ _normalize_name "Navy" = ("navy" : str)
  /\ _normalize_name "Navy Federal Credit Union" <> _normalize_name "Navy"
  /\ _normalize_name "The Chase Bank, Inc." = ("chase" : str).
Proof. repeat split; try (vm_compute; reflexivity). vm_compute. discriminate. Qed.

(** ** C2 *)

(** The arithmetic of the score is that of floats.  For the names
    [acme bay law] and [law bay acme] the ratio is 14/24 and the overlap
    is one: the score is the double above 0.85, which the exact sum
    17/20 is not; for [inn at the bay 2] and [inn at the bay] the score
    is the double below 0.8. *)
Lemma score_is_rounded :
  (_calculate_similarity "acme bay law" "law bay acme"
   == 1914029841632461 # 2251799813685248)%Q
  /\ (17 # 20 < _calculate_similarity "acme bay law" "law bay acme")%Q
  /\ (_calculate_similarity "inn at the bay 2" "inn at the bay"
      == 7205759403792793 # 9007199254740992)%Q
  /\ (_calculate_similarity "inn at the bay 2" "inn at the bay" < 4 # 5)%Q.
Proof. repeat split; by vm_compute. Qed.

(** C2: the score [_calculate_similarity] computes is the score of the
    specification (zero for an empty name, the sequence ratio alone for a
    name without words, else the capped weighted sum of the ratio, the
    Jaccard overlap of the word sets and the bonus, in the arithmetic of
    floats), and it lies between zero and one. *)
Theorem calculate_similarity_as_specified (name1 name2 : str) :
  _calculate_similarity name1 name2 = spec_similarity name1 name2
  /\ (0 <= _calculate_similarity name1 name2 <= 1)%Q.
Proof.
  split; [apply calculate_similarity_spec | apply calculate_similarity_range].
Qed.

(** ** C3 *)

(** C3, as stated, fails: a raw name the guard answers has no exact
    match and no score, yet no mapping is registered for it; and with the
    threshold 0.0 a best score of zero reaches the threshold, yet
    nothing is matched. *)
Lemma fuzzy_claim_fails :
  ~ fuzzy_claim fresh ("none" : str)
  /\ ~ fuzzy_claim acme_any ("Xyz" : str).
Proof.
  split; intros H.
  - destruct (H eq_refl) as [_ H2].
    assert (E : normalize_company_name fresh ("none" : str)
                = registered_result fresh ("none" : str)).
    { apply H2. intros e s He. by apply elem_of_nil in He. }
    vm_compute in E. discriminate.
  - destruct (H eq_refl) as [H1 _].
    destruct H1 as (pre & k & m & post & Hmap & _ & E).
    { exists (("acme" : str),
              mkMapping ("Acme" : str) [("Acme" : str)] ("Acme" : str)),
             (_calculate_similarity (_normalize_name ("Xyz" : str))
                (_normalize_name ("Acme" : str))).
      split; [by left|]. split; [by left|].
      apply Qle_bool_iff. vm_compute. reflexivity. }
    assert (Hm : canonical_name m = ("Acme" : str)).
    { change (company_mappings acme_any)
        with [(("acme" : str),
               mkMapping ("Acme" : str) [("Acme" : str)] ("Acme" : str))]
        in Hmap.
      destruct pre as [|e pre].
      - injection Hmap as _ <- _. reflexivity.
      - injection Hmap as _ Hmap. destruct pre; discriminate Hmap. }
    unfold matched_result in E. rewrite Hm in E.
    vm_compute in E. discriminate.
Qed.

(** C3, amended: in a reachable registry, for a raw name that the guard
    lets through and that has no exact match, a score that reaches the
    threshold and is positive makes [normalize_company_name] return the
    canonical name of the first mapping with the highest score and add
    the raw name to the variations of that mapping; when every score is
    below the threshold or not positive, it registers a new mapping. *)
Theorem fuzzy_match_first_best (st : normalizer) (x : str) :
  reachable st -> ~ null_like x -> _find_exact_match st x = None ->
  ((exists e s, e ∈ company_mappings st
      /\ s ∈ mapping_scores (_normalize_name x) (snd e)
      /\ (similarity_threshold st <= s)%Q /\ (0 < s)%Q) ->
   exists pre k m post,
     company_mappings st = pre ++ (k, m) :: post
     /\ first_best (_normalize_name x) pre m post
     /\ normalize_company_name st x = matched_result st x pre k m post)
  /\ ((forall e s, e ∈ company_mappings st ->
         s ∈ mapping_scores (_normalize_name x) (snd e) ->
         (s < similarity_threshold st)%Q \/ (s <= 0)%Q) ->
      normalize_company_name st x = registered_result st x).
Proof. apply fuzzy_match_step. Qed.

Lemma fuzzy_match_first_best_witness :
  (exists pre k m post,
     company_mappings chase = pre ++ (k, m) :: post
     /\ first_best (_normalize_name ("CHASE BANK INC" : str)) pre m post
     /\ normalize_company_name chase ("CHASE BANK INC" : str)
        = matched_result chase ("CHASE BANK INC" : str) pre k m post)
  /\ normalize_company_name bay ("Inn at the Bay 2" : str)
     = registered_result bay ("Inn at the Bay 2" : str).
Proof.
  split.
  - apply (fuzzy_match_first_best chase ("CHASE BANK INC" : str)).
    + apply reachable_after, reachable_fresh.
    + apply not_null_like. vm_compute. reflexivity.
    + vm_compute. reflexivity.
    + exists (("chase bank" : str),
              mkMapping ("Chase Bank" : str) [("Chase Bank" : str)]
                ("Chase_Bank" : str)),
             (_calculate_similarity (_normalize_name ("CHASE BANK INC" : str))
                (_normalize_name ("Chase Bank" : str))).
      split; [by left|]. split; [by left|]. split.
      * apply Qle_bool_iff. vm_compute. reflexivity.
      * vm_compute. reflexivity.
  - apply (fuzzy_match_first_best bay ("Inn at the Bay 2" : str)).
    + apply reachable_after, reachable_fresh.
    + apply not_null_like. vm_compute. reflexivity.
    + vm_compute. reflexivity.
    + intros e s He Hs. left.
      change (company_mappings bay)
        with [(("inn at the bay" : str),
               mkMapping ("Inn at the Bay" : str) [("Inn at the Bay" : str)]
                 ("Inn_at_the_Bay" : str))] in He.
      apply elem_of_cons in He as [->|He]; [|by apply elem_of_nil in He].
      cbn [snd mapping_scores canonical_name variations map] in Hs.
      repeat (apply elem_of_cons in Hs as [->|Hs]; [by vm_compute|]).
      by apply elem_of_nil in Hs.
Defined.

(** ** C4 *)


(** ** C5 *)

(** The candidates hold the pair of [Acme Bay Law] and [Law Bay Acme]:
    its score is the double above 0.85. *)
Lemma rounded_score_is_candidate :
  (acme_bay_law, law_bay_acme, pair_score acme_bay_law law_bay_acme)
  ∈ find_duplicates [acme_bay_law; law_bay_acme].
Proof.
  apply find_duplicates_elem. exists 0, 1.
  split; [lia|]. split; [done|]. split; [done|]. split; [done|].
  by vm_compute.
Qed.





(** ** C6 *)

(** C6: two folders that each hold a file named [.pdf] are merged with
    success; the moved file is renamed [.pdf_1], which [*.pdf] does not
    match, so the tree holds two PDF files before the merge and one
    after it (no file is lost: two files before, two after). *)
Theorem merge_loses_dot_pdf :
  _merge_company_folders dotted acme acme_inc = Some (true, dotted_merged)
  /\ (exists st, init 0.8 true dotted = Some (st, dotted_merged))
  /\ dotted_merged !! [("Acme" : str); (".pdf" : str)] = Some (File "x")
  /\ dotted_merged !! [("Acme" : str); (".pdf_1" : str)] = Some (File "y")
  /\ pdf_count dotted = 2 /\ pdf_count dotted_merged = 1
  /\ file_count dotted = 2 /\ file_count dotted_merged = 2.
Proof.
  split; [apply merged_tree; vm_compute; reflexivity|].
  split.
  { exists (default fresh (fst <$> init 0.8 true dotted)).
    apply option_pair_snd. apply (bool_decide_unpack _).
    vm_compute. exact I. }
  repeat split; vm_compute; reflexivity.
Qed.

(** ** C7 *)




(** ** C8 *)

(** C8: in every reachable registry [normalize_company_name] returns
    (it does not raise), it returns [Unknown] and changes nothing for an
    empty name and for a name that is unknown, null or none in any
    case; and [get_folder_name] returns the sanitized name for a name
    that has no mapping. *)
Theorem normalize_total (st : normalizer) (x canonical : str) :
  reachable st ->
  (exists result st', normalize_company_name st x = Some (result, st'))
  /\ (null_like x ->
      normalize_company_name st x = Some (("Unknown" : str), st))
  /\ (dict_get (lower canonical) (company_mappings st) = None ->
      get_folder_name st canonical = _sanitize_name canonical).
Proof.
  intros R. split; [|split].
  - by apply normalize_returns, reachable_wf.
  - apply normalize_guard.
  - intros H. unfold get_folder_name. by rewrite H.
Qed.

Lemma normalize_total_witness :
  (exists result st',
      normalize_company_name chase ("NULL" : str) = Some (result, st'))
  /\ (null_like ("NULL" : str) ->
      normalize_company_name chase ("NULL" : str)
      = Some (("Unknown" : str), chase))
  /\ (dict_get (lower ("A/B  Corp" : str)) (company_mappings chase) = None ->
      get_folder_name chase ("A/B  Corp" : str)
      = _sanitize_name ("A/B  Corp" : str)).
Proof.
  apply (normalize_total chase ("NULL" : str) ("A/B  Corp" : str)).
  apply reachable_after, reachable_fresh.
Defined.

(** ** C9 *)

(** C9: [_sanitize_name] is a function of the name alone; the name it
    returns holds none of the nine invalid characters (and no white
    space), is not empty, and is [Unknown] when nothing is left after
    the replacements and the trimming. *)
Theorem sanitize_name_safe (name : str) :
  (forall c, c ∈ _sanitize_name name -> c ∉ invalid_chars)
  /\ (forall c, c ∈ _sanitize_name name -> isspace c = false)
  /\ _sanitize_name name <> []
  /\ (strip (strip_underscores
               (sub_space_runs "_" (sub_class invalid_char "_" name))) = [] ->
      _sanitize_name name = ("Unknown" : str)).
Proof.
  destruct (sanitize_name_chars name) as (H1 & H2 & H3 & H4).
  split; [|split; [|by split]].
  - intros c Hc. apply list_elem_of_In, H1 in Hc.
    by apply bool_decide_eq_false in Hc.
  - intros c Hc. by apply list_elem_of_In, H2 in Hc.
Qed.

(** ** C10 *)

(** C10, as stated, fails: a registry built by scanning a folder named
    [null] holds the mapping [Null]; the raw name [Null] equals its
    canonical name, yet the answer is [Unknown]. *)
Lemma exact_claim_fails : ~ exact_claim scanned_null ("Null" : str).
Proof.
  intros H. destruct H as ([k m] & Hin & _ & E).
  - exists (("null" : str),
            mkMapping ("Null" : str) [("Null" : str); ("null" : str)]
              ("null" : str)).
    split; [by left | by left].
  - apply elem_of_cons in Hin as [Hin|Hin]; [|by apply elem_of_nil in Hin].
    injection Hin as -> ->. vm_compute in E. discriminate.
Qed.

(** C10, amended: in a reachable registry, for a raw name that the guard
    lets through (not empty and not unknown, null or none) and that
    equals, case-insensitively, the canonical name or a variation of
    registered mappings, all with a canonical name that is not empty,
    [normalize_company_name] returns the canonical name of such a
    mapping and leaves the registry exactly as it was. *)
Theorem exact_match_frame (st : normalizer) (x : str) :
  reachable st -> ~ null_like x ->
  (exists e, e ∈ company_mappings st /\ matches_mapping x (snd e)) ->
  (forall e, e ∈ company_mappings st -> matches_mapping x (snd e) ->
             canonical_name (snd e) <> []) ->
  exists e, e ∈ company_mappings st /\ matches_mapping x (snd e)
    /\ normalize_company_name st x = Some (canonical_name (snd e), st).
Proof.
  intros R G (e0 & He0 & Hm0) Hne. pose proof (reachable_wf st R) as W.
  destruct (_find_exact_match st x) as [c|] eqn:E.
  - destruct (find_exact_match_elem st x c W E) as (e & He & Hm & ->).
    exists e. split; [done|]. split; [done|].
    apply normalize_exact; [done|done|]. by apply Hne.
  - exfalso. by apply (find_exact_match_None st x W E e0).
Qed.

Lemma exact_match_frame_witness :
  exists e, e ∈ company_mappings chase
    /\ matches_mapping ("chase BANK" : str) (snd e)
    /\ normalize_company_name chase ("chase BANK" : str)
       = Some (canonical_name (snd e), chase).
Proof.
  apply (exact_match_frame chase ("chase BANK" : str)).
  - apply reachable_after, reachable_fresh.
  - apply not_null_like. vm_compute. reflexivity.
  - exists (("chase bank" : str),
            mkMapping ("Chase Bank" : str) [("Chase Bank" : str)]
              ("Chase_Bank" : str)).
    split; [by left | by left].
  - intros e He _.
    apply elem_of_cons in He as [->|He]; [done | by apply elem_of_nil in He].
Defined.

End Claims.

(** ** More on the string transforms *)

Module CharFacts.
Import PyStr Canon.

Ltac by_cases c :=
  destruct c as [[] [] [] [] [] [] [] []]; vm_compute; congruence.

Lemma lower_char_idem (c : ascii) : lower_char (lower_char c) = lower_char c.
Proof. by_cases c. Qed.

Lemma lower_upper_char (c : ascii) : lower_char (upper_char c) = lower_char c.
Proof. by_cases c. Qed.

Lemma isspace_lower_char (c : ascii) : isspace (lower_char c) = isspace c.
Proof. by_cases c. Qed.

Lemma isword_not_space (c : ascii) : isword c = true -> isspace c = false.
Proof. by_cases c. Qed.

Lemma lower_idem (s : str) : lower (lower s) = lower s.
Proof.
  unfold lower. rewrite map_map. apply map_ext. apply lower_char_idem.
Qed.

Lemma lower_upper (s : str) : lower (upper s) = lower s.
Proof.
  unfold lower, upper. rewrite map_map. apply map_ext. apply lower_upper_char.
Qed.

Lemma lower_capitalize (s : str) : lower (capitalize s) = lower s.
Proof.
  destruct s as [|c r]; [done|]. cbn [capitalize lower map].
  rewrite lower_upper_char. f_equal. apply lower_idem.
Qed.

Lemma lower_proper_case_part (p : str) : lower (proper_case_part p) = lower p.
Proof.
  unfold proper_case_part.
  destruct (truthy (strip p)); [|done].
  destruct (mem (lower p) lowercase_words); [apply lower_idem|].
  destruct (mem (upper p) uppercase_words); [apply lower_upper|].
  apply lower_capitalize.
Qed.

Lemma lower_concat (l : list str) : lower (concat l) = concat (map lower l).
Proof. apply concat_map. Qed.

Lemma lower_proper_case (s : str) : lower (_proper_case s) = lower s.
Proof.
  unfold _proper_case. destruct (truthy s); [|done]. cbn [negb].
  rewrite lower_concat, map_map.
  rewrite (map_ext _ lower) by apply lower_proper_case_part.
  rewrite <- lower_concat. by rewrite CaseFacts.re_split_concat.
Qed.

Lemma isascii_lower (s : str) : isascii (lower s) = isascii s.
Proof.
  induction s as [|c r IH]; [done|]. cbn [lower map isascii forallb].
  fold (lower r). fold (isascii (lower r)). fold (isascii r). rewrite IH.
  f_equal. by_cases c.
Qed.

Lemma truthy_lower (s : str) : truthy (lower s) = truthy s.
Proof. by destruct s. Qed.

Lemma truthy_upper (s : str) : truthy (upper s) = truthy s.
Proof. by destruct s. Qed.

End CharFacts.

Module StripFacts.
Import PyStr Canon CharFacts.

Lemma dropwhile_split (p : ascii -> bool) (s : str) :
  exists pre, s = pre ++ dropwhile p s /\ forall c, In c pre -> p c = true.
Proof.
  induction s as [|c r (pre & E & H)]; [by exists []|].
  cbn [dropwhile]. destruct (p c) eqn:Ec.
  - exists (c :: pre). split; [cbn; by f_equal|].
    intros x [<-|Hx]; [done | by apply H].
  - by exists [].
Qed.

Lemma dropwhile_fixed (p : ascii -> bool) (s : str) :
  (forall c r, s = c :: r -> p c = false) -> dropwhile p s = s.
Proof.
  destruct s as [|c r]; [done|]. intros H. cbn. by rewrite (H c r).
Qed.

Lemma dropwhile_fixed_inv (p : ascii -> bool) (s : str) :
  dropwhile p s = s -> forall c r, s = c :: r -> p c = false.
Proof.
  intros H c r ->. destruct (p c) eqn:E; [|done]. exfalso.
  cbn in H. rewrite E in H.
  destruct (dropwhile_split p r) as (pre & Er & _).
  apply (f_equal (@length ascii)) in Er. rewrite H in Er.
  rewrite length_app in Er. cbn in Er. lia.
Qed.

Lemma dropwhile_idem (p : ascii -> bool) (s : str) :
  dropwhile p (dropwhile p s) = dropwhile p s.
Proof.
  apply dropwhile_fixed. intros c r. apply CaseFacts.dropwhile_head.
Qed.

Lemma rstrip_by_split (p : ascii -> bool) (s : str) :
  exists suf, s = rstrip_by p s ++ suf.
Proof.
  destruct (dropwhile_split p (rev s)) as (pre & E & _).
  exists (rev pre). unfold rstrip_by.
  rewrite <- rev_app_distr, <- E. by rewrite rev_involutive.
Qed.

(** A string that starts and ends with a character outside the class is
    left as it is. *)
Lemma strip_by_fixed (p : ascii -> bool) (s : str) :
  dropwhile p s = s -> dropwhile p (rev s) = rev s -> strip_by p s = s.
Proof.
  intros H1 H2. unfold strip_by, rstrip_by, lstrip_by.
  rewrite H1, H2. apply rev_involutive.
Qed.

Lemma strip_by_lfixed (p : ascii -> bool) (s : str) :
  dropwhile p (strip_by p s) = strip_by p s.
Proof.
  unfold strip_by, lstrip_by. set (u := dropwhile p s).
  apply dropwhile_fixed. intros c r E.
  destruct (rstrip_by_split p u) as (suf & Eu). rewrite E in Eu.
  apply (dropwhile_fixed_inv p u (dropwhile_idem p s) c (r ++ suf)).
  by rewrite Eu.
Qed.

Lemma strip_by_rfixed (p : ascii -> bool) (s : str) :
  dropwhile p (rev (strip_by p s)) = rev (strip_by p s).
Proof.
  unfold strip_by, rstrip_by. rewrite rev_involutive. apply dropwhile_idem.
Qed.

Lemma strip_by_idem (p : ascii -> bool) (s : str) :
  strip_by p (strip_by p s) = strip_by p s.
Proof.
  apply strip_by_fixed; [apply strip_by_lfixed | apply strip_by_rfixed].
Qed.

Lemma dropwhile_map (p : ascii -> bool) (f : ascii -> ascii) (s : str) :
  (forall c, p (f c) = p c) ->
  dropwhile p (map f s) = map f (dropwhile p s).
Proof.
  intros H. induction s as [|c r IH]; [done|].
  cbn [map dropwhile]. rewrite H. by destruct (p c).
Qed.

Lemma strip_by_map (p : ascii -> bool) (f : ascii -> ascii) (s : str) :
  (forall c, p (f c) = p c) ->
  strip_by p (map f s) = map f (strip_by p s).
Proof.
  intros H. unfold strip_by, rstrip_by, lstrip_by.
  rewrite (dropwhile_map p f s H), <- map_rev.
  rewrite (dropwhile_map p f _ H). by rewrite map_rev.
Qed.

Lemma strip_lower (s : str) : strip (lower s) = lower (strip s).
Proof. apply strip_by_map. apply isspace_lower_char. Qed.

(** A string without a character of the class is left as it is. *)
Lemma strip_by_none (p : ascii -> bool) (s : str) :
  (forall c, In c s -> p c = false) -> strip_by p s = s.
Proof.
  intros H. apply strip_by_fixed; apply dropwhile_fixed.
  - intros c r ->. apply H. by left.
  - intros c r E. apply H. apply in_rev. rewrite E. by left.
Qed.

Lemma sub_class_none (p : ascii -> bool) (rep : ascii) (s : str) :
  (forall c, In c s -> p c = false) -> sub_class p rep s = s.
Proof.
  intros H. unfold sub_class. rewrite <- (map_id s) at 2.
  apply map_ext_in. intros c Hc. by rewrite (H c Hc).
Qed.

Lemma sub_runs_from_none (b : bool) (rep : ascii) (s : str) :
  (forall c, In c s -> isspace c = false) -> sub_runs_from b rep s = s.
Proof.
  revert b. induction s as [|c r IH]; intros b H; [done|].
  cbn [sub_runs_from]. rewrite (H c) by by left.
  f_equal. apply IH. intros x Hx. apply H. by right.
Qed.

End StripFacts.

Module SanitizeFacts.
Import PyStr Canon Organizer CharFacts StripFacts StrFacts CanonFacts.

(** The text [_sanitize_name] keeps, before the fall-back to Unknown. *)
Lemma sanitized_fixed (s : str) :
  let r := strip (strip_underscores
                    (sub_space_runs "_" (sub_class invalid_char "_" s))) in
  strip (strip_underscores (sub_space_runs "_" (sub_class invalid_char "_" r)))
  = r.
Proof.
  intros r.
  set (u := sub_space_runs "_" (sub_class invalid_char "_" s)) in *.
  assert (Hsp : forall c, In c u -> isspace c = false).
  { intros c Hc. by apply (sub_runs_from_no_space false "_" _ c) in Hc. }
  assert (Hinv : forall c, In c u -> invalid_char c = false).
  { intros c Hc. apply sub_runs_from_In in Hc as [->|Hc]; [done|].
    apply sub_class_In in Hc as [->|[_ Hc]]; done. }
  assert (Er : r = strip_underscores u).
  { unfold r, strip. apply strip_by_none. intros c Hc.
    apply Hsp. by apply strip_by_In in Hc. }
  assert (Hr : forall c, In c r -> In c u).
  { intros c Hc. rewrite Er in Hc. by apply strip_by_In in Hc. }
  rewrite sub_class_none by (intros c Hc; by apply Hinv, Hr).
  unfold sub_space_runs.
  rewrite sub_runs_from_none by (intros c Hc; by apply Hsp, Hr).
  rewrite Er at 1. unfold strip_underscores. rewrite strip_by_idem.
  fold (strip_underscores u). rewrite <- Er.
  apply strip_by_none. intros c Hc. by apply Hsp, Hr.
Qed.

Lemma sanitize_name_cases (name : str) :
  _sanitize_name name = ("Unknown" : str)
  \/ (_sanitize_name name
       = strip (strip_underscores
                  (sub_space_runs "_" (sub_class invalid_char "_" name)))
      /\ _sanitize_name name <> []).
Proof.
  unfold _sanitize_name. destruct (truthy name); cbn [negb]; [|by left].
  destruct (truthy _) eqn:E; [|by left].
  right. split; [done|]. by apply truthy_true.
Qed.

Lemma sanitize_name_fixed (name : str) :
  _sanitize_name (_sanitize_name name) = _sanitize_name name.
Proof.
  destruct (sanitize_name_cases name) as [->|[E Hne]]; [by vm_compute|].
  pose proof (sanitized_fixed name) as H. cbn zeta in H.
  rewrite <- E in H. apply truthy_true in Hne.
  unfold _sanitize_name at 1. rewrite Hne. cbn [negb]. rewrite H.
  by rewrite Hne.
Qed.

Lemma sanitize_dirname_eq (name : str) :
  _sanitize_dirname name = _sanitize_name name.
Proof. reflexivity. Qed.

End SanitizeFacts.

Module NormalizeNameFacts.
Import PyStr Canon CharFacts StripFacts StrFacts CaseFacts.

Lemma normalize_name_lower (x : str) :
  _normalize_name (lower x) = _normalize_name x.
Proof. unfold _normalize_name. by rewrite truthy_lower, lower_idem. Qed.

Lemma normalize_name_upper (x : str) :
  _normalize_name (upper x) = _normalize_name x.
Proof. unfold _normalize_name. by rewrite truthy_upper, lower_upper. Qed.

Lemma normalize_name_strip (x : str) :
  _normalize_name (strip x) = _normalize_name x.
Proof.
  destruct (strip x) as [|c r] eqn:E.
  - by rewrite (normalize_name_blank x E).
  - rewrite <- E. unfold _normalize_name.
    assert (truthy (strip x) = true) as -> by by rewrite E.
    assert (truthy x = true) as ->.
    { destruct x; [|done]. by vm_compute in E. }
    cbn [negb]. rewrite <- (strip_lower x). unfold strip.
    by rewrite strip_by_idem.
Qed.

(** A name that differs from another in case only normalizes to the
    same string. *)
Lemma normalize_name_same_lower (x y : str) :
  lower x = lower y -> _normalize_name x = _normalize_name y.
Proof.
  intros H. by rewrite <- (normalize_name_lower x), H, normalize_name_lower.
Qed.

(** *** Words and the text they are joined to *)

Lemma join_cons (sep w : str) (r : list str) :
  join sep (w :: r)
  = w ++ match r with [] => [] | _ => sep ++ join sep r end.
Proof. destruct r; cbn [join]; by rewrite ?app_nil_r. Qed.

Lemma join_In (sep : str) (ws : list str) (c : ascii) :
  In c (join sep ws) -> In c sep \/ exists w, In w ws /\ In c w.
Proof.
  induction ws as [|w r IH]; [done|]. rewrite join_cons.
  intros [H|H]%in_app_or.
  - right. exists w. split; [by left | done].
  - destruct r as [|w2 r']; [done|].
    apply in_app_or in H as [H|H]; [by left|].
    destruct (IH H) as [?|(w' & Hw' & Hc)]; [by left|].
    right. exists w'. split; [by right | done].
Qed.

Lemma split_from_app (w : str) : forall cur rest,
  (forall c, In c w -> isspace c = false) ->
  split_from cur (w ++ rest) = split_from (rev w ++ cur) rest.
Proof.
  induction w as [|c r IH]; intros cur rest H; [done|].
  cbn [app split_from]. rewrite (H c) by by left.
  rewrite IH by (intros x Hx; apply H; by right).
  cbn [rev]. by rewrite <- app_assoc.
Qed.

Lemma split_join (ws : list str) :
  (forall w, In w ws -> w <> [] /\ forall c, In c w -> isspace c = false) ->
  split (join " " ws) = ws.
Proof.
  induction ws as [|w r IH]; intros H; [done|].
  destruct (H w) as [Hne Hw]; [by left|].
  assert (Hrev : rev w ++ [] <> []).
  { rewrite app_nil_r. intros E. apply Hne.
    by rewrite <- (rev_involutive w), E. }
  rewrite join_cons. unfold split. rewrite split_from_app by done.
  destruct r as [|w2 r'].
  - cbn [split_from]. destruct (rev w ++ []) eqn:E; [done|].
    rewrite <- E, app_nil_r. by rewrite rev_involutive.
  - change ((" " : str) ++ join " " (w2 :: r'))
      with (" "%char :: join " " (w2 :: r')).
    cbn [split_from]. change (isspace " ") with true. cbn iota.
    destruct (rev w ++ []) eqn:E; [done|].
    rewrite <- E, app_nil_r, rev_involutive. f_equal.
    apply IH. intros x Hx. apply H. by right.
Qed.

Lemma sub_runs_from_word (rep : ascii) (w rest : str) :
  (forall c, In c w -> isspace c = false) ->
  sub_runs_from false rep (w ++ rest) = w ++ sub_runs_from false rep rest.
Proof.
  induction w as [|c r IH]; intros H; [done|].
  cbn [app sub_runs_from]. rewrite (H c) by by left.
  f_equal. apply IH. intros x Hx. apply H. by right.
Qed.

Lemma sub_runs_from_start (b : bool) (rep : ascii) (w rest : str) :
  w <> [] -> (forall c, In c w -> isspace c = false) ->
  sub_runs_from b rep (w ++ rest) = sub_runs_from false rep (w ++ rest).
Proof.
  destruct w as [|c r]; [done|]. intros _ H.
  cbn [app sub_runs_from]. by rewrite (H c) by by left.
Qed.

Lemma sub_space_runs_join (ws : list str) :
  (forall w, In w ws -> w <> [] /\ forall c, In c w -> isspace c = false) ->
  sub_space_runs " " (join " " ws) = join " " ws.
Proof.
  unfold sub_space_runs.
  induction ws as [|w r IH]; intros H; [done|].
  destruct (H w) as [Hne Hw]; [by left|].
  rewrite join_cons, sub_runs_from_word by done. f_equal.
  destruct r as [|w2 r']; [done|].
  change ((" " : str) ++ join " " (w2 :: r'))
    with (" "%char :: join " " (w2 :: r')).
  cbn [sub_runs_from]. change (isspace " ") with true. cbn iota. f_equal.
  destruct (H w2) as [Hne2 Hw2]; [right; by left|].
  rewrite (join_cons _ w2 r'), sub_runs_from_start by done.
  rewrite <- (join_cons _ w2 r'). apply IH. intros x Hx. apply H. by right.
Qed.

Lemma join_head (ws : list str) (c : ascii) (t : str) :
  (forall w, In w ws -> w <> [] /\ forall c, In c w -> isspace c = false) ->
  join " " ws = c :: t -> isspace c = false.
Proof.
  destruct ws as [|w r]; [done|]. intros H. rewrite join_cons.
  destruct (H w) as [Hne Hw]; [by left|].
  destruct w as [|x w']; [done|]. intros [= <- _]. apply Hw. by left.
Qed.

Lemma join_last (ws : list str) : forall (c : ascii) (t : str),
  (forall w, In w ws -> w <> [] /\ forall c, In c w -> isspace c = false) ->
  rev (join " " ws) = c :: t -> isspace c = false.
Proof.
  induction ws as [|w r IH]; intros c t H; [done|].
  destruct (H w) as [Hne Hw]; [by left|].
  destruct r as [|w2 r'].
  - cbn [join]. intros E. apply Hw. apply in_rev. rewrite E. by left.
  - rewrite join_cons, !rev_app_distr.
    destruct (H w2) as [Hne2 _]; [right; by left|].
    destruct (rev (join " " (w2 :: r'))) as [|c' t'] eqn:E.
    + exfalso. apply (f_equal (@rev ascii)) in E.
      rewrite rev_involutive, join_cons in E. by destruct w2.
    + cbn [app]. intros [= <- _]. apply (IH c' t'); [|done].
      intros x Hx. apply H. by right.
Qed.

Lemma strip_join (ws : list str) :
  (forall w, In w ws -> w <> [] /\ forall c, In c w -> isspace c = false) ->
  strip (join " " ws) = join " " ws.
Proof.
  intros H. apply strip_by_fixed; apply dropwhile_fixed.
  - intros c t. by apply join_head.
  - intros c t. by apply join_last.
Qed.

(** *** The words [_normalize_name] keeps *)

Lemma split_from_words (s : str) : forall cur w,
  In w (split_from cur s) ->
  w <> [] /\ forall c, In c w -> In c cur \/ In c s.
Proof.
  induction s as [|x r IH]; intros cur w; cbn [split_from].
  - destruct cur as [|y cur']; [done|]. intros [<-|[]]. split.
    + intros E. apply (f_equal (@rev ascii)) in E.
      by rewrite rev_involutive in E.
    + intros c Hc. left. by apply in_rev.
  - destruct (isspace x).
    + destruct cur as [|y cur'].
      * intros H. destruct (IH _ _ H) as [Hne Hc]. split; [done|].
        intros c Hw. destruct (Hc c Hw) as [[]|?]. right. by right.
      * intros [<-|H].
        -- split.
           ++ intros E. apply (f_equal (@rev ascii)) in E.
              by rewrite rev_involutive in E.
           ++ intros c Hc. left. by apply in_rev.
        -- destruct (IH _ _ H) as [Hne Hc]. split; [done|].
           intros c Hw. destruct (Hc c Hw) as [[]|?]. right. by right.
    + intros H. destruct (IH _ _ H) as [Hne Hc]. split; [done|].
      intros c Hw. destruct (Hc c Hw) as [[<-|?]|?].
      * right. by left.
      * by left.
      * right. by right.
Qed.

Lemma drop_prefixes_split (ws : list str) :
  (exists pre, ws = pre ++ drop_prefixes ws)
  /\ forall w r, drop_prefixes ws = w :: r -> mem w common_prefixes = false.
Proof.
  induction ws as [|w r [[pre E] H]]; [split; [by exists [] | done]|].
  cbn [drop_prefixes]. destruct (mem w common_prefixes) eqn:Ew.
  - split; [|done]. exists (w :: pre). cbn. by f_equal.
  - split; [by exists []|]. by intros w' r' [= <- _].
Qed.

Lemma drop_suffixes_split (ws : list str) :
  (exists suf, ws = drop_suffixes ws ++ suf)
  /\ forall w r, rev (drop_suffixes ws) = w :: r ->
       mem w common_suffixes = false.
Proof.
  pose proof (rev_involutive ws) as E0. set (l := rev ws) in E0.
  clearbody l. subst ws. unfold drop_suffixes. rewrite !rev_involutive.
  induction l as [|w r [[suf E] H]].
  - split; [by exists [] | done].
  - cbn -[mem common_suffixes]. destruct (mem w common_suffixes) eqn:Ew.
    + split; [|done]. exists (suf ++ [w]).
      rewrite E at 1. by rewrite app_assoc.
    + split; [|by intros w' r' [= <- _]].
      exists []. by rewrite app_nil_r.
Qed.

Lemma drop_prefixes_fixed (ws : list str) :
  (forall w r, ws = w :: r -> mem w common_prefixes = false) ->
  drop_prefixes ws = ws.
Proof.
  destruct ws as [|w r]; [done|]. intros H. cbn [drop_prefixes].
  by rewrite (H w r).
Qed.

Lemma drop_suffixes_fixed (ws : list str) :
  (forall w r, rev ws = w :: r -> mem w common_suffixes = false) ->
  drop_suffixes ws = ws.
Proof.
  intros H. unfold drop_suffixes. rewrite <- (rev_involutive ws) at 2.
  f_equal. destruct (rev ws) as [|w r]; [done|]. cbn -[mem common_suffixes].
  by rewrite (H w r).
Qed.

(** A text made of lower-case words, single blanks between them,
    without an article in front or a suffix at the end, is what
    [_normalize_name] leaves alone. *)
Lemma normalize_words (ws : list str) :
  (forall w, In w ws ->
     w <> [] /\ forall c, In c w -> isword c = true /\ lower_char c = c) ->
  (forall w r, ws = w :: r -> mem w common_prefixes = false) ->
  (forall w r, rev ws = w :: r -> mem w common_suffixes = false) ->
  _normalize_name (join " " ws) = join " " ws.
Proof.
  intros Hw Hp Hs.
  assert (Hns : forall w, In w ws ->
            w <> [] /\ forall c, In c w -> isspace c = false).
  { intros w Hin. destruct (Hw w Hin) as [Hne Hc]. split; [done|].
    intros c Hcw. apply isword_not_space. by apply Hc. }
  unfold _normalize_name. destruct (truthy (join " " ws)) eqn:Et.
  2:{ apply truthy_false in Et. by rewrite Et. }
  cbn [negb].
  assert (lower (join " " ws) = join " " ws) as ->.
  { unfold lower. rewrite <- (map_id (join " " ws)) at 2.
    apply map_ext_in. intros c [[<-|[]]|(w & Hin & Hc)]%join_In;
      [by vm_compute|].
    by apply (Hw w Hin). }
  rewrite strip_join by done.
  rewrite sub_class_none.
  2:{ intros c [[<-|[]]|(w & Hin & Hc)]%join_In; [by vm_compute|].
      destruct (Hw w Hin) as [_ H]. destruct (H c Hc) as [-> _]. done. }
  rewrite sub_space_runs_join, strip_join, split_join by done.
  by rewrite drop_prefixes_fixed, drop_suffixes_fixed.
Qed.

Lemma normalize_name_words (x : str) :
  exists ws,
    _normalize_name x = join " " ws
    /\ (forall w, In w ws ->
          w <> [] /\ forall c, In c w -> isword c = true /\ lower_char c = c)
    /\ (forall w r, ws = w :: r -> mem w common_prefixes = false)
    /\ (forall w r, rev ws = w :: r -> mem w common_suffixes = false).
Proof.
  unfold _normalize_name. destruct (truthy x); cbn [negb].
  2:{ exists []. by repeat split. }
  set (s := strip (sub_space_runs " " (sub_class _ " " (strip (lower x))))).
  exists (drop_suffixes (drop_prefixes (split s))).
  destruct (drop_suffixes_split (drop_prefixes (split s))) as [[suf Es] Hs].
  destruct (drop_prefixes_split (split s)) as [[pre Ep] Hp].
  split; [done|]. split; [|split; [|done]].
  - intros w Hin.
    assert (Hsplit : In w (split s)).
    { rewrite Ep. apply in_or_app. right. rewrite Es.
      apply in_or_app. by left. }
    destruct (split_from_words _ _ _ Hsplit) as [Hne Hc]. split; [done|].
    intros c Hcw. pose proof (split_no_space _ _ _ Hsplit Hcw) as Hsp.
    destruct (Hc c Hcw) as [[]|Hcs].
    apply strip_by_In in Hcs.
    apply sub_runs_from_In in Hcs as [->|Hcs]; [done|].
    apply sub_class_In in Hcs as [->|[Hcs Hcl]]; [done|].
    apply strip_by_In in Hcs. apply negb_false_iff in Hcl.
    rewrite Hsp, orb_false_r in Hcl. split; [done|].
    apply in_map_iff in Hcs as (c0 & <- & _). apply lower_char_idem.
  - intros w r E. apply (Hp w (r ++ suf)). by rewrite Es, E.
Qed.

Lemma normalize_name_idem (x : str) :
  _normalize_name (_normalize_name x) = _normalize_name x.
Proof.
  destruct (normalize_name_words x) as (ws & -> & Hw & Hp & Hs).
  by apply normalize_words.
Qed.

End NormalizeNameFacts.

(** ** More on the registry *)

Module RegistryMore.
Import PyStr Canon Scorer Registry RegistrySpec RegistryInv.
Import StrFacts CanonFacts CaseFacts DictFacts ScorerFacts RegistryFacts.
Import NormalizeFacts FuzzyFacts CharFacts StripFacts NormalizeNameFacts.

(** *** Every mapping holds its canonical name *)

Lemma set_add_NoDup (x : str) (s : list str) : NoDup s -> NoDup (set_add x s).
Proof.
  intros H. unfold set_add. destruct (mem x s) eqn:E; [done|].
  apply mem_false in E. apply NoDup_app. split; [done|]. split.
  - intros y Hy ->%list_elem_of_singleton. done.
  - apply NoDup_singleton.
Qed.

Lemma mapping_ok_scan (item : str) :
  mapping_ok
    (add_variation item
       (add_variation (_folder_name_to_company_name item)
          (new_mapping (_folder_name_to_company_name item) item))).
Proof.
  repeat split; simpl.
  - rewrite !set_add_elem. right. by left.
  - apply set_add_NoDup, set_add_NoDup, NoDup_nil_2.
  - intros E%folder_name_nil v. subst item. rewrite !set_add_elem.
    intros [->|[->|H]]; [done | done |]. by apply elem_of_nil in H.
Qed.

Lemma mapping_ok_new (x : str) :
  mapping_ok
    (add_variation (_create_canonical_name x)
       (add_variation x (new_mapping (_create_canonical_name x) []))).
Proof.
  repeat split; simpl.
  - rewrite !set_add_elem. by left.
  - apply set_add_NoDup, set_add_NoDup, NoDup_nil_2.
  - intros E v. rewrite !set_add_elem. intros [->|[->|H]].
    + by rewrite E.
    + unfold _create_canonical_name in E. by apply proper_case_nil in E.
    + by apply elem_of_nil in H.
Qed.

Lemma mapping_ok_add (x : str) (m : CompanyMapping) :
  mapping_ok m -> canonical_name m <> [] -> mapping_ok (add_variation x m).
Proof.
  intros (Hc & ND & _) Hne. repeat split; simpl.
  - rewrite set_add_elem. by right.
  - by apply set_add_NoDup.
  - done.
Qed.

Lemma registry_ok_set (st st' : normalizer) (k : str) (m : CompanyMapping) :
  registry_ok st -> mapping_ok m ->
  company_mappings st' = dict_set k m (company_mappings st) ->
  registry_ok st'.
Proof.
  intros O Hm E k' m'. rewrite E.
  intros [[= -> ->]|H]%dict_set_elem; [done | by apply (O k')].
Qed.

Lemma registry_ok_scan_item (st : normalizer) (item : str) :
  registry_ok st -> registry_ok (scan_item st item).
Proof.
  intros O. unfold scan_item. destruct (eqb item _); [done|].
  eapply registry_ok_set; [exact O | apply (mapping_ok_scan item) | done].
Qed.

Lemma registry_ok_scan_names (dirs : list str) : forall st,
  registry_ok st -> registry_ok (scan_names st dirs).
Proof.
  unfold scan_names. induction dirs as [|d dirs IH]; intros st O; [done|].
  simpl. by apply IH, registry_ok_scan_item.
Qed.

Lemma normalize_registry_ok (st st' : normalizer) (x r : str) :
  wf st -> registry_ok st ->
  normalize_company_name st x = Some (r, st') -> registry_ok st'.
Proof.
  intros W O. unfold normalize_company_name.
  destruct (negb (truthy x) || mem (lower x) null_names); [by intros [= _ <-]|].
  destruct (some_truthy (_find_exact_match st x)); [by intros [= _ <-]|].
  destruct (some_truthy (_find_fuzzy_match st x)) as [c|] eqn:F.
  - apply some_truthy_inv in F as [F Hc].
    destruct (fuzzy_match_key st x c W F) as (m & G & Hm). rewrite G.
    intros [= _ <-].
    eapply registry_ok_set; [exact O | | done].
    apply mapping_ok_add; [|by rewrite Hm].
    apply dict_get_Some_elem in G. by apply (O _ _ G).
  - intros [= _ <-].
    eapply registry_ok_set; [exact O | apply (mapping_ok_new x) | done].
Qed.

Lemma reachable_registry_ok (st : normalizer) : reachable st -> registry_ok st.
Proof.
  induction 1 as [th dirs|st x r st' R IH H].
  - apply registry_ok_scan_names. intros k m Hin. by apply elem_of_nil in Hin.
  - eapply normalize_registry_ok; [by apply reachable_wf | exact IH | exact H].
Qed.

(** *** Looking a name up again *)

Lemma blank_same_lower (v x : str) :
  strip v = [] -> lower v = lower x -> strip x = [].
Proof.
  intros Hv E. apply strip_by_nil. intros c Hc.
  assert (Hl : In (lower_char c) (lower v)).
  { rewrite E. by apply in_map. }
  apply in_map_iff in Hl as (c' & Ec & Hc').
  rewrite <- isspace_lower_char, <- Ec, isspace_lower_char.
  by apply (proj1 (strip_by_nil isspace v) Hv).
Qed.

Lemma find_dict_set {V : Type} (pred : str * V -> bool)
    (d : list (str * V)) (k : str) (v : V) :
  pred (k, v) = true ->
  List.find pred d = None \/ (exists v0, List.find pred d = Some (k, v0)) ->
  List.find pred (dict_set k v d) = Some (k, v).
Proof.
  intros Hp. induction d as [|[k' v'] r IH]; intros H.
  - cbn. by rewrite Hp.
  - cbn [dict_set]. destruct (eqb k' k) eqn:E.
    + cbn. by rewrite Hp.
    + apply eqb_false in E. cbn [List.find] in *.
      destruct (pred (k', v')) eqn:Ep.
      * exfalso. destruct H as [H|[v0 H]]; [done|]. congruence.
      * by apply IH.
Qed.

Lemma dict_set_idem {V : Type} (d : list (str * V)) (k : str) (v : V) :
  dict_set k v (dict_set k v d) = dict_set k v d.
Proof.
  assert (Hk : eqb k k = true) by by apply eqb_true.
  induction d as [|[k' v'] r IH]; cbn [dict_set].
  - by rewrite Hk.
  - destruct (eqb k' k) eqn:E; cbn [dict_set].
    + by rewrite Hk.
    + by rewrite E, IH.
Qed.

(** What a failed exact match says about the two look-ups. *)
Lemma exact_None_inv (st : normalizer) (x : str) :
  _find_exact_match st x = None ->
  dict_get (lower x) (company_mappings st) = None
  /\ List.find
       (fun e : str * CompanyMapping =>
          mem (lower x) (map lower (variations (snd e))))
       (company_mappings st) = None.
Proof.
  unfold _find_exact_match.
  destruct (dict_get _ _); [done|]. by destruct (List.find _ _).
Qed.

(** A name that matches the mapping with the empty canonical name is
    blank. *)
Lemma exact_empty_blank (st : normalizer) (x : str) :
  wf st -> registry_ok st -> x <> [] ->
  _find_exact_match st x = Some [] -> strip x = [].
Proof.
  intros W O Hx E.
  apply find_exact_match_elem in E as ([k m] & Hin & Hm & Hc); [|done].
  simpl in *. symmetry in Hc. destruct Hm as [Hm|Hm].
  - rewrite Hc in Hm. apply (proj1 (lower_nil x)) in Hm. done.
  - apply list_elem_of_fmap in Hm as (v & Ev & Hv).
    destruct (O _ _ Hin) as (_ & _ & Hb).
    apply (blank_same_lower v); [by apply Hb | done].
Qed.

(** A blank name has no fuzzy match. *)
Lemma blank_no_fuzzy (st : normalizer) (x : str) :
  strip x = [] -> _find_fuzzy_match st x = None.
Proof.
  intros Hx. apply fuzzy_miss. intros e s _ Hs. right.
  rewrite (normalize_name_blank x Hx) in Hs.
  unfold mapping_scores in Hs.
  apply list_elem_of_fmap in Hs as (v & -> & _).
  by rewrite calculate_similarity_empty_l.
Qed.

Lemma proper_case_blank (x : str) :
  strip x = [] -> _create_canonical_name x = [].
Proof. unfold _create_canonical_name. by intros ->. Qed.

(** When the exact match gives nothing the caller can use, either no
    mapping matches the name or the name is blank. *)
Lemma exact_unusable (st : normalizer) (x : str) :
  wf st -> registry_ok st -> x <> [] ->
  some_truthy (_find_exact_match st x) = None ->
  _find_exact_match st x = None
  \/ (_find_exact_match st x = Some [] /\ strip x = []).
Proof.
  intros W O Hx E. destruct (_find_exact_match st x) as [c|] eqn:Ex; [|by left].
  right. destruct c as [|a c']; [|done].
  split; [done|]. by apply (exact_empty_blank st).
Qed.

(** The key and the entry an exact match of the empty name comes
    from. *)
Lemma exact_empty_inv (st : normalizer) (x : str) :
  wf st -> x <> [] -> _find_exact_match st x = Some [] ->
  dict_get (lower x) (company_mappings st) = None
  /\ exists v0,
       List.find
         (fun e : str * CompanyMapping =>
            mem (lower x) (map lower (variations (snd e))))
         (company_mappings st) = Some ([], v0).
Proof.
  intros (_ & Hk & _) Hx. unfold _find_exact_match.
  destruct (dict_get _ _) as [m|] eqn:G.
  - intros [= E]. exfalso. apply dict_get_Some_elem in G.
    apply Hk in G. rewrite E in G. by apply (proj1 (lower_nil x)) in G.
  - destruct (List.find _ _) as [[k m]|] eqn:F; [|done].
    intros [= E]. split; [done|]. exists m. simpl in E.
    apply find_some in F as [Hin _]. apply list_elem_of_In in Hin.
    apply Hk in Hin. rewrite E in Hin. by rewrite Hin.
Qed.

Lemma not_null_nonempty (x : str) : ~ null_like x -> x <> [].
Proof. intros H ->. apply H. by left. Qed.

Lemma mem_lower_variation (x : str) (vs : list str) :
  x ∈ vs -> mem (lower x) (map lower vs) = true.
Proof. intros H. apply mem_true. by apply list_elem_of_fmap_2. Qed.

(** After a call that returned a name that is not empty, the raw name
    resolves to it by an exact match. *)
Lemma normalize_resolves (st st' : normalizer) (x c : str) :
  reachable st -> ~ null_like x -> c <> [] ->
  normalize_company_name st x = Some (c, st') ->
  resolves st' x c.
Proof.
  intros R G Hc H. pose proof (reachable_wf st R) as W.
  pose proof (reachable_registry_ok st R) as O.
  pose proof (not_null_nonempty x G) as Hx.
  unfold normalize_company_name in H.
  rewrite guard_false in H by done.
  destruct (some_truthy (_find_exact_match st x)) as [c0|] eqn:E.
  { injection H as <- <-. by apply some_truthy_inv in E as [E _]. }
  split; [|done].
  destruct (some_truthy (_find_fuzzy_match st x)) as [c0|] eqn:F.
  - apply some_truthy_inv in F as [F Hc0].
    destruct (fuzzy_match_key st x c0 W F) as (m & Gm & Hm).
    rewrite Gm in H. injection H as <- <-.
    destruct (exact_unusable st x W O Hx E) as [Ex|[_ Hb]].
    2:{ by rewrite (blank_no_fuzzy st x Hb) in F. }
    apply exact_None_inv in Ex as [Eg Ef].
    unfold _find_exact_match. cbn [with_mappings company_mappings].
    rewrite dict_get_set_ne, Eg by congruence.
    rewrite (find_dict_set _ _ (lower c0) (add_variation x m)).
    + by rewrite <- Hm.
    + cbn [snd add_variation variations]. apply mem_lower_variation.
      apply set_add_elem. by left.
    + by left.
  - injection H as <- <-.
    set (c := _create_canonical_name x) in *.
    set (mnew := add_variation c (add_variation x (new_mapping c []))).
    assert (Hp : mem (lower x) (map lower (variations mnew)) = true).
    { apply mem_lower_variation. unfold mnew. cbn.
      rewrite !set_add_elem. right. by left. }
    destruct (exact_unusable st x W O Hx E) as [Ex|[Ex Hb]].
    2:{ exfalso. apply Hc. by apply proper_case_blank. }
    apply exact_None_inv in Ex as [Eg Ef].
    unfold _find_exact_match.
    cbn [_add_new_company company_mappings]. fold mnew.
    destruct (decide (lower c = lower x)) as [Ek|Ek].
    + rewrite <- Ek, dict_get_set_eq. done.
    + rewrite dict_get_set_ne, Eg by done.
      rewrite (find_dict_set _ _ (lower c) mnew); [done|done|by left].
Qed.

(** A call for a blank name registers the empty canonical name, and
    doing it again changes nothing. *)
Lemma normalize_blank_again (st : normalizer) (x : str) :
  wf st -> registry_ok st -> ~ null_like x ->
  some_truthy (_find_exact_match st x) = None ->
  _create_canonical_name x = [] ->
  normalize_company_name (_add_new_company st [] x) x
  = Some ([], _add_new_company st [] x).
Proof.
  intros W O G E Ec. pose proof (not_null_nonempty x G) as Hx.
  assert (Hb : strip x = []).
  { unfold _create_canonical_name in Ec. by apply proper_case_nil in Ec. }
  set (mnew := add_variation [] (add_variation x (new_mapping [] []))).
  assert (Hp : mem (lower x) (map lower (variations mnew)) = true).
  { apply mem_lower_variation. unfold mnew. cbn.
    rewrite !set_add_elem. right. by left. }
  assert (Hk : lower ([] : str) <> lower x).
  { intros N. symmetry in N. by apply (proj1 (lower_nil x)) in N. }
  assert (Ha : _find_exact_match (_add_new_company st [] x) x = Some []).
  { unfold _find_exact_match.
    cbn [_add_new_company company_mappings]. fold mnew.
    destruct (exact_unusable st x W O Hx E) as [Ex|[Ex _]].
    - apply exact_None_inv in Ex as [Eg Ef].
      rewrite dict_get_set_ne, Eg by done.
      rewrite (find_dict_set _ _ (lower []) mnew); [done|done|by left].
    - destruct (exact_empty_inv st x W Hx Ex) as (Eg & v0 & Ef).
      rewrite dict_get_set_ne, Eg by done.
      rewrite (find_dict_set _ _ (lower []) mnew); [done|done|].
      right. by exists v0. }
  unfold normalize_company_name. rewrite guard_false by done.
  rewrite Ha. cbn [some_truthy truthy].
  rewrite (blank_no_fuzzy _ x Hb). cbn [some_truthy].
  rewrite Ec. do 2 f_equal.
  unfold _add_new_company. cbn [company_mappings normalized_to_canonical
    similarity_threshold].
  by rewrite !dict_set_idem.
Qed.

(** Asking again for the name just normalized gives the same answer
    and leaves the registry as it is. *)
Lemma normalize_again (st st' : normalizer) (x c : str) :
  reachable st -> normalize_company_name st x = Some (c, st') ->
  normalize_company_name st' x = Some (c, st').
Proof.
  intros R H. pose proof (reachable_wf st R) as W.
  pose proof (reachable_registry_ok st R) as O.
  destruct (null_like_cases x) as [G|G].
  { rewrite normalize_guard in H by done. injection H as <- <-.
    by apply normalize_guard. }
  destruct (decide (c = [])) as [->|Hc].
  2:{ destruct (normalize_resolves st st' x c R G Hc H) as [Ha _].
      by apply normalize_exact. }
  unfold normalize_company_name in H. rewrite guard_false in H by done.
  destruct (some_truthy (_find_exact_match st x)) as [c0|] eqn:E.
  { injection H as -> <-. by apply some_truthy_inv in E as [_ E]. }
  destruct (some_truthy (_find_fuzzy_match st x)) as [c0|] eqn:F.
  { apply some_truthy_inv in F as [F Hc0].
    destruct (fuzzy_match_key st x c0 W F) as (m & Gm & Hm).
    rewrite Gm in H. by injection H as -> <-. }
  injection H as Ec <-. rewrite Ec. by apply normalize_blank_again.
Qed.

(** *** The folder of a company *)

(** A call with a name that has no blank around it leaves every
    registered company its canonical name and folder, and drops none of
    its variations. *)
Lemma normalize_keeps_companies (st st' : normalizer) (x r : str) :
  reachable st -> strip x = x ->
  normalize_company_name st x = Some (r, st') ->
  forall k m, dict_get k (company_mappings st) = Some m ->
    exists m', dict_get k (company_mappings st') = Some m'
      /\ canonical_name m' = canonical_name m
      /\ folder_name m' = folder_name m
      /\ forall v, v ∈ variations m -> v ∈ variations m'.
Proof.
  intros R Hs H k m Gk. pose proof (reachable_wf st R) as W.
  destruct (null_like_cases x) as [G|G].
  { rewrite normalize_guard in H by done. injection H as <- <-. by eauto. }
  pose proof (not_null_nonempty x G) as Hx.
  unfold normalize_company_name in H. rewrite guard_false in H by done.
  destruct (some_truthy (_find_exact_match st x)) as [c0|] eqn:E.
  { injection H as <- <-. by eauto. }
  destruct (some_truthy (_find_fuzzy_match st x)) as [c0|] eqn:F.
  - apply some_truthy_inv in F as [F Hc0].
    destruct (fuzzy_match_key st x c0 W F) as (m0 & Gm & Hm).
    rewrite Gm in H. injection H as <- <-.
    cbn [with_mappings company_mappings].
    destruct (decide (lower c0 = k)) as [<-|Hne].
    + rewrite dict_get_set_eq. exists (add_variation x m0).
      assert (m0 = m) as -> by congruence.
      repeat split. intros v Hv. cbn. apply set_add_elem. by right.
    + rewrite dict_get_set_ne by done. by eauto.
  - injection H as <- <-. cbn [_add_new_company company_mappings].
    rewrite dict_get_set_ne; [by eauto|].
    unfold _create_canonical_name. rewrite Hs, lower_proper_case.
    intros <-. unfold _find_exact_match in E. rewrite Gk in E.
    cbn [some_truthy] in E. destruct (truthy (canonical_name m)) eqn:T; [done|].
    apply truthy_false in T. destruct W as (_ & Hk & _).
    apply dict_get_Some_elem in Gk. apply Hk in Gk. rewrite T in Gk.
    by apply (proj1 (lower_nil x)) in Gk.
Qed.

(** *** Later calls *)

Lemma exact_same_lower (st : normalizer) (x y : str) :
  lower x = lower y -> _find_exact_match st x = _find_exact_match st y.
Proof. intros E. unfold _find_exact_match. by rewrite E. Qed.

Lemma mem_lower_set_add (x y : str) (vs : list str) :
  lower x <> lower y ->
  mem (lower x) (map lower (set_add y vs)) = mem (lower x) (map lower vs).
Proof.
  intros Hne. unfold set_add. destruct (mem y vs); [done|].
  unfold mem. apply bool_decide_ext.
  rewrite map_app. cbn [map].
  rewrite elem_of_app, list_elem_of_singleton. tauto.
Qed.

Lemma find_dict_set_same {V W : Type} (pred : str * V -> bool)
    (g : str * V -> W) (d : list (str * V)) (k : str) (v v0 : V) :
  dict_get k d = Some v0 ->
  pred (k, v) = pred (k, v0) -> g (k, v) = g (k, v0) ->
  option_map g (List.find pred (dict_set k v d))
  = option_map g (List.find pred d).
Proof.
  intros Hd Hp Hg. induction d as [|[k' v'] r IH]; [done|].
  cbn [dict_get dict_set] in *. destruct (eqb k' k) eqn:E.
  - apply eqb_true in E as ->. injection Hd as ->.
    cbn [List.find]. rewrite Hp. destruct (pred (k, v0)); [|done].
    cbn. by rewrite Hg.
  - cbn [List.find]. destruct (pred (k', v')); [done|]. by apply IH.
Qed.

Lemma find_app_Some {A : Type} (pred : A -> bool) (l1 l2 : list A) (e : A) :
  List.find pred l1 = Some e -> List.find pred (l1 ++ l2) = Some e.
Proof.
  induction l1 as [|x l1 IH]; [done|]. cbn [app List.find].
  by destruct (pred x).
Qed.

(** A name that resolves keeps resolving to the same canonical name
    after a call for another name, when that name has no blank around
    it. *)
Lemma resolves_stable (st st' : normalizer) (x c y r : str) :
  reachable st -> resolves st x c -> strip y = y ->
  normalize_company_name st y = Some (r, st') ->
  resolves st' x c.
Proof.
  intros R [Hx Hc] Hs H. pose proof (reachable_wf st R) as W.
  destruct (null_like_cases y) as [G|G].
  { rewrite normalize_guard in H by done. by injection H as <- <-. }
  pose proof (not_null_nonempty y G) as Hy.
  unfold normalize_company_name in H. rewrite guard_false in H by done.
  destruct (some_truthy (_find_exact_match st y)) as [c0|] eqn:E.
  { by injection H as <- <-. }
  assert (Hxy : lower x <> lower y).
  { intros N. rewrite <- (exact_same_lower st x y N), Hx in E.
    cbn [some_truthy] in E. by destruct c. }
  split; [|done]. revert Hx. unfold _find_exact_match.
  destruct (some_truthy (_find_fuzzy_match st y)) as [c0|] eqn:F.
  - apply some_truthy_inv in F as [F Hc0].
    destruct (fuzzy_match_key st y c0 W F) as (m0 & Gm & Hm).
    rewrite Gm in H. injection H as <- <-.
    cbn [with_mappings company_mappings].
    destruct (decide (lower c0 = lower x)) as [Ek|Ek].
    + rewrite <- Ek, dict_get_set_eq, Gm. done.
    + rewrite dict_get_set_ne by done.
      destruct (dict_get (lower x) (company_mappings st)); [done|].
      pose proof (find_dict_set_same
                    (fun e : str * CompanyMapping =>
                       mem (lower x) (map lower (variations (snd e))))
                    (fun e => canonical_name (snd e))
                    (company_mappings st) (lower c0)
                    (add_variation y m0) m0 Gm) as Hf.
      cbn [snd add_variation variations canonical_name] in Hf.
      specialize (Hf (mem_lower_set_add x y _ Hxy) eq_refl).
      destruct (List.find _ (dict_set _ _ _)), (List.find _ (company_mappings st));
        cbn [option_map] in Hf; congruence.
  - injection H as <- <-. cbn [_add_new_company company_mappings].
    set (mnew := add_variation _ _).
    assert (Ek : lower (_create_canonical_name y) = lower y).
    { unfold _create_canonical_name. by rewrite Hs, lower_proper_case. }
    rewrite Ek.
    assert (Gy : dict_get (lower y) (company_mappings st) = None).
    { destruct (dict_get (lower y) (company_mappings st)) as [m|] eqn:Gy;
        [|done]. exfalso.
      unfold _find_exact_match in E. rewrite Gy in E. cbn [some_truthy] in E.
      destruct (truthy (canonical_name m)) eqn:T; [done|].
      apply truthy_false in T. destruct W as (_ & Hk & _).
      apply dict_get_Some_elem in Gy. apply Hk in Gy. rewrite T in Gy.
      by apply (proj1 (lower_nil y)) in Gy. }
    rewrite dict_get_set_ne by done.
    destruct (dict_get (lower x) (company_mappings st)); [done|].
    rewrite dict_set_fresh by by apply dict_get_None.
    destruct (List.find _ (company_mappings st)) as [e|] eqn:Ef; [|done].
    by rewrite (find_app_Some _ _ _ _ Ef).
Qed.

Lemma normalize_all_reachable (names : list str) : forall st st',
  reachable st -> normalize_all st names = Some st' -> reachable st'.
Proof.
  induction names as [|y names IH]; intros st st' R; cbn [normalize_all].
  - by intros [= <-].
  - destruct (normalize_company_name st y) as [[r st1]|] eqn:E; [|done].
    apply IH. by eapply reach_normalize.
Qed.

Lemma normalize_all_resolves (names : list str) : forall st st' x c,
  reachable st -> resolves st x c ->
  (forall y, y ∈ names -> strip y = y) ->
  normalize_all st names = Some st' -> resolves st' x c.
Proof.
  induction names as [|y names IH]; intros st st' x c R Hx Hs;
    cbn [normalize_all].
  - by intros [= <-].
  - destruct (normalize_company_name st y) as [[r st1]|] eqn:E; [|done].
    apply IH.
    + by eapply reach_normalize.
    + eapply resolves_stable; [exact R|exact Hx| |exact E].
      apply Hs. by left.
    + intros z Hz. apply Hs. by right.
Qed.

Lemma normalize_all_keeps (names : list str) : forall st st' k m,
  reachable st -> (forall y, y ∈ names -> strip y = y) ->
  normalize_all st names = Some st' ->
  dict_get k (company_mappings st) = Some m ->
  exists m', dict_get k (company_mappings st') = Some m'
    /\ canonical_name m' = canonical_name m
    /\ folder_name m' = folder_name m
    /\ forall v, v ∈ variations m -> v ∈ variations m'.
Proof.
  induction names as [|y names IH]; intros st st' k m R Hs;
    cbn [normalize_all].
  - intros [= <-] G. by eauto.
  - destruct (normalize_company_name st y) as [[r st1]|] eqn:E; [|done].
    intros H G.
    destruct (normalize_keeps_companies st st1 y r R
                (Hs y ltac:(by left)) E k m G) as (m1 & G1 & Hc1 & Hf1 & Hv1).
    destruct (IH st1 st' k m1 ltac:(by eapply reach_normalize)
                ltac:(intros z Hz; apply Hs; by right) H G1)
      as (m' & G' & Hc' & Hf' & Hv').
    exists m'. split; [done|]. split; [congruence|]. split; [congruence|].
    intros v Hv. by apply Hv', Hv1.
Qed.

Lemma normalize_all_returns (names : list str) : forall st,
  reachable st -> exists st', normalize_all st names = Some st'.
Proof.
  induction names as [|y names IH]; intros st R; cbn [normalize_all].
  - by eauto.
  - destruct (normalize_returns st y (reachable_wf st R)) as (r & st1 & E).
    rewrite E. apply IH. by eapply reach_normalize.
Qed.

Lemma clean_sanitize_name (name : str) : clean_name (_sanitize_name name).
Proof.
  destruct (sanitize_name_chars name) as (Hi & Hs & Hne & _).
  split; [done|]. split.
  - intros c Hc%list_elem_of_In. specialize (Hi c Hc).
    unfold invalid_char in Hi. by apply bool_decide_eq_false in Hi.
  - intros c Hc%list_elem_of_In. by apply Hs.
Qed.

Lemma sanitized_folders_set (st st' : normalizer) (k : str)
    (m : CompanyMapping) :
  sanitized_folders st ->
  folder_name m = _sanitize_name (canonical_name m) ->
  company_mappings st' = dict_set k m (company_mappings st) ->
  sanitized_folders st'.
Proof.
  intros O Hm E k' m'. rewrite E.
  intros [[= -> ->]|H]%dict_set_elem; [done | by apply (O k')].
Qed.

Lemma normalize_sanitized_folders (st st' : normalizer) (x r : str) :
  wf st -> sanitized_folders st ->
  normalize_company_name st x = Some (r, st') -> sanitized_folders st'.
Proof.
  intros W O. unfold normalize_company_name.
  destruct (negb (truthy x) || mem (lower x) null_names); [by intros [= _ <-]|].
  destruct (some_truthy (_find_exact_match st x)); [by intros [= _ <-]|].
  destruct (some_truthy (_find_fuzzy_match st x)) as [c|] eqn:F.
  - apply some_truthy_inv in F as [F Hc].
    destruct (fuzzy_match_key st x c W F) as (m & G & Hm). rewrite G.
    intros [= _ <-].
    eapply sanitized_folders_set; [exact O | | done].
    cbn. apply dict_get_Some_elem in G. by apply (O _ _ G).
  - intros [= _ <-]. eapply sanitized_folders_set; [exact O | | done]. done.
Qed.

Lemma get_folder_name_safe (st : normalizer) (c : str) :
  sanitized_folders st -> clean_name (get_folder_name st c).
Proof.
  intros O. unfold get_folder_name.
  destruct (dict_get _ _) as [m|] eqn:G; [|apply clean_sanitize_name].
  apply dict_get_Some_elem in G. rewrite (O _ _ G). apply clean_sanitize_name.
Qed.

(** *** What a scan registers *)

Lemma scan_item_mappings (st : normalizer) (d : str) (k : str)
    (m : CompanyMapping) :
  (k, m) ∈ company_mappings (scan_item st d) ->
  (k, m) ∈ company_mappings st
  \/ (d <> ("Unknown" : str)
      /\ k = lower (_folder_name_to_company_name d)
      /\ m = add_variation d
               (add_variation (_folder_name_to_company_name d)
                  (new_mapping (_folder_name_to_company_name d) d))).
Proof.
  unfold scan_item. destruct (eqb d _) eqn:E; [by left|].
  apply eqb_false in E. cbn [company_mappings].
  intros [[= -> ->]|H]%dict_set_elem; [by right | by left].
Qed.

Lemma scan_names_mappings (dirs : list str) : forall st k m,
  (k, m) ∈ company_mappings (scan_names st dirs) ->
  (k, m) ∈ company_mappings st
  \/ exists d, d ∈ dirs /\ d <> ("Unknown" : str)
       /\ k = lower (_folder_name_to_company_name d)
       /\ m = add_variation d
                (add_variation (_folder_name_to_company_name d)
                   (new_mapping (_folder_name_to_company_name d) d)).
Proof.
  unfold scan_names. induction dirs as [|d dirs IH]; intros st k m; [by left|].
  cbn [fold_left]. intros [H|(d' & Hin & Hd)]%IH.
  - apply scan_item_mappings in H as [H|H]; [by left|].
    right. exists d. split; [by left | done].
  - right. exists d'. split; [by right | done].
Qed.

Lemma scan_item_keys (st : normalizer) (d k : str) :
  is_Some (dict_get k (company_mappings st)) ->
  is_Some (dict_get k (company_mappings (scan_item st d))).
Proof.
  unfold scan_item. destruct (eqb d _); [done|]. cbn [company_mappings].
  intros H. destruct (decide (lower (_folder_name_to_company_name d) = k))
    as [<-|Hne].
  - rewrite dict_get_set_eq. by eauto.
  - by rewrite dict_get_set_ne.
Qed.

Lemma scan_names_keys (dirs : list str) : forall st k,
  is_Some (dict_get k (company_mappings st)) ->
  is_Some (dict_get k (company_mappings (scan_names st dirs))).
Proof.
  unfold scan_names. induction dirs as [|d dirs IH]; intros st k H; [done|].
  cbn [fold_left]. by apply IH, scan_item_keys.
Qed.

Lemma scan_names_registers (dirs : list str) : forall st d,
  d ∈ dirs -> d <> ("Unknown" : str) ->
  is_Some (dict_get (lower (_folder_name_to_company_name d))
             (company_mappings (scan_names st dirs))).
Proof.
  induction dirs as [|d' dirs IH]; intros st d Hin Hd.
  - by apply elem_of_nil in Hin.
  - apply elem_of_cons in Hin as [->|Hin].
    + change (scan_names st (d' :: dirs))
        with (scan_names (scan_item st d') dirs).
      apply scan_names_keys. unfold scan_item.
      apply eqb_false in Hd. rewrite Hd. cbn [company_mappings].
      rewrite dict_get_set_eq. by eauto.
    + by apply (IH (scan_item st d')).
Qed.

(** A registry built from ASCII names is one the registry reaches. *)
Lemma ascii_built_reachable (st : normalizer) : ascii_built st -> reachable st.
Proof.
  intros (threshold & dirs & names & _ & _ & H).
  eapply normalize_all_reachable; [|exact H]. apply reach_scan.
Qed.

End RegistryMore.

(** ** More on the merge of two folders *)

Module MergeMore.
Import PyStr Canon Scorer Registry FS Merger.
Import FSFacts NameFacts MergeFacts MergerFacts.

Implicit Types (t : tree) (p q : path) (n : node).

(** *** One file moved *)

(** A directory is never removed or replaced by a move. *)
Lemma step_dirs (kn mn : str) t t' (rel : list str) p :
  rel <> [] -> move_item [kn] [mn] t (mn :: rel) = Finished t' ->
  t !! p = Some Dir -> t' !! p = Some Dir.
Proof.
  intros Hrel H Hp.
  apply (move_item_step _ _ _ _ _ Hrel) in H
    as [[_ ->]|(c & t1 & target & Hc & Emk & _ & Hfree & _ & _ & ->)];
    [done|].
  assert (Hp1 : t1 !! p = Some Dir).
  { eapply mkdir_from_old; [exact Emk | done]. }
  rewrite lookup_insert_ne.
  2:{ intros <-. pose proof (eq_trans (eq_sym Hfree) Hp1). discriminate. }
  rewrite lookup_delete_ne; [done|].
  intros <-. pose proof (eq_trans (eq_sym Hc) Hp). discriminate.
Qed.

(** The content of every file is kept, at the same place or another. *)
Lemma step_content (kn mn : str) t t' (rel : list str) q (c : str) :
  rel <> [] -> move_item [kn] [mn] t (mn :: rel) = Finished t' ->
  t !! q = Some (File c) -> exists p, t' !! p = Some (File c).
Proof.
  intros Hrel H Hq.
  apply (move_item_step _ _ _ _ _ Hrel) in H
    as [[_ ->]|(c' & t1 & target & Hc & Emk & _ & Hfree & _ & _ & ->)];
    [by eauto|].
  destruct (decide (q = mn :: rel)) as [->|Hne].
  - exists target. rewrite lookup_insert_eq. congruence.
  - exists q.
    assert (Hq1 : t1 !! q = Some (File c)).
    { eapply mkdir_from_old; [exact Emk | done]. }
    rewrite lookup_insert_ne.
    2:{ intros <-. pose proof (eq_trans (eq_sym Hfree) Hq1). discriminate. }
    by rewrite lookup_delete_ne.
Qed.

(** What is new after a move lies in the kept folder. *)
Lemma step_new (kn mn : str) t t' (rel : list str) p n :
  rel <> [] -> move_item [kn] [mn] t (mn :: rel) = Finished t' ->
  t' !! p = Some n -> t !! p = Some n \/ exists tl, p = kn :: tl.
Proof.
  intros Hrel H Hp.
  apply (move_item_step _ _ _ _ _ Hrel) in H
    as [[_ ->]|(c & t1 & target & Hc & Emk & _ & Hfree & Hshape & _ & ->)];
    [by left|].
  destruct (decide (target = p)) as [<-|Hne].
  { right. by eapply target_of_cons. }
  rewrite lookup_insert_ne in Hp by done.
  destruct (decide (mn :: rel = p)) as [<-|Hne'].
  { by rewrite lookup_delete_eq in Hp. }
  rewrite lookup_delete_ne in Hp by done.
  destruct (mkdir_from_new _ _ _ _ Emk _ _ Hp) as [?|(_ & r & Hr & Hpre & ->)];
    [by left|].
  right. destruct r as [|x r']; [done|].
  apply prefix_cons_inv_1 in Hpre as ->. by eauto.
Qed.

(** A top-level directory found after a move was there before. *)
Lemma step_top (kn mn : str) t t' (rel : list str) (d : str) :
  rel <> [] -> move_item [kn] [mn] t (mn :: rel) = Finished t' ->
  is_Some (t !! [kn]) -> t' !! [d] = Some Dir -> t !! [d] = Some Dir.
Proof.
  intros Hrel H [n0 Hk] Hp.
  pose proof H as H0.
  apply (move_item_step _ _ _ _ _ Hrel) in H
    as [[_ ->]|(c & t1 & target & Hc & Emk & _ & Hfree & Hshape & _ & ->)];
    [done|].
  destruct (decide (target = [d])) as [E|Hne].
  { rewrite E, lookup_insert_eq in Hp. discriminate. }
  rewrite lookup_insert_ne in Hp by done.
  rewrite lookup_delete_ne in Hp.
  2:{ intros [= _ E]. by subst rel. }
  destruct (mkdir_from_new _ _ _ _ Emk _ _ Hp) as [?|(_ & r & Hr & Hpre & E)];
    [done|].
  cbn [app] in E. subst r. apply prefix_cons_inv_1 in Hpre as ->.
  assert (Hk1 : t1 !! [kn] = Some n0).
  { eapply mkdir_from_old; [exact Emk | done]. }
  congruence.
Qed.

(** An entry that is not the file moved stays. *)
Lemma step_other (kn mn : str) t t' (rel : list str) p n :
  rel <> [] -> move_item [kn] [mn] t (mn :: rel) = Finished t' ->
  p <> mn :: rel -> t !! p = Some n -> t' !! p = Some n.
Proof.
  intros Hrel H Hne Hp.
  apply (move_item_step _ _ _ _ _ Hrel) in H
    as [[_ ->]|(c & t1 & target & Hc & Emk & _ & Hfree & _ & _ & ->)];
    [done|].
  assert (Hp1 : t1 !! p = Some n).
  { eapply mkdir_from_old; [exact Emk | done]. }
  rewrite lookup_insert_ne.
  2:{ intros <-. pose proof (eq_trans (eq_sym Hfree) Hp1). discriminate. }
  by rewrite lookup_delete_ne.
Qed.

(** *** The loop, finished or interrupted *)

Lemma move_item_raised (K M : path) t item t' :
  move_item K M t item = Raised t' -> t' = t.
Proof.
  unfold move_item. destruct (is_file t item); [|done].
  destruct (mkdir_parents _ _); [|by intros [= <-]].
  by destruct (resolve_target _ _).
Qed.

(** An interrupted loop has moved the files of a first part of the
    list and left the rest as it was. *)
Lemma move_items_raised (K M : path) (items : list path) : forall t t',
  move_items K M t items = Raised t' ->
  exists moved rest,
    items = moved ++ rest /\ move_items K M t moved = Finished t'.
Proof.
  induction items as [|item items IH]; intros t t'; [done|].
  cbn [move_items]. destruct (move_item K M t item) as [t1|tr|] eqn:E.
  - intros (moved & rest & -> & H)%IH. exists (item :: moved), rest.
    split; [done|]. cbn [move_items]. by rewrite E.
  - intros [= <-]. apply move_item_raised in E as ->. by exists [], (item :: items).
  - done.
Qed.

Lemma loop_dirs (kn mn : str) (items : list path) : forall t t',
  (forall item, item ∈ items -> below [mn] item = true) ->
  move_items [kn] [mn] t items = Finished t' ->
  forall p, t !! p = Some Dir -> t' !! p = Some Dir.
Proof.
  induction items as [|item items IH]; intros t t' Hb H p Hp.
  - by injection H as <-.
  - apply move_items_cons in H as (t1 & H1 & H2).
    destruct (proj1 (below_M_cons mn item) (Hb item ltac:(by left)))
      as (rel & Hrel & ->).
    eapply IH; [|exact H2|].
    + intros i Hi. apply Hb. by right.
    + by eapply step_dirs.
Qed.

Lemma loop_content (kn mn : str) (items : list path) : forall t t',
  (forall item, item ∈ items -> below [mn] item = true) ->
  move_items [kn] [mn] t items = Finished t' ->
  forall q c, t !! q = Some (File c) -> exists p, t' !! p = Some (File c).
Proof.
  induction items as [|item items IH]; intros t t' Hb H q c Hq.
  - injection H as <-. by eauto.
  - apply move_items_cons in H as (t1 & H1 & H2).
    destruct (proj1 (below_M_cons mn item) (Hb item ltac:(by left)))
      as (rel & Hrel & ->).
    destruct (step_content _ _ _ _ _ _ _ Hrel H1 Hq) as [p' Hp'].
    eapply IH; [|exact H2|exact Hp'].
    intros i Hi. apply Hb. by right.
Qed.

Lemma loop_count_all (kn mn : str) (items : list path) : forall t t',
  (forall item, item ∈ items -> below [mn] item = true) ->
  move_items [kn] [mn] t items = Finished t' ->
  file_count t' = file_count t.
Proof.
  induction items as [|item items IH]; intros t t' Hb H.
  - by injection H as <-.
  - apply move_items_cons in H as (t1 & H1 & H2).
    destruct (proj1 (below_M_cons mn item) (Hb item ltac:(by left)))
      as (rel & Hrel & ->).
    rewrite (IH t1 t'); [|intros i Hi; apply Hb; by right|done].
    by apply (step_count kn mn _ _ _ rel).
Qed.

Lemma loop_new (kn mn : str) (items : list path) : forall t t',
  (forall item, item ∈ items -> below [mn] item = true) ->
  move_items [kn] [mn] t items = Finished t' ->
  forall p n, t' !! p = Some n -> t !! p = Some n \/ exists tl, p = kn :: tl.
Proof.
  induction items as [|item items IH]; intros t t' Hb H p n Hp.
  - injection H as <-. by left.
  - apply move_items_cons in H as (t1 & H1 & H2).
    destruct (proj1 (below_M_cons mn item) (Hb item ltac:(by left)))
      as (rel & Hrel & ->).
    destruct (IH t1 t' ltac:(intros i Hi; apply Hb; by right) H2 p n Hp)
      as [Hp1|?]; [|by right].
    by eapply step_new.
Qed.

Lemma loop_top (kn mn : str) (items : list path) : forall t t',
  (forall item, item ∈ items -> below [mn] item = true) ->
  move_items [kn] [mn] t items = Finished t' ->
  is_Some (t !! [kn]) ->
  forall d, t' !! [d] = Some Dir -> t !! [d] = Some Dir.
Proof.
  induction items as [|item items IH]; intros t t' Hb H Hk d Hp.
  - by injection H as <-.
  - apply move_items_cons in H as (t1 & H1 & H2).
    destruct (proj1 (below_M_cons mn item) (Hb item ltac:(by left)))
      as (rel & Hrel & ->).
    eapply step_top; [exact Hrel|exact H1|exact Hk|].
    eapply IH; [|exact H2| |exact Hp].
    + intros i Hi. apply Hb. by right.
    + destruct Hk as [n0 Hk]. exists n0.
      eapply step_other; [exact Hrel|exact H1| |exact Hk].
      intros [= _ E]. by subst rel.
Qed.

(** A file of the merged folder ends in the kept folder, under its own
    relative path or a numbered name beside it, with its content. *)
Lemma loop_moved_any (kn mn : str) (items : list path) :
  kn <> mn -> forall t t' rel c,
  (forall item, item ∈ items -> below [mn] item = true) ->
  move_items [kn] [mn] t items = Finished t' ->
  rel <> [] -> (mn :: rel) ∈ items ->
  t !! (mn :: rel) = Some (File c) ->
  exists target, target_of kn rel target /\ t' !! target = Some (File c).
Proof.
  intros Hd.
  induction items as [|item items IH]; intros t t' rel c Hb H Hrel Hin Hc.
  - by apply elem_of_nil in Hin.
  - apply move_items_cons in H as (t1 & H1 & H2).
    assert (Hb' : forall x, x ∈ items -> below [mn] x = true).
    { intros x Hx. apply Hb. by right. }
    destruct (decide (item = mn :: rel)) as [->|Hne].
    + apply (move_item_step _ _ _ _ _ Hrel) in H1
        as [[F _]|(c' & t0 & target & Hc' & Emk & _ & Hfree & Hshape & _ & ->)].
      { unfold is_file in F. by rewrite Hc in F. }
      assert (c' = c) as -> by congruence.
      exists target. split; [done|].
      destruct (target_of_cons _ _ _ Hrel Hshape) as [tl ->].
      eapply (loop_outside kn mn items); [done|exact H2| |].
      * by apply not_under_M.
      * apply lookup_insert_eq.
    + apply elem_of_cons in Hin as [E|Hin]; [by symmetry in E|].
      destruct (proj1 (below_M_cons mn item) (Hb item ltac:(by left)))
        as (rel' & Hrel' & ->).
      apply (IH t1 t' rel c); [done|done|done|done|].
      eapply step_other; [exact Hrel'|exact H1| |exact Hc].
      congruence.
Qed.

(** *** The merge *)

(** The ways [_merge_company_folders] ends. *)
Lemma merge_inv t (c1 c2 : CompanyMapping) (b : bool) t' :
  _merge_company_folders t c1 c2 = Some (b, t') ->
  (b = false /\ t' = t)
  \/ exists keep merge,
       kept_and_merged t c1 c2 = (keep, merge)
       /\ is_Some (t !! folder_of keep)
       /\ ((exists tl,
              move_items (folder_of keep) (folder_of merge) t
                (rglob_all t (folder_of merge)) = Finished tl
              /\ ((b = true
                   /\ t' = filter (fun e : path * node =>
                                     ~ folder_of merge `prefix_of` fst e) tl)
                  \/ (b = false /\ t' = tl)))
           \/ (b = false
               /\ move_items (folder_of keep) (folder_of merge) t
                    (rglob_all t (folder_of merge)) = Raised t')).
Proof.
  unfold _merge_company_folders.
  destruct (negb (exists_ t (folder_of c1))) eqn:E1; cbn [orb].
  { intros [= <- <-]. by left. }
  destruct (negb (exists_ t (folder_of c2))) eqn:E2.
  { intros [= <- <-]. by left. }
  apply negb_false_iff, exists_true in E1, E2.
  destruct (kept_and_merged t c1 c2) as [keep merge] eqn:EK.
  assert (HK : is_Some (t !! folder_of keep)).
  { destruct (kept_and_merged_cases t c1 c2) as [E|E];
      rewrite E in EK; by injection EK as <- <-. }
  destruct (move_items _ _ _ _) as [tl|tr|] eqn:EM; [| |done].
  - unfold rmtree. destruct (is_dir tl (folder_of merge)).
    + intros [= <- <-]. right. exists keep, merge.
      split; [done|]. split; [done|]. left. exists tl. split; [done|].
      by left.
    + intros [= <- <-]. right. exists keep, merge.
      split; [done|]. split; [done|]. left. exists tl. split; [done|].
      by right.
  - intros [= <- <-]. right. exists keep, merge.
    split; [done|]. split; [done|]. by right.
Qed.

Lemma rglob_below t (folder : path) (items : list path) :
  (exists rest, rglob_all t folder = items ++ rest) ->
  forall item, item ∈ items -> below folder item = true.
Proof.
  intros [rest E] item Hin.
  assert (H : item ∈ rglob_all t folder).
  { rewrite E. apply elem_of_app. by left. }
  by apply rglob_all_elem in H as [H _].
Qed.

(** A merge that fails has lost nothing. *)
Lemma merge_failed_keeps t (c1 c2 : CompanyMapping) t' :
  _merge_company_folders t c1 c2 = Some (false, t') ->
  file_count t' = file_count t
  /\ (forall p, t !! p = Some Dir -> t' !! p = Some Dir)
  /\ (forall q c, t !! q = Some (File c) -> exists p, t' !! p = Some (File c)).
Proof.
  intros [[_ ->]|(keep & merge & _ & _ & H)]%merge_inv.
  { split; [done|]. split; [done|]. by eauto. }
  assert (exists moved rest,
            rglob_all t (folder_of merge) = moved ++ rest
            /\ move_items (folder_of keep) (folder_of merge) t moved
               = Finished t') as (moved & rest & E & HM).
  { destruct H as [(tl & HM & [[? _]|[_ ->]])|[_ HM]]; [done| |].
    - exists (rglob_all t (folder_of merge)), []. by rewrite app_nil_r.
    - by apply move_items_raised in HM. }
  assert (Hb : forall item, item ∈ moved -> below (folder_of merge) item = true).
  { apply (rglob_below t). by eauto. }
  split; [|split].
  - by eapply loop_count_all.
  - by eapply loop_dirs.
  - by eapply loop_content.
Qed.

(** The top-level directories after a merge were there before. *)
Lemma merge_top_dirs t (c1 c2 : CompanyMapping) (b : bool) t' (d : str) :
  _merge_company_folders t c1 c2 = Some (b, t') ->
  t' !! [d] = Some Dir -> t !! [d] = Some Dir.
Proof.
  intros [[_ ->]|(keep & merge & _ & HK & H)]%merge_inv; [done|].
  intros Hd.
  assert (exists moved rest tl,
            rglob_all t (folder_of merge) = moved ++ rest
            /\ move_items (folder_of keep) (folder_of merge) t moved
               = Finished tl
            /\ tl !! [d] = Some Dir) as (moved & rest & tl & E & HM & Hl).
  { destruct H as [(tl & HM & [[_ ->]|[_ ->]])|[_ HM]].
    - exists (rglob_all t (folder_of merge)), [], tl.
      rewrite app_nil_r. split; [done|]. split; [done|].
      by apply map_lookup_filter_Some in Hd as [Hd _].
    - exists (rglob_all t (folder_of merge)), [], tl.
      by rewrite app_nil_r.
    - apply move_items_raised in HM as (moved & rest & E & HM).
      by exists moved, rest, t'. }
  eapply loop_top; [|exact HM|exact HK|exact Hl].
  apply (rglob_below t). by eauto.
Qed.

(** After a successful merge every file of the merged folder is in the
    kept folder with its content, and nothing outside the two folders
    has changed. *)
Lemma merge_moves_all t t' (c1 c2 : CompanyMapping) :
  folder_name c1 <> folder_name c2 ->
  _merge_company_folders t c1 c2 = Some (true, t') ->
  let keep := fst (kept_and_merged t c1 c2) in
  let merge := snd (kept_and_merged t c1 c2) in
  (forall rel c, rel <> [] ->
     t !! (folder_name merge :: rel) = Some (File c) ->
     exists target, target_of (folder_name keep) rel target
                    /\ t' !! target = Some (File c))
  /\ (forall p n, ~ folder_of merge `prefix_of` p ->
        t !! p = Some n -> t' !! p = Some n)
  /\ (forall p, ~ folder_of keep `prefix_of` p ->
        ~ folder_of merge `prefix_of` p -> t' !! p = t !! p).
Proof.
  intros Hne H.
  pose proof (merge_outside_kept t t' c1 c2 Hne H) as Hout.
  destruct (merge_success t c1 c2 t' Hne H)
    as (keep & merge & tl & EK & Hd & HK & HM & HD & ->).
  rewrite EK in *. cbn [fst snd] in *.
  assert (Hb : forall item, item ∈ rglob_all t (folder_of merge) ->
                 below (folder_of merge) item = true).
  { intros item Hi. by apply rglob_all_elem in Hi as [Hi _]. }
  split; [|split; [exact Hout|]].
  - intros rel c Hrel Hc.
    destruct (loop_moved_any _ _ _ Hd t tl rel c Hb HM Hrel) as (target & Ht & Hl);
      [|done|].
    { apply rglob_all_elem. split; [|by eauto].
      apply below_M_cons. by eauto. }
    exists target. split; [done|].
    apply map_lookup_filter_Some. split; [done|]. cbn [fst].
    destruct (target_of_cons _ _ _ Hrel Ht) as [tl' ->].
    by apply not_under_M.
  - intros p HnK HnM.
    destruct (t !! p) as [n|] eqn:Ep.
    + by apply Hout.
    + destruct (filter _ tl !! p) as [n|] eqn:Ef; [|done]. exfalso.
      apply map_lookup_filter_Some in Ef as [Ef _].
      destruct (loop_new _ _ _ t tl Hb HM p n Ef) as [?|[tl' ->]]; [congruence|].
      apply HnK. unfold folder_of. by apply prefix_cons, prefix_nil.
Qed.

(** *** The loop over the candidates *)

Lemma merge_all_returns (dups : list (CompanyMapping * CompanyMapping * Q)) :
  forall t k, exists r, merge_all t dups k = Some r.
Proof.
  induction dups as [|[[c1 c2] s] dups IH]; intros t k; cbn [merge_all].
  - by eauto.
  - destruct (merge_company_folders_returns t c1 c2) as [[[] t'] ->];
      apply IH.
Qed.

Lemma merge_all_spec (dups : list (CompanyMapping * CompanyMapping * Q)) :
  forall t k k' t',
  merge_all t dups k = Some (k', t') ->
  k <= k'
  /\ (forall d, t' !! [d] = Some Dir -> t !! [d] = Some Dir)
  /\ (k' = k -> forall p, t !! p = Some Dir -> t' !! p = Some Dir).
Proof.
  induction dups as [|[[c1 c2] s] dups IH]; intros t k k' t'; cbn [merge_all].
  - intros [= <- <-]. by repeat split.
  - destruct (_merge_company_folders t c1 c2) as [[[] t1]|] eqn:E; [| |done].
    + intros (Hk & Htop & _)%IH. split; [lia|]. split; [|lia].
      intros d Hd. eapply merge_top_dirs; [exact E|]. by apply Htop.
    + intros (Hk & Htop & Hsame)%IH. split; [done|]. split.
      * intros d Hd. eapply merge_top_dirs; [exact E|]. by apply Htop.
      * intros Ek p Hp. apply Hsame; [done|].
        by apply (merge_failed_keeps t c1 c2 t1 E).
Qed.

(** *** The registry and the disk after [__init__] *)

Lemma dir_names_elem t (d : str) : d ∈ dir_names t <-> t !! [d] = Some Dir.
Proof.
  unfold dir_names. rewrite list_elem_of_omap. split.
  - intros ([p n] & Hin & E). apply elem_of_map_to_list in Hin.
    destruct p as [|x [|y p']]; [done| |done].
    destruct n; [done|]. by injection E as ->.
  - intros H. exists ([d], Dir). split; [|done].
    by apply elem_of_map_to_list.
Qed.

(** The output directory stays a directory through a merge. *)
Lemma merge_root t (c1 c2 : CompanyMapping) (b : bool) t' :
  _merge_company_folders t c1 c2 = Some (b, t') ->
  t !! [] = Some Dir -> t' !! [] = Some Dir.
Proof.
  intros [[_ ->]|(keep & merge & _ & _ & H)]%merge_inv Hroot; [done|].
  assert (exists moved rest tl,
            rglob_all t (folder_of merge) = moved ++ rest
            /\ move_items (folder_of keep) (folder_of merge) t moved
               = Finished tl
            /\ (t' = tl
                \/ t' = filter (fun e : path * node =>
                                  ~ folder_of merge `prefix_of` fst e) tl))
    as (moved & rest & tl & E & HM & Ht).
  { destruct H as [(tl & HM & [[_ ->]|[_ ->]])|[_ HM]].
    - exists (rglob_all t (folder_of merge)), [], tl.
      rewrite app_nil_r. by eauto.
    - exists (rglob_all t (folder_of merge)), [], tl.
      rewrite app_nil_r. by eauto.
    - apply move_items_raised in HM as (moved & rest & E & HM).
      exists moved, rest, t'. by eauto. }
  assert (Hl : tl !! [] = Some Dir).
  { eapply loop_dirs; [|exact HM|exact Hroot].
    apply (rglob_below t). by eauto. }
  destruct Ht as [->| ->]; [done|].
  apply map_lookup_filter_Some. split; [done|]. cbn.
  intros N. by apply prefix_nil_inv in N.
Qed.

Lemma merge_all_root (dups : list (CompanyMapping * CompanyMapping * Q)) :
  forall t k k' t',
  merge_all t dups k = Some (k', t') ->
  t !! [] = Some Dir -> t' !! [] = Some Dir.
Proof.
  induction dups as [|[[c1 c2] s] dups IH]; intros t k k' t'; cbn [merge_all].
  - by intros [= <- <-].
  - destruct (_merge_company_folders t c1 c2) as [[[] t1]|] eqn:E; [| |done];
      intros H Hroot; eapply IH; try exact H; by eapply merge_root.
Qed.

(** *** The scan *)

(** The scan raises exactly when the output directory is a file. *)
Lemma scan_raises (st : normalizer) t :
  scan_existing_companies st t = None <-> is_file t [] = true.
Proof.
  unfold scan_existing_companies, exists_, is_dir, is_file.
  by destruct (t !! []) as [[c|]|].
Qed.

Lemma scan_inv (st st' : normalizer) t :
  scan_existing_companies st t = Some st' ->
  (t !! [] = Some Dir /\ st' = scan_names st (dir_names t))
  \/ (t !! [] = None /\ st' = st).
Proof.
  unfold scan_existing_companies, exists_, is_dir.
  destruct (t !! []) as [[c|]|]; [done| |]; intros [= <-]; by eauto.
Qed.

(** The folder of every company a scan registers is a directory of the
    output directory. *)
Lemma scan_folders_exist (threshold : Q) t (st : normalizer) :
  t !! [[]] <> Some Dir ->
  scan_existing_companies (empty_normalizer threshold) t = Some st ->
  forall k m, (k, m) ∈ company_mappings st ->
    t !! [folder_name m] = Some Dir.
Proof.
  intros Hroot [[_ ->]|[_ ->]]%scan_inv k m.
  2:{ intros H. by apply elem_of_nil in H. }
  intros [H|(d & Hd & _ & _ & ->)]%RegistryMore.scan_names_mappings.
  { by apply elem_of_nil in H. }
  apply dir_names_elem in Hd. cbn.
  destruct d as [|a d']; [done|]. done.
Qed.

(** *** The registry and the disk after [__init__] *)

Lemma init_raises (threshold : Q) (auto : bool) t :
  is_file t [] = true -> init threshold auto t = None.
Proof.
  intros H. unfold init.
  by rewrite (proj2 (scan_raises (empty_normalizer threshold) t) H).
Qed.

Lemma init_returns (threshold : Q) (auto : bool) t :
  is_file t [] = false -> exists st t', init threshold auto t = Some (st, t').
Proof.
  intros Hf. unfold init.
  destruct (scan_existing_companies (empty_normalizer threshold) t)
    as [st|] eqn:Es.
  2:{ apply scan_raises in Es. congruence. }
  destruct auto; [|by eauto].
  unfold _auto_merge_duplicates.
  destruct (exists_ t []) eqn:Ex; cbn [negb]; [|by eauto].
  destruct (find_duplicates _) as [|dup dups]; [by eauto|].
  destruct (merge_all_returns (dup :: dups) t 0) as [[k t'] E]. rewrite E.
  destruct (Nat.ltb 0 k); [|by eauto].
  assert (Hroot : t !! [] = Some Dir).
  { apply scan_inv in Es as [[H _]|[H _]]; [done|].
    apply exists_true in Ex as [n Hn]. congruence. }
  pose proof (merge_all_root _ _ _ _ _ E Hroot) as Hroot'.
  unfold scan_existing_companies, exists_, is_dir. rewrite Hroot'. by eauto.
Qed.

Lemma init_folders_exist (threshold : Q) (auto : bool) t st t' :
  t !! [[]] <> Some Dir ->
  init threshold auto t = Some (st, t') ->
  forall k m, (k, m) ∈ company_mappings st ->
    t' !! [folder_name m] = Some Dir.
Proof.
  intros Hroot. unfold init.
  destruct (scan_existing_companies (empty_normalizer threshold) t)
    as [st0|] eqn:Es; [|done].
  pose proof (scan_folders_exist threshold t st0 Hroot Es) as H0.
  destruct auto.
  2:{ by intros [= <- <-]. }
  unfold _auto_merge_duplicates. destruct (negb (exists_ t [])).
  { by intros [= <- <-]. }
  destruct (find_duplicates _) as [|dup dups].
  { by intros [= <- <-]. }
  destruct (merge_all t (dup :: dups) 0) as [[k' tm]|] eqn:E; [|done].
  apply merge_all_spec in E as (_ & Htop & Hsame).
  destruct (Nat.ltb_spec 0 k').
  - destruct (scan_existing_companies _ tm) as [st1|] eqn:Es1; [|done].
    intros [= <- <-]. eapply scan_folders_exist; [|exact Es1].
    intros N. by apply Htop in N.
  - intros [= <- <-] k m Hin. apply Hsame; [lia|]. by eapply H0.
Qed.

End MergeMore.

(** ** FileOrganizer *)

Module OrganizerFacts.
Import PyStr Canon Registry RegistryInv FS Merger Organizer Report.
Import StrFacts CanonFacts CaseFacts FSFacts NameFacts StripFacts.

Implicit Types (t : tree) (p q : path) (n : node).

(** *** File names *)

Lemma In_take {A : Type} (x : A) (k : nat) (l : list A) :
  In x (take k l) -> In x l.
Proof.
  intros H%list_elem_of_In. apply list_elem_of_In.
  apply elem_of_take in H as (i & Hi & _). by eapply list_elem_of_lookup_2.
Qed.

(** The characters left after the replacements and the trimming. *)
Lemma cleaned_chars (s : str) (c : ascii) :
  In c (strip (strip_underscores
                 (sub_space_runs "_" (sub_class invalid_char "_" s)))) ->
  invalid_char c = false /\ isspace c = false.
Proof.
  intros H. apply strip_by_In, strip_by_In in H. split.
  - apply sub_runs_from_In in H as [->|H]; [done|].
    by apply sub_class_In in H as [->|[_ H]].
  - by apply (sub_runs_from_no_space false "_" _ c) in H.
Qed.

Lemma document_chars (c : ascii) :
  In c ("document" : str) -> invalid_char c = false /\ isspace c = false.
Proof.
  intros H. repeat (destruct H as [<-|H]; [by vm_compute|]). done.
Qed.

Lemma dot_pdf_chars (c : ascii) :
  In c (".pdf" : str) -> invalid_char c = false /\ isspace c = false.
Proof.
  intros H. repeat (destruct H as [<-|H]; [by vm_compute|]). done.
Qed.

Lemma sanitize_filename_chars (filename : str) :
  _sanitize_filename filename <> []
  /\ length (_sanitize_filename filename) <= 200
  /\ forall c, In c (_sanitize_filename filename) ->
       invalid_char c = false /\ isspace c = false.
Proof.
  unfold _sanitize_filename. destruct (truthy filename); cbn [negb].
  2:{ split; [done|]. split; [cbn; lia | apply document_chars]. }
  set (f := if endswith filename _ then _ else filename).
  set (u := strip (strip_underscores
                     (sub_space_runs "_" (sub_class invalid_char "_" f)))).
  set (r := if truthy u then u else "document" : str).
  assert (Hr : r <> [] /\ forall c, In c r ->
                 invalid_char c = false /\ isspace c = false).
  { unfold r. destruct (truthy u) eqn:E.
    - split; [by apply truthy_true | apply cleaned_chars].
    - split; [done | apply document_chars]. }
  destruct Hr as [Hne Hc].
  destruct (Nat.ltb_spec 200 (length r)) as [Hlen|Hlen].
  - split; [|split].
    + intros E. apply (f_equal (@length ascii)) in E.
      rewrite length_take in E. cbn [length] in E. lia.
    + rewrite length_take. lia.
    + intros c Hin. apply Hc. by apply In_take in Hin.
  - split; [done|]. split; [lia | exact Hc].
Qed.

Lemma generate_filename_chars (pattern : str) (doc_info : name_info)
    (use_suggested : bool) :
  let filename := _generate_filename pattern doc_info use_suggested in
  endswith filename (".pdf" : str) = true
  /\ length filename <= 204
  /\ forall c, In c filename -> invalid_char c = false /\ isspace c = false.
Proof.
  unfold _generate_filename.
  match goal with
  | |- context [if negb (endswith ?x _) then _ else _] => set (r := x)
  end.
  assert (Hr : r <> [] /\ length r <= 200
               /\ forall c, In c r ->
                    invalid_char c = false /\ isspace c = false).
  { unfold r. destruct (_ && _); apply sanitize_filename_chars. }
  clearbody r. destruct Hr as (Hne & Hlen & Hc). cbn zeta.
  destruct (endswith r _) eqn:E; cbn [negb].
  - split; [done|]. split; [lia|done].
  - split; [|split].
    + apply bool_decide_eq_true. by apply suffix_app_r.
    + rewrite length_app. cbn [length list_ascii_of_string]. lia.
    + intros c [H|H]%in_app_or; [by apply Hc | by apply dot_pdf_chars].
Qed.

(** *** Month folders *)

Lemma format_month_folder_bound (month : Z) :
  is_Some (_format_month_folder month) <-> (-13 <= month <= 12)%Z.
Proof.
  unfold _format_month_folder.
  destruct (Z.leb_spec (-13) month); destruct (Z.leb_spec month 12);
    cbn [andb]; split; try lia; try (intros [? ?]; done); by eauto.
Qed.

Lemma month_folders_ordered (a b : Z) :
  (0 <= a)%Z -> (a < b)%Z -> (b <= 12)%Z ->
  exists fa fb,
    _format_month_folder a = Some fa /\ _format_month_folder b = Some fb
    /\ str_ltb fa fb = true.
Proof.
  intros Ha Hlt Hb.
  assert (H : forallb
                (fun a =>
                   forallb
                     (fun b =>
                        if Nat.ltb a b then
                          match _format_month_folder (Z.of_nat a),
                                _format_month_folder (Z.of_nat b)
                          with
                          | Some fa, Some fb => str_ltb fa fb
                          | _, _ => false
                          end
                        else true)
                     (seq 0 13))
                (seq 0 13) = true) by by vm_compute.
  rewrite forallb_forall in H.
  specialize (H (Z.to_nat a) ltac:(apply in_seq; lia)). cbn beta in H.
  rewrite forallb_forall in H.
  specialize (H (Z.to_nat b) ltac:(apply in_seq; lia)). cbn beta in H.
  rewrite !Z2Nat.id in H by lia.
  destruct (Nat.ltb_spec (Z.to_nat a) (Z.to_nat b)); [|lia].
  destruct (_format_month_folder a) as [fa|]; [|done].
  destruct (_format_month_folder b) as [fb|]; [|done].
  by exists fa, fb.
Qed.

(** *** A free name for a file *)

Lemma unique_from_spec (fuel : nat) t (dir : path) (base ext : str) :
  forall counter p,
  unique_from fuel t dir base ext counter = Some p ->
  t !! p = None
  /\ exists k, counter <= k /\ p = dir ++ [numbered base k ext]
       /\ forall j, counter <= j < k ->
            is_Some (t !! (dir ++ [numbered base j ext])).
Proof.
  induction fuel as [|fuel IH]; intros counter p; cbn [unique_from]; [done|].
  destruct (exists_ t _) eqn:E; cbn [negb].
  - apply exists_true in E. intros (Hfree & k & Hk & -> & Hall)%IH.
    split; [done|]. exists k. split; [lia|]. split; [done|].
    intros j Hj. destruct (decide (j = counter)) as [->|Hne]; [done|].
    apply Hall. lia.
  - apply exists_false in E. intros [= <-]. split; [done|].
    exists counter. split; [done|]. split; [done|]. intros j Hj. lia.
Qed.

Lemma unique_from_None (fuel : nat) t (dir : path) (base ext : str) :
  forall counter,
  unique_from fuel t dir base ext counter = None ->
  forall j, counter <= j < counter + fuel ->
    is_Some (t !! (dir ++ [numbered base j ext])).
Proof.
  induction fuel as [|fuel IH]; intros counter; cbn [unique_from].
  - intros _ j Hj. lia.
  - destruct (exists_ t _) eqn:E; cbn [negb]; [|done].
    apply exists_true in E. intros H j Hj.
    destruct (decide (j = counter)) as [->|Hne]; [done|].
    apply (IH _ H). lia.
Qed.

Lemma ensure_unique_path_spec t p :
  exists q,
    _ensure_unique_path t p = Some q
    /\ t !! q = None
    /\ (t !! p = None -> q = p)
    /\ (is_Some (t !! p) ->
        exists k, 1 <= k
          /\ q = parent p ++ [numbered (stem (name p)) k (suffix (name p))]
          /\ forall j, 1 <= j < k ->
               is_Some (t !! (parent p
                              ++ [numbered (stem (name p)) j
                                    (suffix (name p))]))).
Proof.
  unfold _ensure_unique_path. destruct (exists_ t p) eqn:E; cbn [negb].
  - apply exists_true in E.
    destruct (unique_from _ _ _ _ _ _) as [q|] eqn:U.
    + exists q. apply unique_from_spec in U as (Hfree & k & Hk & -> & Hall).
      split; [done|]. split; [done|]. split.
      * intros N. rewrite N in E. by destruct E.
      * intros _. by exists k.
    + exfalso. pose proof (unique_from_None _ _ _ _ _ _ U) as H.
      set (dir := parent p) in *.
      set (st := stem (name p)) in *. set (su := suffix (name p)) in *.
      set (l := map (fun j => dir ++ [numbered st j su]) (seq 1 (S (size t)))).
      assert (ND : NoDup l).
      { apply NoDup_fmap_2_strong; [|apply NoDup_seq].
        intros j k _ _ Hjk. apply app_inv_head in Hjk.
        injection Hjk as Hjk. by apply numbered_inj in Hjk. }
      assert (Hl : forall x, x ∈ l -> is_Some (t !! x)).
      { intros x Hx. apply list_elem_of_fmap in Hx as (j & -> & Hj).
        apply elem_of_seq in Hj. apply H. lia. }
      pose proof (existing_paths_bound t l ND Hl) as B.
      unfold l in B. rewrite length_map, length_seq in B. lia.
  - apply exists_false in E. exists p. split; [done|]. split; [done|].
    split; [done|]. intros [? N]. by rewrite E in N.
Qed.

(** *** Empty directories *)

Lemma has_entries_false t (d : path) :
  has_entries t d = false ->
  forall q, q <> [] -> parent q = d -> t !! q = None.
Proof.
  unfold has_entries. intros H q Hq Hp.
  destruct (t !! q) as [n|] eqn:E; [|done].
  assert (existsb (fun p => bool_decide (p <> [] /\ parent p = d))
            (map fst (map_to_list t)) = true); [|congruence].
  apply existsb_exists. exists q. split.
  - apply in_map_iff. exists (q, n). split; [done|].
    apply list_elem_of_In. by apply elem_of_map_to_list.
  - by apply bool_decide_eq_true.
Qed.

Lemma parent_prefix (d : path) : parent d `prefix_of` d.
Proof.
  unfold parent. destruct (decide (d = [])) as [->|Hne]; [done|].
  exists [List.last d []]. by apply app_removelast_last.
Qed.

Lemma cleanup_from_spec (k : nat) : forall t (d : path) p,
  cleanup_from k t d !! p = t !! p
  \/ (cleanup_from k t d !! p = None
      /\ t !! p = Some Dir /\ p <> [] /\ p `prefix_of` d
      /\ forall q, q <> [] -> parent q = p -> cleanup_from k t d !! q = None).
Proof.
  induction k as [|k IH]; intros t d p; cbn [cleanup_from]; [by left|].
  destruct (bool_decide (d = [])) eqn:Ed; [by left|].
  apply bool_decide_eq_false in Ed.
  destruct (exists_ t d); [|by left].
  destruct (is_dir t d) eqn:Edir; [|by left].
  apply is_dir_true in Edir.
  destruct (has_entries t d) eqn:Ee; [by left|].
  pose proof (has_entries_false t d Ee) as Hempty.
  set (t1 := delete d t).
  assert (Hsub : forall q, q <> d -> t1 !! q = t !! q).
  { intros q Hq. unfold t1. by rewrite lookup_delete_ne. }
  assert (Hd1 : t1 !! d = None) by apply lookup_delete_eq.
  assert (Hres : forall t',
            (forall x, t' !! x = t1 !! x
               \/ (t' !! x = None /\ t1 !! x = Some Dir /\ x <> []
                   /\ x `prefix_of` parent d
                   /\ forall q, q <> [] -> parent q = x -> t' !! q = None)) ->
            t' !! p = t !! p
            \/ (t' !! p = None /\ t !! p = Some Dir /\ p <> []
                /\ p `prefix_of` d
                /\ forall q, q <> [] -> parent q = p -> t' !! q = None)).
  { intros t' H. destruct (decide (p = d)) as [->|Hne].
    - right.
      assert (Hn : t' !! d = None).
      { destruct (H d) as [E|(E & _)]; [by rewrite E | done]. }
      split; [done|]. split; [done|]. split; [done|]. split; [done|].
      intros q Hq Hp.
      assert (Hq1 : t1 !! q = None).
      { destruct (decide (q = d)) as [->|Hqd]; [done|].
        rewrite Hsub by done. by apply Hempty. }
      destruct (H q) as [E|(E & _)]; [by rewrite E | done].
    - destruct (H p) as [E|(E & Hp1 & Hp2 & Hp3 & Hp4)].
      + left. by rewrite E, Hsub.
      + right. split; [done|]. split; [by rewrite <- Hsub|].
        split; [done|]. split; [|done].
        etrans; [exact Hp3 | apply parent_prefix]. }
  destruct (bool_decide (parent d <> [])).
  - apply Hres. intros x. apply IH.
  - apply Hres. intros x. by left.
Qed.

Lemma cleanup_from_enough (k : nat) : forall t (d : path),
  length d <= k -> cleanup_from k t d = cleanup_from (length d) t d.
Proof.
  induction k as [|k IH]; intros t d Hk.
  - destruct d; [done | cbn in Hk; lia].
  - destruct d as [|x d'] eqn:Ed; [done|]. rewrite <- Ed in *.
    assert (El : length d = S (length (parent d))).
    { unfold parent. rewrite (app_removelast_last []) at 1 by by rewrite Ed.
      rewrite length_app. cbn. lia. }
    rewrite El. cbn [cleanup_from].
    destruct (bool_decide (d = [])); [done|].
    destruct (exists_ t d); [|done]. destruct (is_dir t d); [|done].
    destruct (has_entries t d); [done|].
    destruct (bool_decide (parent d <> [])); [|done].
    apply IH. lia.
Qed.

End OrganizerFacts.

(** ** Statistics and listing *)

Module ReportFacts.
Import PyStr Canon Scorer Registry RegistrySpec RegistryInv Report.
Import DictFacts RegistryFacts NormalizeFacts RegistryMore.

(** *** The order of strings *)

Lemma code_inj (x y : ascii) : code x = code y -> x = y.
Proof.
  unfold code. intros H.
  by rewrite <- (ascii_nat_embedding x), <- (ascii_nat_embedding y), H.
Qed.

Lemma str_ltb_irrefl (a : str) : str_ltb a a = false.
Proof.
  induction a as [|x a IH]; [done|]. cbn [str_ltb].
  by rewrite Nat.ltb_irrefl.
Qed.

Lemma str_ltb_asym (a : str) : forall b,
  str_ltb a b = true -> str_ltb b a = false.
Proof.
  induction a as [|x a IH]; intros [|y b]; cbn [str_ltb]; try done.
  destruct (Nat.ltb_spec (code x) (code y)), (Nat.ltb_spec (code y) (code x));
    try done; try lia. apply IH.
Qed.

Lemma str_ltb_trans (a : str) : forall b c,
  str_ltb a b = true -> str_ltb b c = true -> str_ltb a c = true.
Proof.
  induction a as [|x a IH]; intros [|y b] [|z c]; cbn [str_ltb]; try done.
  destruct (Nat.ltb_spec (code x) (code y)), (Nat.ltb_spec (code y) (code x)),
    (Nat.ltb_spec (code y) (code z)), (Nat.ltb_spec (code z) (code y)),
    (Nat.ltb_spec (code x) (code z)), (Nat.ltb_spec (code z) (code x));
    try done; try lia. apply IH.
Qed.

Lemma str_ltb_total (a : str) : forall b,
  str_ltb a b = false -> str_ltb b a = false -> a = b.
Proof.
  induction a as [|x a IH]; intros [|y b]; cbn [str_ltb]; try done.
  destruct (Nat.ltb_spec (code x) (code y)), (Nat.ltb_spec (code y) (code x));
    try done. intros H1 H2.
  assert (x = y) as -> by (apply code_inj; lia).
  f_equal. by apply IH.
Qed.

(** [a <= b] and [b <= c] give [a <= c]. *)
Lemma str_leb_trans (a b c : str) :
  str_ltb b a = false -> str_ltb c b = false -> str_ltb c a = false.
Proof.
  intros H1 H2. destruct (str_ltb c a) eqn:E; [|done]. exfalso.
  destruct (str_ltb a b) eqn:Eab.
  - by rewrite (str_ltb_trans c a b E Eab) in H2.
  - assert (a = b) as -> by by apply str_ltb_total. congruence.
Qed.

(** *** The sort *)

Lemma insert_by_name_perm (x : CompanyMapping) (l : list CompanyMapping) :
  insert_by_name x l ≡ₚ x :: l.
Proof.
  induction l as [|y r IH]; [done|]. cbn [insert_by_name].
  destruct (str_ltb _ _); [|done]. rewrite IH. apply Permutation_swap.
Qed.

Lemma sorted_by_name_perm (l : list CompanyMapping) : sorted_by_name l ≡ₚ l.
Proof.
  induction l as [|x l IH]; [done|]. cbn [sorted_by_name fold_right].
  rewrite insert_by_name_perm. by f_equiv.
Qed.

Lemma insert_by_name_sorted (x : CompanyMapping) (l : list CompanyMapping) :
  StronglySorted
    (fun a b => str_ltb (canonical_name b) (canonical_name a) = false) l ->
  StronglySorted
    (fun a b => str_ltb (canonical_name b) (canonical_name a) = false)
    (insert_by_name x l).
Proof.
  induction l as [|y r IH]; intros H; cbn [insert_by_name].
  - repeat constructor.
  - apply StronglySorted_inv in H as [Hr Hy].
    destruct (str_ltb (canonical_name y) (canonical_name x)) eqn:E.
    + constructor; [by apply IH|].
      rewrite insert_by_name_perm. constructor; [|done].
      by apply str_ltb_asym.
    + constructor; [by constructor|]. constructor; [done|].
      eapply Forall_impl; [exact Hy|]. intros z Hz. cbn beta in Hz.
      by apply (str_leb_trans _ (canonical_name y)).
Qed.

Lemma sorted_by_name_sorted (l : list CompanyMapping) :
  StronglySorted
    (fun a b => str_ltb (canonical_name b) (canonical_name a) = false)
    (sorted_by_name l).
Proof.
  induction l as [|x l IH]; [constructor|].
  cbn [sorted_by_name fold_right]. by apply insert_by_name_sorted.
Qed.

(** Sorted and without two equal names: strictly increasing. *)
Lemma sorted_strict (l : list CompanyMapping) :
  NoDup (map canonical_name l) ->
  StronglySorted
    (fun a b => str_ltb (canonical_name b) (canonical_name a) = false) l ->
  StronglySorted
    (fun a b => str_ltb (canonical_name a) (canonical_name b) = true) l.
Proof.
  induction l as [|x l IH]; intros ND H; [constructor|].
  apply StronglySorted_inv in H as [Hl Hx].
  cbn [map] in ND. apply NoDup_cons in ND as [Hnot ND].
  constructor; [by apply IH|].
  apply Forall_forall. intros y Hy.
  rewrite Forall_forall in Hx. specialize (Hx y Hy). cbn beta in Hx.
  destruct (str_ltb (canonical_name x) (canonical_name y)) eqn:E; [done|].
  exfalso. apply Hnot. rewrite (str_ltb_total _ _ E Hx).
  by apply list_elem_of_fmap_2.
Qed.

(** No two companies of a registry have the same canonical name. *)
Lemma canonical_names_NoDup (st : normalizer) :
  wf st -> NoDup (map canonical_name (map snd (company_mappings st))).
Proof.
  intros (ND & Hk & _).
  assert (E : map fst (company_mappings st)
              = map lower (map canonical_name (map snd (company_mappings st)))).
  { rewrite !map_map. apply map_ext_in. intros [k m] Hin%list_elem_of_In.
    by apply Hk. }
  rewrite E in ND. by apply (NoDup_fmap_1 lower) in ND.
Qed.

(** *** The statistics *)

Lemma variations_count (l : list (str * CompanyMapping)) :
  (forall k m, (k, m) ∈ l -> mapping_ok m) ->
  length l
  <= list_sum (map (fun e : str * CompanyMapping => length (variations (snd e)))
                   l).
Proof.
  induction l as [|[k m] l IH]; intros H; [done|].
  change (S (length l)
          <= length (variations m)
             + list_sum (map (fun e : str * CompanyMapping =>
                                length (variations (snd e))) l)).
  assert (1 <= length (variations m)).
  { destruct (H k m) as (Hc & _); [by left|].
    destruct (variations m) as [|v vs]; [by apply elem_of_nil in Hc|].
    cbn [length]. lia. }
  assert (length l
          <= list_sum (map (fun e : str * CompanyMapping =>
                              length (variations (snd e))) l)); [|lia].
  apply IH. intros k' m' Hin. apply (H k'). by right.
Qed.

Lemma average_at_least_one (a b : nat) :
  1 <= b -> b <= a -> (1 <= Binary64.int_div a b)%Q.
Proof. intros Hb Hab. apply Binary64Facts.int_div_ge_1. lia. Qed.

End ReportFacts.

(** ** A name compared with itself *)

Module SelfMatch.
Import PyStr Canon Difflib Scorer DifflibFacts ScorerFacts.

(** *** The index of the second string *)

Lemma indices_from_bounds (s : str) (c : ascii) : forall j0 j,
  In j (indices_from j0 s c) -> j0 <= j < j0 + length s.
Proof.
  induction s as [|x r IH]; intros j0 j; cbn [indices_from length]; [done|].
  destruct (char_eqb x c).
  - intros [<-|H]; [lia|]. apply IH in H. lia.
  - intros H. apply IH in H. lia.
Qed.

Lemma indices_from_sorted (s : str) (c : ascii) : forall j0,
  StronglySorted lt (indices_from j0 s c).
Proof.
  induction s as [|x r IH]; intros j0; cbn [indices_from]; [constructor|].
  destruct (char_eqb x c); [|apply IH].
  constructor; [apply IH|]. apply Forall_forall.
  intros j Hj%list_elem_of_In. apply indices_from_bounds in Hj. lia.
Qed.

Lemma indices_from_self (s : str) : forall j0 i,
  i < length s -> In (j0 + i) (indices_from j0 s (char_at s i)).
Proof.
  induction s as [|x r IH]; intros j0 i Hi; cbn [length] in Hi; [lia|].
  cbn [indices_from]. destruct i as [|i'].
  - unfold char_at. cbn [nth]. unfold char_eqb.
    rewrite bool_decide_eq_true_2 by done. left. lia.
  - change (char_at (x :: r) (S i')) with (char_at r i').
    replace (j0 + S i') with (S j0 + i') by lia.
    destruct (char_eqb x (char_at r i')); [right|]; apply IH; lia.
Qed.

(** *** One row of the search *)

Section Row.
Variables (n i : nat) (d : gmap nat nat).
Hypothesis d_bound : forall j k, d !! j = Some k -> k <= i /\ k <= j + 1.
Hypothesis d_diag : 1 <= i -> d !! (i - 1) = Some i.

Lemma prev_bound (j : nat) : j2len_prev d j <= i /\ j2len_prev d j <= j.
Proof.
  destruct j as [|j']; cbn [j2len_prev]; [lia|].
  destruct (d !! j') as [k|] eqn:E; simpl; [|lia].
  destruct (d_bound _ _ E). lia.
Qed.

Lemma prev_diag : j2len_prev d i = i.
Proof.
  destruct i as [|i']; [done|]. cbn [j2len_prev].
  assert (H : d !! (S i' - 1) = Some (S i')) by (apply d_diag; lia).
  replace (S i' - 1) with i' in H by lia. by rewrite H.
Qed.

(** After the diagonal entry: nothing longer is found in this row. *)
Lemma scan_row_after (js : list nat) : forall new,
  (forall j, In j js -> i < j < n) ->
  (forall j k, new !! j = Some k -> k <= S i /\ k <= j + 1) ->
  new !! i = Some (S i) ->
  snd (scan_row i 0 n d js new (0, 0, S i)) = (0, 0, S i)
  /\ fst (scan_row i 0 n d js new (0, 0, S i)) !! i = Some (S i)
  /\ forall j k, fst (scan_row i 0 n d js new (0, 0, S i)) !! j = Some k ->
       k <= S i /\ k <= j + 1.
Proof.
  induction js as [|j js IH]; intros new Hjs Hnew Hi; cbn [scan_row]; [done|].
  destruct (Hjs j ltac:(by left)) as [Hj1 Hj2].
  destruct (Nat.ltb_spec j 0); [lia|]. destruct (Nat.leb_spec n j); [lia|].
  destruct (prev_bound j) as [P1 P2]. cbn [snd].
  destruct (Nat.ltb_spec (S i) (j2len_prev d j + 1)); [lia|].
  apply IH.
  - intros j' Hj'. apply Hjs. by right.
  - intros j' k'. rewrite lookup_insert. case_decide; [|by apply Hnew].
    intros [= <-]. subst j'. lia.
  - rewrite lookup_insert_ne by lia. done.
Qed.

(** Up to the diagonal entry: the best match stays the one found in
    the rows above, and the diagonal entry makes it one longer. *)
Lemma scan_row_before (js : list nat) : forall new,
  StronglySorted lt js -> (forall j, In j js -> j < n) -> In i js ->
  (forall j k, new !! j = Some k -> k <= S i /\ k <= j + 1) ->
  snd (scan_row i 0 n d js new (0, 0, i)) = (0, 0, S i)
  /\ fst (scan_row i 0 n d js new (0, 0, i)) !! i = Some (S i)
  /\ forall j k, fst (scan_row i 0 n d js new (0, 0, i)) !! j = Some k ->
       k <= S i /\ k <= j + 1.
Proof.
  induction js as [|j js IH]; intros new Hs Hjs Hin Hnew; [done|].
  apply StronglySorted_inv in Hs as [Hs Hlt].
  rewrite Forall_forall in Hlt.
  cbn [scan_row].
  pose proof (Hjs j ltac:(by left)) as Hj.
  destruct (Nat.ltb_spec j 0); [lia|]. destruct (Nat.leb_spec n j); [lia|].
  cbn [snd]. destruct (decide (j = i)) as [->|Hne].
  - rewrite prev_diag.
    destruct (Nat.ltb_spec i (i + 1)); [|lia].
    replace (i + 1 - (i + 1)) with 0 by lia.
    replace (i + 1) with (S i) by lia.
    apply scan_row_after.
    + intros j' Hj'. split; [|apply Hjs; by right].
      apply Hlt. by apply list_elem_of_In.
    + intros j' k'. rewrite lookup_insert. case_decide; [|by apply Hnew].
      intros [= <-]. subst j'. lia.
    + apply lookup_insert_eq.
  - destruct Hin as [E|Hin]; [done|].
    assert (j < i) by (apply Hlt; by apply list_elem_of_In).
    destruct (prev_bound j) as [P1 P2].
    destruct (Nat.ltb_spec i (j2len_prev d j + 1)); [lia|].
    apply IH; [done| |done|].
    + intros j' Hj'. apply Hjs. by right.
    + intros j' k'. rewrite lookup_insert. case_decide; [|by apply Hnew].
      intros [= <-]. subst j'. lia.
Qed.

End Row.

(** *** All the rows *)

Section Self.
Variable s : str.
Hypothesis short : length s < 200.

Lemma b2j_short (c : ascii) : b2j s c = indices_from 0 s c.
Proof.
  unfold b2j, popular. destruct (Nat.leb_spec 200 (length s)); [lia|done].
Qed.

Lemma scan_rows_self (m : nat) : forall i st,
  i + m <= length s ->
  snd st = (0, 0, i) ->
  (forall j k, fst st !! j = Some k -> k <= i /\ k <= j + 1) ->
  (1 <= i -> fst st !! (i - 1) = Some i) ->
  snd (fold_left
         (fun (st : gmap nat nat * (nat * nat * nat)) (i : nat) =>
            scan_row i 0 (length s) (fst st) (b2j s (char_at s i)) ∅ (snd st))
         (seq i m) st)
  = (0, 0, i + m).
Proof.
  induction m as [|m IH]; intros i st Hi Hb Hd1 Hd2; cbn [seq fold_left].
  - by rewrite Nat.add_0_r.
  - replace (i + S m) with (S i + m) by lia.
    rewrite Hb, b2j_short.
    destruct (scan_row_before (length s) i (fst st) Hd1 Hd2
                (indices_from 0 s (char_at s i)) ∅) as (R1 & R2 & R3).
    + apply indices_from_sorted.
    + intros j Hj. apply indices_from_bounds in Hj. lia.
    + apply (indices_from_self s 0 i). lia.
    + intros j k. by rewrite lookup_empty.
    + apply IH; [lia|done|done|].
      intros _. by replace (S i - 1) with i by lia.
Qed.

Lemma find_longest_match_self :
  find_longest_match s s 0 (length s) 0 (length s) = (0, 0, length s).
Proof.
  unfold find_longest_match, scan_rows.
  rewrite Nat.sub_0_r.
  rewrite (scan_rows_self (length s) 0 (∅, (0, 0, 0))); cbn [fst snd].
  - cbn [extend_left Nat.add]. by rewrite Nat.sub_diag.
  - lia.
  - done.
  - intros j k. by rewrite lookup_empty.
  - lia.
Qed.

Lemma matches_self : matches s s = length s.
Proof.
  unfold matches. cbn [matched]. rewrite find_longest_match_self.
  destruct (Nat.eqb_spec (length s) 0) as [E|E]; [by rewrite E|].
  rewrite Nat.ltb_irrefl. cbn [andb Nat.add]. rewrite Nat.ltb_irrefl.
  cbn [andb]. lia.
Qed.

Lemma ratio_self : (ratio s s == 1)%Q.
Proof.
  unfold ratio. rewrite matches_self.
  destruct (length s + length s) as [|m] eqn:E; [done|].
  rewrite Binary64Facts.mul_2_of_nat.
  replace (2 * length s) with (S m) by lia.
  apply Binary64Facts.div_self.
  apply Qlt_le_trans with 1%Q; [reflexivity|].
  apply Binary64Facts.of_nat_ge_1. lia.
Qed.

Lemma word_overlap_self (w : str) (ws : list str) :
  NoDup (w :: ws) ->
  (Binary64.int_div (length (list_intersection (w :: ws) (w :: ws)))
                    (length (list_union (w :: ws) (w :: ws))) == 1)%Q.
Proof.
  intros ND.
  assert (length (list_intersection (w :: ws) (w :: ws)) = length (w :: ws))
    as ->.
  { rewrite <- !(size_list_to_set (C := gset str)); [|done|].
    - f_equal. apply set_eq. intros x.
      rewrite !elem_of_list_to_set, list_elem_of_intersection. tauto.
    - by apply NoDup_list_intersection. }
  assert (length (list_union (w :: ws) (w :: ws)) = length (w :: ws)) as ->.
  { rewrite <- !(size_list_to_set (C := gset str)); [|done|].
    - f_equal. apply set_eq. intros x.
      rewrite !elem_of_list_to_set, list_elem_of_union. tauto.
    - by apply NoDup_list_union. }
  apply Binary64Facts.int_div_self. cbn [length]. lia.
Qed.

(** A name that is not empty has the score one against itself: the
    weighted sum with the bonus is the double next below 1.1. *)
Lemma calculate_similarity_self :
  s <> [] -> (_calculate_similarity s s == 1)%Q.
Proof.
  intros Hs. unfold _calculate_similarity.
  apply StrFacts.truthy_true in Hs. rewrite Hs. cbn [negb orb].
  destruct (word_set s) as [|w ws] eqn:E; [apply ratio_self|].
  assert (ND : NoDup (w :: ws)).
  { rewrite <- E. unfold word_set. apply NoDup_remove_dups. }
  pose proof (word_overlap_self w ws ND) as Ho.
  set (o := Binary64.int_div _ _) in *.
  assert (Qltb (Binary64.literal 0.8) o = true) as ->.
  { apply Qltb_lt. rewrite Ho. by vm_compute. }
  set (score := Binary64.add _ _).
  assert (Hscore : (1 <= score)%Q).
  { unfold score. rewrite Ho, ratio_self. by vm_compute. }
  apply Qltb_ge in Hscore. by rewrite Hscore.
Qed.

End Self.

End SelfMatch.

(** ** Further properties of the normalizer and of the organizer *)

Module Extras.
Import PyStr Canon Difflib Scorer Registry RegistrySpec RegistryInv Report.
Import FS Merger Organizer Examples MoreExamples.
Import StrFacts CanonFacts CaseFacts DictFacts ScorerFacts RegistryFacts.
Import NormalizeFacts FuzzyFacts FSFacts NameFacts MergeFacts MergerFacts.
Import CharFacts StripFacts SanitizeFacts NormalizeNameFacts RegistryMore.
Import MergeMore OrganizerFacts ReportFacts SelfMatch.

Implicit Types (t : tree) (p q : path) (n : node).

(** *** Helpers for the examples *)

Lemma reachable_empty (threshold : Q) : reachable (empty_normalizer threshold).
Proof. apply (reach_scan threshold []). Qed.

Lemma reachable_chase : reachable chase.
Proof.
  apply (reach_normalize fresh ("Chase Bank" : str) ("Chase Bank" : str));
    [apply reachable_empty|]. by vm_compute.
Qed.

Lemma ascii_built_fresh : ascii_built fresh.
Proof.
  exists default_threshold, [], []. split; [|split; [|done]];
    intros y Hy; by apply elem_of_nil in Hy.
Qed.

Lemma ascii_built_chase : ascii_built chase.
Proof.
  exists default_threshold, [], [("Chase Bank" : str)].
  split; [|split].
  - intros y Hy. by apply elem_of_nil in Hy.
  - intros y Hy. apply elem_of_cons in Hy as [->|Hy]; [done|].
    by apply elem_of_nil in Hy.
  - vm_compute. reflexivity.
Qed.

Lemma null_like_false (x : str) :
  negb (truthy x) || mem (lower x) null_names = false -> ~ null_like x.
Proof.
  intros H [->|N]; [done|]. apply mem_true in N.
  destruct (truthy x); cbn [negb orb] in H; congruence.
Qed.

Lemma pair_of_fst {A B : Type} (X : option (A * B)) (a : A) (d : B) :
  fst <$> X = Some a -> X = Some (a, default d (snd <$> X)).
Proof. destruct X as [[a' b]|]; [|done]. by intros [= ->]. Qed.

Lemma blocked_merge :
  _merge_company_folders blocked wells_fargo wells_fargo_bank
  = Some (false, blocked_after).
Proof.
  unfold blocked_after.
  rewrite (pair_of_fst (_merge_company_folders blocked wells_fargo
                          wells_fargo_bank) false ∅) at 1.
  - by destruct (_merge_company_folders _ _ _) as [[]|].
  - by vm_compute.
Qed.

Lemma wells_merge :
  _merge_company_folders wells wells_fargo wells_fargo_bank
  = Some (true, wells_merged).
Proof.
  unfold wells_merged.
  rewrite (pair_of_fst (_merge_company_folders wells wells_fargo
                          wells_fargo_bank) true ∅) at 1.
  - by destruct (_merge_company_folders _ _ _) as [[]|].
  - by vm_compute.
Qed.

(** *** The string transforms *)

(** X1: on an ASCII name [_proper_case] changes nothing but the case
    of letters: the result has the length of the name, equals it when
    both are lower-cased, and is ASCII. *)
Theorem proper_case_only_changes_case (name : str) :
  isascii name = true ->
  length (_proper_case name) = length name
  /\ lower (_proper_case name) = lower name
  /\ isascii (_proper_case name) = true.
Proof.
  intros H. split; [apply proper_case_length|].
  split; [apply lower_proper_case|].
  by rewrite <- isascii_lower, lower_proper_case, isascii_lower.
Qed.

Lemma proper_case_only_changes_case_witness :
  length (_proper_case ("wells FARGO of the usa" : str)) = 22
  /\ lower (_proper_case ("wells FARGO of the usa" : str))
     = ("wells fargo of the usa" : str)
  /\ isascii (_proper_case ("wells FARGO of the usa" : str)) = true.
Proof.
  apply (proper_case_only_changes_case ("wells FARGO of the usa" : str)).
  reflexivity.
Defined.

(** X2: [_normalize_name] does not see the case of an ASCII name or the
    white space around it: the lower-cased, the upper-cased and the
    stripped name normalize to the same string as the name. *)
Theorem normalize_name_ignores_case_and_margins (name : str) :
  isascii name = true ->
  _normalize_name (lower name) = _normalize_name name
  /\ _normalize_name (upper name) = _normalize_name name
  /\ _normalize_name (strip name) = _normalize_name name.
Proof.
  intros _. split; [apply normalize_name_lower|].
  split; [apply normalize_name_upper | apply normalize_name_strip].
Qed.

Lemma normalize_name_ignores_case_and_margins_witness :
  _normalize_name (lower (" The Chase Bank, Inc. " : str))
  = _normalize_name (" The Chase Bank, Inc. " : str)
  /\ _normalize_name (upper (" The Chase Bank, Inc. " : str))
     = _normalize_name (" The Chase Bank, Inc. " : str)
  /\ _normalize_name (strip (" The Chase Bank, Inc. " : str))
     = _normalize_name (" The Chase Bank, Inc. " : str).
Proof.
  apply (normalize_name_ignores_case_and_margins
           (" The Chase Bank, Inc. " : str)).
  reflexivity.
Defined.

(** X3: [_normalize_name] is idempotent: a normalized name normalizes
    to itself. *)
Theorem normalize_name_idempotent (name : str) :
  _normalize_name (_normalize_name name) = _normalize_name name.
Proof. apply normalize_name_idem. Qed.

(** X4: [_sanitize_name] and [_sanitize_dirname] are idempotent: a
    sanitized name is left as it is when it is sanitized again. *)
Theorem sanitize_name_idempotent (name : str) :
  _sanitize_name (_sanitize_name name) = _sanitize_name name
  /\ _sanitize_dirname (_sanitize_dirname name) = _sanitize_dirname name.
Proof.
  split; [apply sanitize_name_fixed|].
  rewrite !sanitize_dirname_eq. apply sanitize_name_fixed.
Qed.

(** *** The registry *)

(** X5: in every state the registry reaches, no key occurs twice, every
    mapping is stored under its lower-cased canonical name, and the
    variations of a mapping are a set that holds its canonical name. *)
Theorem registry_invariant (st : normalizer) :
  reachable st ->
  NoDup (map fst (company_mappings st))
  /\ forall k m, (k, m) ∈ company_mappings st ->
       k = lower (canonical_name m)
       /\ canonical_name m ∈ variations m
       /\ NoDup (variations m).
Proof.
  intros R. destruct (reachable_wf st R) as (ND & Hk & _).
  split; [done|]. intros k m Hin.
  destruct (reachable_registry_ok st R k m Hin) as (Hc & Hv & _).
  split; [by apply Hk | done].
Qed.

Lemma registry_invariant_witness :
  NoDup (map fst (company_mappings later))
  /\ forall k m, (k, m) ∈ company_mappings later ->
       k = lower (canonical_name m)
       /\ canonical_name m ∈ variations m
       /\ NoDup (variations m).
Proof.
  apply (registry_invariant later).
  apply (normalize_all_reachable later_names chase later reachable_chase).
  vm_compute. reflexivity.
Defined.

(** X6: asking again for the name just normalized gives the same
    answer and leaves the registry as it is. *)
Theorem normalize_twice_same (st st' : normalizer) (x c : str) :
  reachable st -> normalize_company_name st x = Some (c, st') ->
  normalize_company_name st' x = Some (c, st').
Proof. apply normalize_again. Qed.

Lemma normalize_twice_same_witness :
  normalize_company_name (after chase "CHASE BANK INC")
    ("CHASE BANK INC" : str)
  = Some (("Chase Bank" : str), after chase "CHASE BANK INC").
Proof.
  apply (normalize_twice_same chase (after chase "CHASE BANK INC")
           ("CHASE BANK INC" : str) ("Chase Bank" : str)).
  - apply reachable_chase.
  - vm_compute. reflexivity.
Defined.

(** X7: in a registry built from ASCII names, once an ASCII raw name
    has been given a canonical name that is not empty, later calls for
    other ASCII names (names without white space around them, as
    [DocumentInfo] passes them) change neither the answer for that raw
    name nor the folder of its company. *)
Theorem resolved_name_stays (st st1 st2 : normalizer) (x c : str)
    (names : list str) :
  ascii_built st -> isascii x = true -> ~ null_like x -> c <> [] ->
  normalize_company_name st x = Some (c, st1) ->
  (forall y, y ∈ names -> isascii y = true /\ strip y = y) ->
  normalize_all st1 names = Some st2 ->
  normalize_company_name st2 x = Some (c, st2)
  /\ get_folder_name st2 c = get_folder_name st1 c.
Proof.
  intros R%ascii_built_reachable _ G Hc H Hs' Hall.
  assert (Hs : forall y, y ∈ names -> strip y = y).
  { intros y Hy. by apply Hs'. }
  pose proof (reach_normalize st x c st1 R H) as R1.
  pose proof (normalize_resolves st st1 x c R G Hc H) as Hres.
  destruct (normalize_all_resolves names st1 st2 x c R1 Hres Hs Hall)
    as [Hx _].
  split; [by apply normalize_exact|].
  destruct (normalize_registers st st1 x c (reachable_wf st R) G H)
    as (m & Gm & _).
  destruct (normalize_all_keeps names st1 st2 (lower c) m R1 Hs Hall Gm)
    as (m' & Gm' & _ & Hf & _).
  unfold get_folder_name. by rewrite Gm, Gm'.
Qed.

Lemma resolved_name_stays_witness :
  normalize_company_name later ("Chase Bank" : str)
  = Some (("Chase Bank" : str), later)
  /\ get_folder_name later ("Chase Bank" : str)
     = get_folder_name chase ("Chase Bank" : str).
Proof.
  apply (resolved_name_stays fresh chase later
           ("Chase Bank" : str) ("Chase Bank" : str) later_names).
  - apply ascii_built_fresh.
  - reflexivity.
  - apply null_like_false. vm_compute. reflexivity.
  - discriminate.
  - vm_compute. reflexivity.
  - intros y Hy. unfold later_names in Hy. cbn [map] in Hy.
    repeat (apply elem_of_cons in Hy as [->|Hy]; [by vm_compute|]).
    by apply elem_of_nil in Hy.
  - vm_compute. reflexivity.
Defined.

(** X8: in a registry built from ASCII names, a call for an ASCII name
    without white space around it leaves every company of the registry
    under its key, with its canonical name and its folder, and drops
    none of its variations. *)
Theorem registered_companies_kept (st st' : normalizer) (x r : str) :
  ascii_built st -> isascii x = true -> strip x = x ->
  normalize_company_name st x = Some (r, st') ->
  forall k m, dict_get k (company_mappings st) = Some m ->
    exists m', dict_get k (company_mappings st') = Some m'
      /\ canonical_name m' = canonical_name m
      /\ folder_name m' = folder_name m
      /\ forall v, v ∈ variations m -> v ∈ variations m'.
Proof.
  intros R%ascii_built_reachable _. by apply normalize_keeps_companies.
Qed.

Lemma registered_companies_kept_witness :
  exists m',
    dict_get ("chase bank" : str)
      (company_mappings (after chase "CHASE BANK INC")) = Some m'
    /\ canonical_name m' = ("Chase Bank" : str)
    /\ folder_name m' = ("Chase_Bank" : str)
    /\ forall v, v ∈ [("Chase Bank" : str)] -> v ∈ variations m'.
Proof.
  apply (registered_companies_kept chase (after chase "CHASE BANK INC")
           ("CHASE BANK INC" : str) ("Chase Bank" : str)
           ascii_built_chase eq_refl eq_refl eq_refl ("chase bank" : str)
           (mkMapping ("Chase Bank" : str) [("Chase Bank" : str)]
              ("Chase_Bank" : str))).
  vm_compute. reflexivity.
Defined.

(** X9: in a registry whose folder names were all derived from the
    canonical names, a call keeps that so, the folder of the name it
    returns is the sanitized name, and [get_folder_name] gives for every
    name a folder name that is not empty and holds no invalid character
    and no white space. *)
Theorem derived_folders_are_safe (st st' : normalizer) (x c : str) :
  reachable st -> sanitized_folders st ->
  normalize_company_name st x = Some (c, st') ->
  sanitized_folders st'
  /\ (~ null_like x -> get_folder_name st' c = _sanitize_name c)
  /\ forall name, clean_name (get_folder_name st' name).
Proof.
  intros R O H. pose proof (reachable_wf st R) as W.
  pose proof (normalize_sanitized_folders st st' x c W O H) as O'.
  split; [done|]. split; [|intros name; by apply get_folder_name_safe].
  intros G. destruct (normalize_registers st st' x c W G H) as (m & Gm & Hm).
  unfold get_folder_name. rewrite Gm.
  apply dict_get_Some_elem in Gm. by rewrite (O' _ _ Gm), Hm.
Qed.

Lemma derived_folders_are_safe_witness :
  sanitized_folders chase
  /\ (~ null_like ("Chase Bank" : str) ->
      get_folder_name chase ("Chase Bank" : str)
      = _sanitize_name ("Chase Bank" : str))
  /\ forall name, clean_name (get_folder_name chase name).
Proof.
  apply (derived_folders_are_safe fresh chase
           ("Chase Bank" : str) ("Chase Bank" : str)).
  - apply reachable_empty.
  - intros k m Hin. cbn in Hin. by apply elem_of_nil in Hin.
  - vm_compute. reflexivity.
Defined.

(** X10: what a scan registers.  The scan raises when the output
    directory is a file, and only then.  Every mapping comes from a
    directory of the output directory that is not named Unknown: its
    canonical name is the company name read from the directory name, its
    key is that name lower-cased, its folder is the directory and its
    variations are the two names.  Every such directory has its key
    registered, and without an output directory nothing is
    registered. *)
Theorem scan_registers_directories (threshold : Q) t :
  (is_file t [] = true <->
   scan_existing_companies (empty_normalizer threshold) t = None)
  /\ (is_file t [] = false ->
      exists st,
        scan_existing_companies (empty_normalizer threshold) t = Some st
        /\ (forall k m, (k, m) ∈ company_mappings st ->
              exists d, t !! [d] = Some Dir /\ d <> ("Unknown" : str)
                /\ k = lower (canonical_name m)
                /\ canonical_name m = _folder_name_to_company_name d
                /\ (d <> [] -> folder_name m = d)
                /\ forall v, v ∈ variations m <-> v = canonical_name m \/ v = d)
        /\ (forall d, is_Some (t !! []) -> t !! [d] = Some Dir ->
              d <> ("Unknown" : str) ->
              is_Some (dict_get (lower (_folder_name_to_company_name d))
                         (company_mappings st)))
        /\ (t !! [] = None -> company_mappings st = [])).
Proof.
  split; [symmetry; apply scan_raises|].
  intros Hf.
  destruct (scan_existing_companies (empty_normalizer threshold) t)
    as [st|] eqn:Es.
  2:{ apply scan_raises in Es. congruence. }
  exists st. split; [done|].
  apply scan_inv in Es as [[Hroot ->]|[Hroot ->]]; split; [|split| |split].
  - intros k m.
    intros [H|(d & Hd & Hu & -> & ->)]%scan_names_mappings.
    { by apply elem_of_nil in H. }
    exists d. apply dir_names_elem in Hd.
    split; [done|]. split; [done|]. split; [done|]. split; [done|]. split.
    + intros Hne. cbn. by destruct d.
    + intros v. cbn. rewrite !set_add_elem. split.
      * intros [->|[->|H]]; [by right | by left |].
        by apply elem_of_nil in H.
      * intros [-> | ->]; [right; by left | by left].
  - intros d _ Hd Hu.
    apply scan_names_registers; [|done]. by apply dir_names_elem.
  - intros N. congruence.
  - intros k m H. by apply elem_of_nil in H.
  - intros d [n Hn]. congruence.
  - done.
Qed.

(** *** The similarity of equal names *)

(** X11: a name that is not empty and has fewer than 200 characters has
    the similarity one with itself. *)
Theorem similarity_of_equal_names (name : str) :
  name <> [] -> length name < 200 ->
  (_calculate_similarity name name == 1)%Q.
Proof. intros Hne Hlen. by apply calculate_similarity_self. Qed.

Lemma similarity_of_equal_names_witness :
  (_calculate_similarity ("wells fargo" : str) ("wells fargo" : str) == 1)%Q.
Proof.
  apply (similarity_of_equal_names ("wells fargo" : str)).
  - discriminate.
  - vm_compute. lia.
Defined.

(** X12: a raw name whose normalized form is that of the canonical
    name or of a variation of a registered company is never registered
    as a new company, whatever the threshold up to one: the call returns
    the canonical name of a registered company and adds no key.  (The
    normalized form is not empty and has fewer than 200 characters.) *)
Theorem same_normal_form_is_grouped (st : normalizer) (x v : str)
    (e : str * CompanyMapping) :
  reachable st -> (similarity_threshold st <= 1)%Q -> ~ null_like x ->
  e ∈ company_mappings st ->
  v = canonical_name (snd e) \/ v ∈ variations (snd e) ->
  _normalize_name v = _normalize_name x ->
  _normalize_name x <> [] -> length (_normalize_name x) < 200 ->
  exists c st',
    normalize_company_name st x = Some (c, st')
    /\ (exists e', e' ∈ company_mappings st /\ canonical_name (snd e') = c)
    /\ map fst (company_mappings st') = map fst (company_mappings st).
Proof.
  intros R Hth G Hin Hv Hn Hne Hlen. pose proof (reachable_wf st R) as W.
  unfold normalize_company_name. rewrite guard_false by done.
  destruct (some_truthy (_find_exact_match st x)) as [c0|] eqn:E.
  { exists c0, st. split; [done|]. split; [|done].
    apply some_truthy_inv in E as [E _].
    apply find_exact_match_elem in E as (e' & Hin' & _ & ->); [|done].
    by exists e'. }
  pose proof (calculate_similarity_self (_normalize_name x) Hlen Hne) as Hone.
  destruct (fuzzy_hit st x) as (pre & k & m & post & s & Hmap & Hs & Hpos & _ & _ & _ & F).
  { exists e, (_calculate_similarity (_normalize_name x) (_normalize_name v)).
    split; [done|]. split.
    - unfold mapping_scores. apply list_elem_of_fmap. exists v.
      split; [done|]. destruct Hv as [->|Hv]; [by left | by right].
    - rewrite Hn, Hone. split; [done | reflexivity]. }
  assert (Hm : (k, m) ∈ company_mappings st).
  { rewrite Hmap. apply elem_of_app. right. by left. }
  assert (Hc : canonical_name m <> []).
  { intros N.
    rewrite (mapping_scores_empty st _ k m s W Hm N Hs) in Hpos.
    by apply Qlt_irrefl in Hpos. }
  rewrite F, (some_truthy_Some _ Hc).
  destruct (fuzzy_match_key st x _ W F) as (m' & Gm & _). rewrite Gm.
  eexists _, _. split; [done|]. split; [by exists (k, m)|].
  cbn [with_mappings company_mappings]. apply dict_set_keys_old.
  apply dict_get_Some_elem in Gm.
  apply list_elem_of_fmap. by exists (lower (canonical_name m), m').
Qed.

Lemma same_normal_form_is_grouped_witness :
  exists c st',
    normalize_company_name chase ("The CHASE, Inc." : str) = Some (c, st')
    /\ (exists e', e' ∈ company_mappings chase /\ canonical_name (snd e') = c)
    /\ map fst (company_mappings st') = map fst (company_mappings chase).
Proof.
  apply (same_normal_form_is_grouped chase ("The CHASE, Inc." : str)
           ("Chase Bank" : str)
           (("chase bank" : str),
            mkMapping ("Chase Bank" : str) [("Chase Bank" : str)]
              ("Chase_Bank" : str))).
  - apply reachable_chase.
  - apply Qle_bool_iff. vm_compute. reflexivity.
  - apply null_like_false. vm_compute. reflexivity.
  - by left.
  - by left.
  - vm_compute. reflexivity.
  - vm_compute. discriminate.
  - vm_compute. lia.
Defined.

(** X13: two companies whose canonical names have the same normalized
    form (not empty, fewer than 200 characters) are always among the
    candidates [_auto_merge_duplicates] collects, with the score of the
    pair. *)
Theorem equal_names_are_merge_candidates (cs : list CompanyMapping)
    (i j : nat) (A B : CompanyMapping) :
  i < j -> cs !! i = Some A -> cs !! j = Some B ->
  _normalize_name (canonical_name A) = _normalize_name (canonical_name B) ->
  _normalize_name (canonical_name A) <> [] ->
  length (_normalize_name (canonical_name A)) < 200 ->
  (A, B, pair_score A B) ∈ find_duplicates cs.
Proof.
  intros Hij HA HB Hn Hne Hlen. apply find_duplicates_elem.
  exists i, j. split; [done|]. split; [done|]. split; [done|].
  split; [done|]. unfold pair_score. rewrite <- Hn.
  rewrite (calculate_similarity_self _ Hlen Hne). reflexivity.
Qed.

Lemma equal_names_are_merge_candidates_witness :
  (wells_fargo, wells_fargo_bank, pair_score wells_fargo wells_fargo_bank)
  ∈ find_duplicates [wells_fargo; wells_fargo_bank].
Proof.
  apply (equal_names_are_merge_candidates [wells_fargo; wells_fargo_bank]
           0 1 wells_fargo wells_fargo_bank).
  - lia.
  - reflexivity.
  - reflexivity.
  - vm_compute. reflexivity.
  - vm_compute. discriminate.
  - vm_compute. lia.
Defined.

(** *** Merging *)

(** X14: after a successful merge every file of the merged folder is
    in the kept folder, under its own relative path or a numbered name
    beside it, with its content; what was outside the merged folder is
    still there; and outside the two folders nothing has changed. *)
Theorem merge_moves_every_file t t' (c1 c2 : CompanyMapping) :
  folder_name c1 <> folder_name c2 ->
  _merge_company_folders t c1 c2 = Some (true, t') ->
  let keep := fst (kept_and_merged t c1 c2) in
  let merge := snd (kept_and_merged t c1 c2) in
  (forall rel c, rel <> [] ->
     t !! (folder_name merge :: rel) = Some (File c) ->
     exists target, target_of (folder_name keep) rel target
                    /\ t' !! target = Some (File c))
  /\ (forall p n, ~ folder_of merge `prefix_of` p ->
        t !! p = Some n -> t' !! p = Some n)
  /\ (forall p, ~ folder_of keep `prefix_of` p ->
        ~ folder_of merge `prefix_of` p -> t' !! p = t !! p).
Proof. apply merge_moves_all. Qed.

Lemma merge_moves_every_file_witness :
  (forall rel c, rel <> [] ->
     wells !! (("Wells_Fargo_Bank" : str) :: rel) = Some (File c) ->
     exists target, target_of ("Wells_Fargo" : str) rel target
                    /\ wells_merged !! target = Some (File c))
  /\ (forall p n, ~ [("Wells_Fargo_Bank" : str)] `prefix_of` p ->
        wells !! p = Some n -> wells_merged !! p = Some n)
  /\ (forall p, ~ [("Wells_Fargo" : str)] `prefix_of` p ->
        ~ [("Wells_Fargo_Bank" : str)] `prefix_of` p ->
        wells_merged !! p = wells !! p).
Proof.
  apply (merge_moves_every_file wells wells_merged
           wells_fargo wells_fargo_bank).
  - vm_compute. discriminate.
  - apply wells_merge.
Defined.

(** X15: a merge that returns False has lost nothing: the tree holds
    as many files as before, every directory is still there, and the
    content of every file is still in some file. *)
Theorem failed_merge_loses_nothing t (c1 c2 : CompanyMapping) t' :
  _merge_company_folders t c1 c2 = Some (false, t') ->
  file_count t' = file_count t
  /\ (forall p, t !! p = Some Dir -> t' !! p = Some Dir)
  /\ (forall q c, t !! q = Some (File c) -> exists p, t' !! p = Some (File c)).
Proof. apply merge_failed_keeps. Qed.

Lemma failed_merge_loses_nothing_witness :
  file_count blocked_after = file_count blocked
  /\ (forall p, blocked !! p = Some Dir -> blocked_after !! p = Some Dir)
  /\ (forall q c, blocked !! q = Some (File c) ->
        exists p, blocked_after !! p = Some (File c)).
Proof.
  apply (failed_merge_loses_nothing blocked wells_fargo wells_fargo_bank
           blocked_after).
  apply blocked_merge.
Defined.

(** X16: [__init__] raises when the output directory is a file;
    otherwise it returns (each renaming loop of a merge ends), and
    afterwards the folder of every company of the registry is a directory
    of the output directory, whether folders were merged or not.  (No
    directory of the output directory has the empty name.) *)
Theorem init_registry_matches_disk (threshold : Q) (auto : bool) t :
  t !! [[]] <> Some Dir ->
  (is_file t [] = true -> init threshold auto t = None)
  /\ (is_file t [] = false ->
      exists st t',
        init threshold auto t = Some (st, t')
        /\ forall k m, (k, m) ∈ company_mappings st ->
             t' !! [folder_name m] = Some Dir).
Proof.
  intros Hroot. split; [apply init_raises|]. intros Hf.
  destruct (init_returns threshold auto t Hf) as (st & t' & E).
  exists st, t'. split; [done|]. by eapply init_folders_exist.
Qed.

Lemma init_registry_matches_disk_witness :
  exists st t',
    init default_threshold true wells = Some (st, t')
    /\ forall k m, (k, m) ∈ company_mappings st ->
         t' !! [folder_name m] = Some Dir.
Proof.
  apply (init_registry_matches_disk default_threshold true wells).
  - vm_compute. discriminate.
  - vm_compute. reflexivity.
Defined.

(** *** The organizer *)

(** X17: [_ensure_unique_path] always returns, and the path it returns
    does not exist: the path itself when it is free, else the first free
    numbered name in the same directory. *)
Theorem ensure_unique_path_is_free t p :
  exists q,
    _ensure_unique_path t p = Some q
    /\ t !! q = None
    /\ (t !! p = None -> q = p)
    /\ (is_Some (t !! p) ->
        exists k, 1 <= k
          /\ q = parent p ++ [numbered (stem (name p)) k (suffix (name p))]
          /\ forall j, 1 <= j < k ->
               is_Some (t !! (parent p
                              ++ [numbered (stem (name p)) j
                                    (suffix (name p))]))).
Proof. apply ensure_unique_path_spec. Qed.

(** X18: [_sanitize_filename] returns a name that is not empty, has at
    most 200 characters and holds no invalid character and no white
    space. *)
Theorem sanitize_filename_safe (filename : str) :
  clean_name (_sanitize_filename filename)
  /\ length (_sanitize_filename filename) <= 200.
Proof.
  destruct (sanitize_filename_chars filename) as (Hne & Hlen & Hc).
  split; [|done]. split; [done|]. split.
  - intros c Hin%list_elem_of_In. destruct (Hc c Hin) as [Hi _].
    unfold invalid_char in Hi. by apply bool_decide_eq_false in Hi.
  - intros c Hin%list_elem_of_In. by destruct (Hc c Hin).
Qed.

(** X19: the file name [_generate_filename] returns ends with [.pdf],
    has at most 204 characters and holds no invalid character and no
    white space, whatever the pattern and the document. *)
Theorem generate_filename_safe (pattern : str) (doc_info : name_info)
    (use_suggested : bool) :
  let filename := _generate_filename pattern doc_info use_suggested in
  endswith filename (".pdf" : str) = true
  /\ length filename <= 204
  /\ forall c, c ∈ filename -> (c ∉ invalid_chars) /\ isspace c = false.
Proof.
  destruct (generate_filename_chars pattern doc_info use_suggested)
    as (He & Hlen & Hc).
  cbn zeta. split; [done|]. split; [done|].
  intros c Hin%list_elem_of_In. destruct (Hc c Hin) as [Hi Hs].
  split; [|done]. unfold invalid_char in Hi.
  by apply bool_decide_eq_false in Hi.
Qed.

(** X20: [_format_month_folder] returns a name for each of the months
    1 to 12, and the names come in the order of the months: an earlier
    month has the smaller name.  It returns for the integers from -13 to
    12 and raises for every other one; a negative month counts from
    December backwards. *)
Theorem month_folders_in_order (a b : Z) :
  (1 <= a)%Z -> (a < b)%Z -> (b <= 12)%Z ->
  (exists fa fb,
     _format_month_folder a = Some fa /\ _format_month_folder b = Some fb
     /\ str_ltb fa fb = true)
  /\ (forall month,
        is_Some (_format_month_folder month) <-> (-13 <= month <= 12)%Z)
  /\ _format_month_folder (-1) = Some ("-1 - December" : str)
  /\ _format_month_folder 0 = Some ("00 - " : str).
Proof.
  intros Ha Hlt Hb. split; [apply month_folders_ordered; lia|].
  split; [apply format_month_folder_bound|]. by split.
Qed.

Lemma month_folders_in_order_witness :
  (exists fa fb,
     _format_month_folder 9 = Some fa /\ _format_month_folder 10 = Some fb
     /\ str_ltb fa fb = true)
  /\ (forall month,
        is_Some (_format_month_folder month) <-> (-13 <= month <= 12)%Z)
  /\ _format_month_folder (-1) = Some ("-1 - December" : str)
  /\ _format_month_folder 0 = Some ("00 - " : str).
Proof. apply (month_folders_in_order 9 10); lia. Defined.

(** X21: [_cleanup_empty_directories] removes directories only: every
    file is kept, nothing is created, the output directory stays, and a
    directory that is gone was on the way to the given directory and has
    nothing left in it.  The nested calls are no more than the
    components of the path. *)
Theorem cleanup_removes_only_empty_directories t (directory p : path) :
  let t' := _cleanup_empty_directories t directory in
  (forall c, t !! p = Some (File c) -> t' !! p = Some (File c))
  /\ (forall n, t' !! p = Some n -> t !! p = Some n)
  /\ t' !! [] = t !! []
  /\ (is_Some (t !! p) -> t' !! p = None ->
      t !! p = Some Dir /\ p <> [] /\ p `prefix_of` directory
      /\ forall q, q <> [] -> parent q = p -> t' !! q = None)
  /\ forall k, length directory <= k -> cleanup_from k t directory = t'.
Proof.
  cbn zeta. unfold _cleanup_empty_directories.
  set (t' := cleanup_from (length directory) t directory).
  pose proof (cleanup_from_spec (length directory) t directory) as H.
  fold t' in H. split; [|split; [|split; [|split]]].
  - intros c Hc. destruct (H p) as [E|(_ & E & _)]; congruence.
  - intros n Hn. destruct (H p) as [E|(E & _)]; congruence.
  - destruct (H []) as [E|(_ & _ & E & _)]; done.
  - intros [n Hn] Hgone. destruct (H p) as [E|(_ & E)]; [congruence|done].
  - intros k Hk. by apply cleanup_from_enough.
Qed.

(** X22: the folder the organizer takes for the company of a document:
    in a state the registry reaches a folder is always found (no
    exception), and a second document with the same company name gets
    the same folder and leaves the registry as it is. *)
Theorem company_folder_repeats (st : normalizer) (company : str) :
  reachable st ->
  exists folder st',
    company_folder st company = Some (folder, st')
    /\ company_folder st' company = Some (folder, st').
Proof.
  intros R. unfold company_folder.
  destruct (normalize_returns st (or_else company ("Unknown" : str))
              (reachable_wf st R)) as (c & st' & E).
  rewrite E. exists (get_folder_name st' c), st'. split; [done|].
  by rewrite (normalize_again st st' _ c R E).
Qed.

Lemma company_folder_repeats_witness :
  exists folder st',
    company_folder chase ("CHASE BANK INC" : str) = Some (folder, st')
    /\ company_folder st' ("CHASE BANK INC" : str) = Some (folder, st').
Proof.
  apply (company_folder_repeats chase ("CHASE BANK INC" : str)).
  apply reachable_chase.
Defined.

(** X25: the names a [DocumentInfo] holds after [__post_init__] have
    no white space around them, the document type is in lower case, and
    the confidence lies between zero and one. *)
Theorem document_info_is_trimmed (doc_info : Analyzer.DocumentInfo) :
  let d := Analyzer.__post_init__ doc_info in
  strip (Analyzer.company_name d) = Analyzer.company_name d
  /\ strip (Analyzer.document_type d) = Analyzer.document_type d
  /\ lower (Analyzer.document_type d) = Analyzer.document_type d
  /\ (0 <= Analyzer.confidence_score d <= 1)%Q.
Proof.
  cbn zeta. unfold Analyzer.__post_init__.
  cbn [Analyzer.company_name Analyzer.document_type Analyzer.confidence_score].
  split; [|split; [|split]].
  - destruct (truthy _) eqn:E; [apply strip_by_idem|].
    apply truthy_false in E. by rewrite E.
  - destruct (truthy _) eqn:E; [apply strip_by_idem|].
    apply truthy_false in E. by rewrite E.
  - destruct (truthy _) eqn:E.
    + by rewrite strip_lower, lower_idem.
    + apply truthy_false in E. by rewrite E.
  - unfold Analyzer.py_max, Analyzer.py_min.
    destruct (Qltb (Analyzer.confidence_score doc_info) 1) eqn:E1.
    + apply Qltb_lt in E1.
      destruct (Qltb 0 (Analyzer.confidence_score doc_info)) eqn:E2.
      * apply Qltb_lt in E2. split; by apply Qlt_le_weak.
      * split; [apply Qle_refl | done].
    + split; done.
Qed.

(** *** Listing and statistics *)

(** X23: [list_companies] lists the companies of the registry, each
    once, in the strictly increasing order of their canonical names. *)
Theorem list_companies_sorted (st : normalizer) :
  reachable st ->
  list_companies st ≡ₚ map snd (company_mappings st)
  /\ StronglySorted
       (fun a b => str_ltb (canonical_name a) (canonical_name b) = true)
       (list_companies st).
Proof.
  intros R. unfold list_companies.
  split; [apply sorted_by_name_perm|].
  apply sorted_strict; [|apply sorted_by_name_sorted].
  assert (P : map canonical_name
                (sorted_by_name (map snd (company_mappings st)))
              ≡ₚ map canonical_name (map snd (company_mappings st))).
  { apply Permutation_map, sorted_by_name_perm. }
  rewrite P. apply canonical_names_NoDup. by apply reachable_wf.
Qed.

Lemma list_companies_sorted_witness :
  list_companies later ≡ₚ map snd (company_mappings later)
  /\ StronglySorted
       (fun a b => str_ltb (canonical_name a) (canonical_name b) = true)
       (list_companies later).
Proof.
  apply (list_companies_sorted later).
  apply (normalize_all_reachable later_names chase later reachable_chase).
  vm_compute. reflexivity.
Defined.

(** X24: the statistics of a registry: there are at least as many
    variations as companies, the average is zero for an empty registry
    and at least one otherwise. *)
Theorem statistics_consistent (st : normalizer) :
  reachable st ->
  total_companies (get_statistics st) <= total_variations (get_statistics st)
  /\ (company_mappings st = [] ->
      average_variations_per_company (get_statistics st) = 0%Q)
  /\ (company_mappings st <> [] ->
      (1 <= average_variations_per_company (get_statistics st))%Q).
Proof.
  intros R. pose proof (reachable_registry_ok st R) as O.
  pose proof (variations_count (company_mappings st) O) as Hc.
  unfold get_statistics.
  cbn [total_companies total_variations average_variations_per_company].
  split; [done|]. split.
  - by intros ->.
  - intros Hne. destruct (company_mappings st) as [|e l] eqn:E; [done|].
    rewrite <- E in *. apply average_at_least_one; [|done].
    rewrite E. cbn [length]. lia.
Qed.

Lemma statistics_consistent_witness :
  total_companies (get_statistics later)
    <= total_variations (get_statistics later)
  /\ (company_mappings later = [] ->
      average_variations_per_company (get_statistics later) = 0%Q)
  /\ (company_mappings later <> [] ->
      (1 <= average_variations_per_company (get_statistics later))%Q).
Proof.
  apply (statistics_consistent later).
  apply (normalize_all_reachable later_names chase later reachable_chase).
  vm_compute. reflexivity.
Defined.

End Extras.
